(** * Multi-angle QAOA: a shallow embedding of the simulation, the closed-form
      evaluators and the multi-start optimisation drivers.

    Source files embedded here:
    - [src/qaoa_core.py]          (module [QaoaCore])
    - [src/src/analytical.py]     (module [Analytical])
    - [src/src/optimization.py]   (module [Optimization])

    Numbers: numpy's float64 is read as a real number and complex128 as a
    pair of reals, so every arithmetic operation is exact.  Python
    exceptions are values of [exn]; a computation that may raise has type
    [py A]. *)

From Stdlib Require Import Reals Lra Lia List Arith ZArith Permutation.
From stdpp Require Import base option list gmap strings.

Open Scope R_scope.

(** ** Python exceptions and the error monad *)

Inductive exn : Type :=
| IndexError
| KeyError
| TypeError
| ValueError
| ZeroDivisionError
| AssertionError (msg : string).

Inductive py (A : Type) : Type :=
| Ok (a : A)
| Raise (e : exn).
Arguments Ok {A} a.
Arguments Raise {A} e.

Definition bind {A B : Type} (m : py A) (k : A -> py B) : py B :=
  match m with
  | Ok a => k a
  | Raise e => Raise e
  end.

Notation "'try!' x := m 'in' k" := (bind m (fun x => k))
  (at level 10, x name, m at level 100, k at level 200).

(** A [for] loop whose body may raise: the accumulator is threaded through
    the items in order and the first exception stops the loop. *)
Fixpoint foldM {A B : Type} (f : A -> B -> py A) (l : list B) (a : A) : py A :=
  match l with
  | [] => Ok a
  | x :: l' => try! a' := f a x in foldM f l' a'
  end.

Fixpoint mapM {A B : Type} (f : A -> py B) (l : list A) : py (list B) :=
  match l with
  | [] => Ok []
  | x :: l' => try! y := f x in try! ys := mapM f l' in Ok (y :: ys)
  end.

(** [a[i]] for a non-negative index: [IndexError] out of range. *)
Definition index {A : Type} (l : list A) (i : nat) : py A :=
  match l !! i with
  | Some x => Ok x
  | None => Raise IndexError
  end.

(** [m[i, j]] on a two-dimensional array stored as its list of rows. *)
Definition index2 {A : Type} (m : list (list A)) (i j : nat) : py A :=
  try! row := index m i in index row j.

(** [m[:, j]]: the j-th column of a two-dimensional array. *)
Definition column {A : Type} (m : list (list A)) (j : nat) : py (list A) :=
  mapM (fun row => index row j) m.

(** [m.shape[0]] and [m.shape[1]] of a rectangular array given by its rows.
    An array built from no row at all is one-dimensional, and asking for its
    second dimension is an [IndexError]. *)
Definition shape0 {A : Type} (m : list (list A)) : nat := length m.
Definition shape1 {A : Type} (m : list (list A)) : py nat :=
  match m with
  | [] => Raise IndexError
  | row :: _ => Ok (length row)
  end.

(** [a[lo:hi]] for [0 <= lo]: slices never raise. *)
Definition slice {A : Type} (l : list A) (lo hi : nat) : list A :=
  take (hi - lo) (drop lo l).

(** ** Complex numbers (complex128 read as a pair of reals) *)

Record C : Type := mkC { Re : R; Im : R }.

Definition RtoC (x : R) : C := mkC x 0.
Definition C0 : C := RtoC 0.
Definition C1 : C := RtoC 1.
Definition Ci : C := mkC 0 1.
Definition Cadd (a b : C) : C := mkC (Re a + Re b) (Im a + Im b).
Definition Copp (a : C) : C := mkC (- Re a) (- Im a).
Definition Cmul (a b : C) : C :=
  mkC (Re a * Re b - Im a * Im b) (Re a * Im b + Im a * Re b).
Definition Cconj (a : C) : C := mkC (Re a) (- Im a).
Definition Cdivr (a : C) (x : R) : C := mkC (Re a / x) (Im a / x).
(** [np.exp] at a complex argument. *)
Definition Cexp (z : C) : C :=
  mkC (exp (Re z) * cos (Im z)) (exp (Re z) * sin (Im z)).
(** Squared modulus. *)
Definition Cnorm2 (a : C) : R := Re a * Re a + Im a * Im a.

(** [sum] and [math.prod] over Python floats. *)
Definition Rsum (l : list R) : R := fold_left Rplus l 0.
Definition Rprod (l : list R) : R := fold_left Rmult l 1.
Definition Csum (l : list C) : C := fold_left Cadd l C0.

(** Squared Euclidean norm and Euclidean norm of a state vector. *)
Definition norm2 (psi : list C) : R := Rsum (map Cnorm2 psi).
Definition norm (psi : list C) : R := sqrt (norm2 psi).

(** ** numpy values: scalars and one-dimensional arrays, with broadcasting *)

Inductive npval : Type :=
| NScalar (z : C)
| NArray (l : list C).

(** Element-wise [a * b] with numpy broadcasting on 1-D shapes: equal
    lengths multiply pointwise, a length-1 operand is stretched, anything
    else is a shape error. *)
Definition arr_mul (a b : list C) : py (list C) :=
  if decide (length a = length b) then Ok (zip_with Cmul a b)
  else match a, b with
       | [x], _ => Ok (map (Cmul x) b)
       | _, [y] => Ok (map (fun x => Cmul x y) a)
       | _, _ => Raise ValueError
       end.

Definition np_mul (a b : npval) : py npval :=
  match a, b with
  | NScalar x, NScalar y => Ok (NScalar (Cmul x y))
  | NScalar x, NArray l => Ok (NArray (map (Cmul x) l))
  | NArray l, NScalar y => Ok (NArray (map (fun x => Cmul x y) l))
  | NArray l1, NArray l2 => try! l := arr_mul l1 l2 in Ok (NArray l)
  end.

(** [math.prod(items)]: left-to-right product starting from the integer 1. *)
Definition math_prod (items : list npval) : py npval :=
  foldM np_mul items (NScalar C1).

(** ** The graph collaborator (networkx [Graph])

    An undirected graph is its node list and its edge list, both in
    insertion order; every edge carries one attribute dictionary, shared by
    its two orientations, with the keys ["weight"] and ["gamma"] used
    below. *)

Record Graph : Type := mkGraph {
  nodes : list nat;
  edges : list (nat * nat * gmap string R)
}.

Definition same_edge (u v a b : nat) : bool :=
  ((u =? a)%nat && (v =? b)%nat) || ((u =? b)%nat && (v =? a)%nat).

(** [graph.edges] iterated as pairs. *)
Definition edge_pairs (graph : Graph) : list (nat * nat) :=
  map (fun e => (e.1.1, e.1.2)) (edges graph).

(** [graph.edges.data(name)]: the attribute is [None] where it is missing. *)
Definition edges_data (graph : Graph) (name : string)
    : list (nat * nat * option R) :=
  map (fun e => (e.1.1, e.1.2, e.2 !! name)) (edges graph).

(** [graph.edges[u, v][name]]: [KeyError] when the edge or the attribute is
    missing. *)
Definition edge_attr (graph : Graph) (u v : nat) (name : string) : py R :=
  match List.find (fun e => same_edge u v e.1.1 e.1.2) (edges graph) with
  | Some e =>
      match e.2 !! name with
      | Some x => Ok x
      | None => Raise KeyError
      end
  | None => Raise KeyError
  end.

(** [graph[u]]: the neighbours of [u]; [KeyError] when [u] is not a node. *)
Definition adj (graph : Graph) (u : nat) : py (list nat) :=
  if decide (u ∈ nodes graph)
  then Ok (remove_dups
             (omap (fun e => if (u =? e.1.1)%nat then Some e.1.2
                             else if (u =? e.1.2)%nat then Some e.1.1
                             else None) (edges graph)))
  else Raise KeyError.

(** [G[u][v][name] = value], skipped when the edge is missing. *)
Definition set_edge_attribute (graph : Graph) (u v : nat) (name : string)
    (value : R) : Graph :=
  mkGraph (nodes graph)
          (map (fun e => if same_edge u v e.1.1 e.1.2
                         then (e.1, <[ name := value ]> e.2) else e)
               (edges graph)).

(** [nx.set_edge_attributes(graph, values, name)] for a dictionary [values]
    from edges to values, given by its items. *)
Definition set_edge_attributes (graph : Graph)
    (values : list (nat * nat * R)) (name : string) : Graph :=
  fold_left (fun g item => set_edge_attribute g item.1.1 item.1.2 name item.2)
            values graph.

(** [enumerate(l)] *)
Definition enumerate {A : Type} (l : list A) : list (nat * A) :=
  imap (fun i x => (i, x)) l.

(** ** The depth-1 closed form, shared by [run_ma_qaoa_analytical_p1] of
    qaoa_core.py and [calc_expectation_ma_qaoa_analytical_p1] of
    analytical.py, whose bodies are the same text. *)

(** [{(u, v): gammas[i] * w for i, (u, v, w) in
     enumerate(graph.edges.data('weight'))}] *)
Definition scaled_gammas (graph : Graph) (gammas : list R)
    : py (list (nat * nat * R)) :=
  mapM (fun item : nat * (nat * nat * option R) =>
          try! g := index gammas item.1 in
          match item.2.2 with
          | Some w => Ok (item.2.1, g * w)
          | None => Raise TypeError
          end)
       (enumerate (edges_data graph "weight")).

(** [math.prod([cos(graph.edges[u, m]['gamma']) for m in ms])] *)
Definition cos_prod (graph : Graph) (u : nat) (ms : list nat) : py R :=
  try! cs := mapM (fun m => try! g := edge_attr graph u m "gamma" in
                            Ok (cos g)) ms in
  Ok (Rprod cs).

(** [math.prod([cos(graph.edges[u, m]['gamma'] + s * graph.edges[v, m]['gamma'])
     for m in f])] with [s = 1] (plus) or [s = -1] (minus). *)
Definition cos_prod_f (graph : Graph) (s : R) (u v : nat) (f : list nat)
    : py R :=
  try! cs := mapM (fun m => try! gu := edge_attr graph u m "gamma" in
                            try! gv := edge_attr graph v m "gamma" in
                            Ok (cos (gu + s * gv))) f in
  Ok (Rprod cs).

(** The body of the loop over [edge_list]: the contribution [cuv] of the
    edge [(u, v)]. *)
Definition edge_term (graph : Graph) (betas : list R) (u v : nat) : py R :=
  try! w := edge_attr graph u v "weight" in
  let cuv := w / 2 in
  try! gu := adj graph u in
  let d := filter (fun m => m ≠ v) gu in
  try! gv := adj graph v in
  let e := filter (fun m => m ≠ u) gv in
  let f := filter (fun m => m ∈ e) d in
  try! cos_prod_d := cos_prod graph u (filter (fun m => m ∉ f) d) in
  try! cos_prod_e := cos_prod graph v (filter (fun m => m ∉ f) e) in
  try! tri :=
    (if decide (length f ≠ 0%nat) then
       try! cos_prod_f_plus := cos_prod_f graph 1 u v f in
       try! cos_prod_f_minus := cos_prod_f graph (-1) u v f in
       try! bu := index betas u in
       try! bv := index betas v in
       let cuv := cuv + w / 4 * sin (2 * bu) * sin (2 * bv) * cos_prod_d
                        * cos_prod_e * (cos_prod_f_plus - cos_prod_f_minus) in
       try! fu := cos_prod graph u f in
       try! fv := cos_prod graph v f in
       Ok (cuv, cos_prod_d * fu, cos_prod_e * fv)
     else Ok (cuv, cos_prod_d, cos_prod_e)) in
  let cuv := tri.1.1 in
  let cos_prod_d := tri.1.2 in
  let cos_prod_e := tri.2 in
  try! g := edge_attr graph u v "gamma" in
  try! bu := index betas u in
  try! bv := index betas v in
  Ok (cuv + w / 2 * sin g *
            (sin (2 * bu) * cos (2 * bv) * cos_prod_d
             + cos (2 * bu) * sin (2 * bv) * cos_prod_e)).

(** The whole evaluator.  The graph is a shared mutable object: the result
    is paired with the graph as the call leaves it. *)
Definition ma_qaoa_analytical_p1 (angles : list R) (graph : Graph)
    (edge_list : option (list (nat * nat))) : py R * Graph :=
  let edge_list :=
    match edge_list with
    | None => edge_pairs graph
    | Some l => l
    end in
  let gammas := slice angles 0 (length (edges graph)) in
  let betas := drop (length (edges graph)) angles in
  match scaled_gammas graph gammas with
  | Raise e => (Raise e, graph)
  | Ok values =>
      let graph := set_edge_attributes graph values "gamma" in
      (foldM (fun objective uv =>
                try! cuv := edge_term graph betas uv.1 uv.2 in
                Ok (objective + cuv))
             edge_list 0,
       graph)
  end.

(** ** The basis index provider (preprocessing.py, not part of the sources) *)

(** Modelled from the spec: [get_all_binary_labelings], the bit-value table
    of the missing preprocessing module: a 2^n x n matrix of 0/1 whose entry
    (label, qubit) is that qubit's value in the label.  Qubit [q] is read as
    binary digit [q] of the label. *)
Definition get_all_binary_labelings (n : nat) : list (list nat) :=
  map (fun label => map (fun q => if Nat.testbit label q then 1%nat else 0%nat)
                        (seq 0 n))
      (seq 0 (2 ^ n)).

(** Modelled from the spec: [get_neighbour_labelings], the neighbour table of
    the missing preprocessing module: a 2^n x n matrix whose entry
    (label, qubit) is the label with that qubit's bit flipped. *)
Definition get_neighbour_labelings (n : nat) : list (list nat) :=
  map (fun label => map (fun q => Nat.lxor label (2 ^ q)) (seq 0 n))
      (seq 0 (2 ^ n)).

(** Modelled from the spec: [check_edge_cut], the cut indicator of one edge
    at one basis label, of the missing preprocessing module.  It receives
    the label's bit row and the two endpoints, and nothing else. *)
Definition check_edge_cut (labeling : list nat) (u v : nat) : py R :=
  try! a := index labeling u in
  try! b := index labeling v in
  Ok (if decide (a = b) then 0 else 1).

(** ** src/qaoa_core.py *)

Module QaoaCore.

(** [np.exp(-1j * gammas[i] * all_cuv_vals[i, :])] *)
Definition uc_factor (gamma : R) (row : list R) : npval :=
  NArray (map (fun c => Cexp (Cmul (Cmul (Copp Ci) (RtoC gamma)) (RtoC c))) row).

Definition apply_uc (all_cuv_vals : list (list R)) (gammas : list R)
    (psi : list C) : py (list C) :=
  try! factors := mapM (fun i => try! gamma := index gammas i in
                                 try! row := index all_cuv_vals i in
                                 Ok (uc_factor gamma row))
                       (seq 0 (length gammas)) in
  try! prod := math_prod factors in
  try! res := np_mul prod (NArray psi) in
  match res with
  | NArray l => Ok l
  | NScalar _ => Raise TypeError
  end.

(** [[cos b, -1j sin b], [-1j sin b, cos b]] *)
Definition get_exp_x (beta : R) : list (list C) :=
  [ [ RtoC (cos beta); Cmul (Copp Ci) (RtoC (sin beta)) ];
    [ Cmul (Copp Ci) (RtoC (sin beta)); RtoC (cos beta) ] ].

(** [res[i] += z], out of range is an [IndexError].  (The source runs this
    loop under numba, which does not check bounds; an access out of range
    has no defined result there, and is an error here.) *)
Definition add_at (i : nat) (z : C) (res : list C) : py (list C) :=
  try! x := index res i in Ok (<[ i := Cadd x z ]> res).

(** One iteration of the loop of [apply_unitary_one_qubit]. *)
Definition one_qubit_step (unitary : list (list C)) (psi : list C)
    (target_neighbours target_vals : list nat) (res : list C) (i : nat)
    : py (list C) :=
  try! psi_i := index psi i in
  try! t := index target_vals i in
  try! u_same := index2 unitary t t in
  try! res := add_at i (Cmul psi_i u_same) res in
  try! n := index target_neighbours i in
  try! u_flip := index2 unitary (1 - t)%nat t in
  add_at n (Cmul psi_i u_flip) res.

Definition apply_unitary_one_qubit (unitary : list (list C)) (psi : list C)
    (target_neighbours target_vals : list nat) : py (list C) :=
  foldM (one_qubit_step unitary psi target_neighbours target_vals)
        (seq 0 (length psi)) (replicate (length psi) C0).

Definition ub_step (betas : list R) (neighbours basis_bin : list (list nat))
    (res : list C) (i : nat) : py (list C) :=
  try! beta := index betas i in
  try! nb := column neighbours i in
  try! tv := column basis_bin i in
  apply_unitary_one_qubit (get_exp_x beta) res nb tv.

Definition apply_ub_individual (betas : list R) (psi : list C)
    (neighbours basis_bin : list (list nat)) : py (list C) :=
  try! num_qubits := shape1 neighbours in
  foldM (ub_step betas neighbours basis_bin) (seq 0 num_qubits) psi.

(** [np.real(np.vdot(psi, diagonal_vals * psi))] *)
Definition calc_expectation_diagonal (psi : list C) (diagonal_vals : list R)
    : py R :=
  try! dpsi := arr_mul (map RtoC diagonal_vals) psi in
  if decide (length psi = length dpsi)
  then Ok (Re (Csum (zip_with (fun a b => Cmul (Cconj a) b) psi dpsi)))
  else Raise ValueError.

(** [np.sum(all_cuv_vals[edge_inds, :], 0)]: the column sums of the selected
    rows. *)
Definition sum_rows (all_cuv_vals : list (list R)) (edge_inds : list nat)
    : py (list R) :=
  try! rows := mapM (index all_cuv_vals) edge_inds in
  try! N := shape1 all_cuv_vals in
  Ok (fold_left (zip_with Rplus) rows (replicate N 0)).

(** The initial state [np.ones(N) / np.sqrt(N)]. *)
Definition uniform_state (N : nat) : list C :=
  replicate N (Cdivr C1 (sqrt (INR N))).

(** One pass of the layer loop of [run_ma_qaoa_simulation]. *)
Definition layer_step (angles : list R) (num_angles_per_layer : nat)
    (all_cuv_vals : list (list R)) (neighbours basis_bin : list (list nat))
    (psi : list C) (i : nat) : py (list C) :=
  let layer_angles :=
    slice angles (i * num_angles_per_layer) ((i + 1) * num_angles_per_layer) in
  let gammas := take (shape0 all_cuv_vals) layer_angles in
  try! psi := apply_uc all_cuv_vals gammas psi in
  let betas := drop (shape0 all_cuv_vals) layer_angles in
  apply_ub_individual betas psi neighbours basis_bin.

(** The state vector after the first [k] passes of the layer loop (the loop
    itself runs [k = p] passes).  [int(len(angles) / p)] raises for [p = 0]
    and truncates the quotient otherwise. *)
Definition simulate_layers (angles : list R) (p : Z) (k : nat)
    (all_cuv_vals : list (list R)) (neighbours basis_bin : list (list nat))
    : py (list C) :=
  try! N := shape1 all_cuv_vals in
  let psi := uniform_state N in
  if decide (p = 0%Z) then Raise ZeroDivisionError
  else
    let num_angles_per_layer :=
      Z.to_nat (Z.quot (Z.of_nat (length angles)) p) in
    foldM (layer_step angles num_angles_per_layer all_cuv_vals neighbours basis_bin)
          (seq 0 k) psi.

Definition run_ma_qaoa_simulation (angles : list R) (p : Z)
    (all_cuv_vals : list (list R)) (neighbours basis_bin : list (list nat))
    (edge_inds : option (list nat)) : py R :=
  let edge_inds :=
    match edge_inds with
    | None => seq 0 (shape0 all_cuv_vals)
    | Some l => l
    end in
  try! psi := simulate_layers angles p (Z.to_nat p) all_cuv_vals neighbours basis_bin in
  try! diag := sum_rows all_cuv_vals edge_inds in
  calc_expectation_diagonal psi diag.

(** [maqaoa_angles += [gamma] * num_edges; maqaoa_angles += [beta] * num_nodes]
    for each pair of [zip(angles[::2], angles[1::2])]. *)
Fixpoint convert_angles_qaoa_to_multi_angle (angles : list R)
    (num_edges num_nodes : nat) : list R :=
  match angles with
  | gamma :: beta :: rest =>
      replicate num_edges gamma ++ replicate num_nodes beta
        ++ convert_angles_qaoa_to_multi_angle rest num_edges num_nodes
  | _ => []
  end.

Definition run_qaoa_simulation (angles : list R) (p : Z)
    (all_cuv_vals : list (list R)) (neighbours basis_bin : list (list nat))
    (edge_inds : option (list nat)) : py R :=
  try! num_nodes := shape1 neighbours in
  let angles_maqaoa :=
    convert_angles_qaoa_to_multi_angle angles (shape0 all_cuv_vals) num_nodes in
  run_ma_qaoa_simulation angles_maqaoa p all_cuv_vals neighbours basis_bin edge_inds.

Definition run_ma_qaoa_analytical_p1 (angles : list R) (graph : Graph)
    (edge_list : option (list (nat * nat))) : py R * Graph :=
  ma_qaoa_analytical_p1 angles graph edge_list.

Definition run_qaoa_analytical_p1 (angles : list R) (graph : Graph)
    (edge_list : option (list (nat * nat))) : py R * Graph :=
  let angles_maqaoa :=
    convert_angles_qaoa_to_multi_angle angles (length (edges graph))
                                       (length (nodes graph)) in
  run_ma_qaoa_analytical_p1 angles_maqaoa graph edge_list.

Definition change_sign {A : Type} (func : A -> py R) : A -> py R :=
  fun args => try! r := func args in Ok (- r).

(** [list.index]: position of the first element equal to [x]. *)
Fixpoint list_index (l : list (nat * nat)) (x : nat * nat) : py nat :=
  match l with
  | [] => Raise ValueError
  | y :: l' => if decide (y = x) then Ok 0%nat
               else try! i := list_index l' x in Ok (S i)
  end.

(** The tables the driver builds before a simulation run. *)
Record tables : Type := mkTables {
  neighbours : list (list nat);
  all_labelings : list (list nat);
  all_cuv_vals : list (list R);
  edge_inds : option (list nat)
}.

Definition preprocessing (graph : Graph)
    (edge_list : option (list (nat * nat))) : py tables :=
  let neighbours := get_neighbour_labelings (length (nodes graph)) in
  let all_labelings := get_all_binary_labelings (length (nodes graph)) in
  try! all_cuv_vals :=
    mapM (fun uv : nat * nat =>
            mapM (fun labeling => check_edge_cut labeling uv.1 uv.2)
                 all_labelings)
         (edge_pairs graph) in
  let all_edge_list := edge_pairs graph in
  try! edge_inds :=
    match edge_list with
    | None => Ok None
    | Some l => try! inds := mapM (list_index all_edge_list) l in Ok (Some inds)
    end in
  Ok (mkTables neighbours all_labelings all_cuv_vals edge_inds).

(** The result object of [scipy.optimize.minimize]. *)
Record OptimizeResult : Type := mkResult { x : list R; fun_ : R }.

(** The variables of the restart loop, with the starting points handed to the
    local optimizer so far. *)
Record loop_state : Type := mkState {
  objective_best : R;
  angles_best : list R;
  starts : list (list R)
}.

Section Driver.
(** The local optimizer [optimize.minimize(func, x0)] and the random source
    [np.random.uniform(-np.pi, np.pi, size)] (its [k]-th draw) are
    collaborators outside the sources. *)
Variable minimize : (list R -> py R) -> list R -> OptimizeResult.
Variable uniform : nat -> nat -> list R.

(** The part of the loop body after the early-stop test. *)
Definition restart (func : list R -> py R) (st : loop_state) (opt_ind : nat)
    : loop_state :=
  let next_angles := uniform opt_ind (length (angles_best st)) in
  let result := minimize func next_angles in
  if Rgt_dec (- fun_ result) (objective_best st)
  then mkState (- fun_ result) (map (fun a => a / PI) next_angles)
               (starts st ++ [next_angles])
  else mkState (objective_best st) (angles_best st)
               (starts st ++ [next_angles]).

(** [for opt_ind in range(...)] with its [break]. *)
Fixpoint attempts (func : list R -> py R) (objective_max : R)
    (inds : list nat) (st : loop_state) : loop_state :=
  match inds with
  | [] => st
  | opt_ind :: rest =>
      if Rlt_dec (objective_max - objective_best st) 1e-3 then st
      else attempts func objective_max rest (restart func st opt_ind)
  end.

(** [optimize_qaoa_angles] up to the end of its loop. *)
Definition optimize_loop (multi_angle use_analytical : bool) (p : Z)
    (graph : Graph) (edge_list : option (list (nat * nat)))
    : py loop_state :=
  let optimization_attempts := 10%nat in
  if negb (negb use_analytical || (p =? 1)%Z)
  then Raise (AssertionError "Cannot use analytical for p != 1")
  else
    try! pre := (if negb use_analytical
                 then try! t := preprocessing graph edge_list in Ok (Some t)
                 else Ok None) in
    let num_angles_per_layer :=
      if multi_angle then (length (edges graph) + length (nodes graph))%nat
      else 2%nat in
    try! angles_best :=
      (if decide (0 <= Z.of_nat num_angles_per_layer * p)%Z
       then Ok (replicate (Z.to_nat (Z.of_nat num_angles_per_layer * p)) 0)
       else Raise ValueError) in
    try! weights := mapM (fun e : nat * nat * option R =>
                            match e.2 with
                            | Some w => Ok w
                            | None => Raise TypeError
                            end) (edges_data graph "weight") in
    let objective_max := Rsum weights in
    let func : list R -> py R :=
      match pre with
      | None =>
          if multi_angle
          then change_sign (fun a => (run_ma_qaoa_analytical_p1 a graph edge_list).1)
          else change_sign (fun a => (run_qaoa_analytical_p1 a graph edge_list).1)
      | Some t =>
          if multi_angle
          then change_sign (fun a => run_ma_qaoa_simulation a p (all_cuv_vals t)
                                       (neighbours t) (all_labelings t) (edge_inds t))
          else change_sign (fun a => run_qaoa_simulation a p (all_cuv_vals t)
                                       (neighbours t) (all_labelings t) (edge_inds t))
      end in
    Ok (attempts func objective_max (seq 0 optimization_attempts)
                 (mkState 0 angles_best [])).

(** The driver returns the best objective alone. *)
Definition optimize_qaoa_angles (multi_angle use_analytical : bool) (p : Z)
    (graph : Graph) (edge_list : option (list (nat * nat))) : py R :=
  try! st := optimize_loop multi_angle use_analytical p graph edge_list in
  Ok (objective_best st).

End Driver.

End QaoaCore.

(** ** src/src/analytical.py *)

Module Analytical.

Section Z1.
(** [get_index_edge_list] of the missing graph_utils module: the edges of
    the graph as pairs of node indices. *)
Variable get_index_edge_list : Graph -> list (nat * nat).

(** One pass of the loop: [angles[edge]] and [angles[edge + len(graph)]]
    are the entries at the two endpoints, then the update of
    [expectation]. *)
Definition z1_step (angles : list R) (graph : Graph) (expectation : R)
    (edge : nat * nat) : py R :=
  try! gamma0 := index angles edge.1 in
  try! gamma1 := index angles edge.2 in
  try! beta0 := index angles (edge.1 + length (nodes graph)) in
  try! beta1 := index angles (edge.2 + length (nodes graph)) in
  Ok (expectation
      - sin (2 * beta0) * sin (2 * beta1) * sin (2 * gamma0) * sin (2 * gamma1) / 2).

Definition calc_expectation_general_analytical_z1 (angles : list R)
    (graph : Graph) : py R :=
  let expectation := INR (length (edges graph)) / 2 in
  foldM (z1_step angles graph) (get_index_edge_list graph) expectation.

Definition calc_expectation_general_analytical_z1_reduced (angles : list R)
    (graph : Graph) : py R :=
  let full_angles := replicate (length (nodes graph)) (PI / 4) ++ angles in
  calc_expectation_general_analytical_z1 full_angles graph.
End Z1.

Definition calc_expectation_ma_qaoa_analytical_p1 (angles : list R)
    (graph : Graph) (edge_list : option (list (nat * nat))) : py R * Graph :=
  ma_qaoa_analytical_p1 angles graph edge_list.

(** The body of the loop of [calc_expectation_random_qaoa_analytical_p1]:
    the contribution of the pair [(u, v)].  [gammas] and [betas] are the two
    numbers [angles[0]] and [angles[1]]; only [graph_random] is looked at,
    and none of its attributes. *)
Definition random_edge_term (gammas betas : R) (graph_random : Graph)
    (u v : nat) : py R :=
  let cuv := 1 / 2 in
  try! gu := adj graph_random u in
  let d := filter (fun m => m ≠ v) gu in
  try! gv := adj graph_random v in
  let e := filter (fun m => m ≠ u) gv in
  let f := filter (fun m => m ∈ e) d in
  let cos_prod_d :=
    Rprod (map (fun _ => cos gammas) (filter (fun m => m ∉ f) d)) in
  let cos_prod_e :=
    Rprod (map (fun _ => cos gammas) (filter (fun m => m ∉ f) e)) in
  let tri :=
    if decide (length f ≠ 0%nat) then
      let cos_prod_f_plus := Rprod (map (fun _ => cos (gammas + gammas)) f) in
      let cos_prod_f_minus := Rprod (map (fun _ => cos (gammas - gammas)) f) in
      (cuv + 1 / 4 * sin (2 * betas) * sin (2 * betas) * cos_prod_d
             * cos_prod_e * (cos_prod_f_plus - cos_prod_f_minus),
       cos_prod_d * Rprod (map (fun _ => cos gammas) f),
       cos_prod_e * Rprod (map (fun _ => cos gammas) f))
    else (cuv, cos_prod_d, cos_prod_e) in
  let cuv := tri.1.1 in
  let cos_prod_d := tri.1.2 in
  let cos_prod_e := tri.2 in
  try! gv' := adj graph_random v in
  Ok (if decide (u ∈ gv')
      then cuv + 1 * 1 / 2 * sin gammas
                 * (sin (2 * betas) * cos (2 * betas) * cos_prod_d
                    + cos (2 * betas) * sin (2 * betas) * cos_prod_e)
      else cuv).

Definition calc_expectation_random_qaoa_analytical_p1 (angles : list R)
    (graph graph_random : Graph) (edge_list : option (list (nat * nat)))
    : py R :=
  let edge_list :=
    match edge_list with
    | None => edge_pairs graph
    | Some l => l
    end in
  try! gammas := index angles 0 in
  try! betas := index angles 1 in
  foldM (fun objective uv =>
           try! cuv := random_edge_term gammas betas graph_random uv.1 uv.2 in
           Ok (objective + cuv))
        edge_list 0.

End Analytical.

(** ** src/src/optimization.py *)

Module Optimization.

Record Evaluator : Type := mkEvaluator {
  func : list R -> py R;
  num_angles : nat
}.

Definition change_sign {A : Type} (func : A -> py R) : A -> py R :=
  fun args => try! r := func args in Ok (- r).

Section Evaluators.
(** [qaoa_decorator] of the missing original_qaoa module (the angle layout
    converter put in front of an evaluator) and [get_index_edge_list] of
    the missing graph_utils module. *)
Variable qaoa_decorator : (list R -> py R) -> nat -> nat -> list R -> py R.
Variable get_index_edge_list : Graph -> list (nat * nat).

Definition get_evaluator_general_z1_analytical (graph : Graph)
    (use_multi_angle : bool) : Evaluator :=
  let func := fun angles =>
    Analytical.calc_expectation_general_analytical_z1 get_index_edge_list angles graph in
  if use_multi_angle
  then mkEvaluator (change_sign func) (2 * length (nodes graph))
  else mkEvaluator
         (change_sign (qaoa_decorator func (length (nodes graph)) (length (nodes graph))))
         2.

Definition get_evaluator_general_z1_analytical_reduced (graph : Graph)
    : Evaluator :=
  let func := fun angles =>
    Analytical.calc_expectation_general_analytical_z1_reduced get_index_edge_list angles graph in
  mkEvaluator (change_sign func) (length (nodes graph)).

(** The analytical evaluator has no parameter [p]. *)
Definition get_evaluator_standard_maxcut_analytical (graph : Graph)
    (edge_list : option (list (nat * nat))) (use_multi_angle : bool)
    : Evaluator :=
  let func := fun angles =>
    (Analytical.calc_expectation_ma_qaoa_analytical_p1 angles graph edge_list).1 in
  if use_multi_angle
  then mkEvaluator (change_sign func)
                   (length (edges graph) + length (nodes graph))
  else mkEvaluator
         (change_sign (qaoa_decorator func (length (edges graph)) (length (nodes graph))))
         2.
End Evaluators.

Record OptimizeResult : Type := mkResult { x : list R; fun_ : R }.

Record loop_state : Type := mkState {
  objective_best : R;
  angles_best : list R;
  starts : list (list R)
}.

Section Driver.
Variable minimize : (list R -> py R) -> list R -> OptimizeResult.
Variable uniform : nat -> nat -> list R.

(** The body of the restart loop. *)
Definition restart (evaluator : Evaluator) (st : loop_state) (i : nat)
    : loop_state :=
  let next_angles := uniform i (length (angles_best st)) in
  let result := minimize (func evaluator) next_angles in
  if Rgt_dec (- fun_ result) (objective_best st)
  then mkState (- fun_ result) (x result) (starts st ++ [next_angles])
  else mkState (objective_best st) (angles_best st)
               (starts st ++ [next_angles]).

Definition optimize_loop (evaluator : Evaluator) (num_restarts : nat)
    : loop_state :=
  fold_left (restart evaluator) (seq 0 num_restarts)
            (mkState 0 (replicate (num_angles evaluator) 0) []).

Definition optimize_qaoa_angles (evaluator : Evaluator) (num_restarts : nat)
    : R * list R :=
  let st := optimize_loop evaluator num_restarts in
  (objective_best st, angles_best st).
End Driver.

End Optimization.

(** * Vocabulary of the statements *)

(** ** Restart loops *)

Module OptimizationSpec.
Import Optimization.

(** The result of the local optimizer at restart [i] of the evaluator-based
    driver: it starts from the [i]-th random draw, whose length is the one of
    the angle vector held when the restart begins. *)
Definition result_at (minimize : (list R -> py R) -> list R -> OptimizeResult)
    (uniform : nat -> nat -> list R) (evaluator : Evaluator) (i : nat)
    : OptimizeResult :=
  minimize (func evaluator)
    (uniform i (length (angles_best
                          (optimize_loop minimize uniform evaluator i)))).

End OptimizationSpec.

Module QaoaCoreSpec.
Import QaoaCore.

(** The state after [k] restarts with no early stop. *)
Definition run (minimize : (list R -> py R) -> list R -> OptimizeResult)
    (uniform : nat -> nat -> list R) (func : list R -> py R) (first k : nat)
    (st : loop_state) : loop_state :=
  fold_left (restart minimize uniform func) (seq first k) st.

(** The early-stop test of the graph-based driver. *)
Definition stop_test (objective_max : R) (st : loop_state) : Prop :=
  objective_max - objective_best st < 1e-3.

(** [sum([w for u, v, w in graph.edges.data('weight')])] *)
Definition total_weight (graph : Graph) : py R :=
  try! weights := mapM (fun e : nat * nat * option R =>
                          match e.2 with
                          | Some w => Ok w
                          | None => Raise TypeError
                          end) (edges_data graph "weight") in
  Ok (Rsum weights).

End QaoaCoreSpec.

(** ** Concrete inputs *)

(** Two nodes joined by one edge of weight [w]. *)
Definition single_edge (w : R) : Graph :=
  mkGraph [0%nat; 1%nat] [ (0%nat, 1%nat, {[ "weight" := w ]}) ].

(** A random source that always draws zeros. *)
Definition zero_uniform : nat -> nat -> list R := fun _ size => replicate size 0.

(** The cut indicator of the edge (0, 1) over the four labels of two qubits:
    the term table the graph-based driver builds for [single_edge w]. *)
Definition single_edge_cuts : list (list R) := [ [0; 1; 1; 0] ].

(** ** Tables and the gather form of the mixer *)

(** Entry [(i, q)] of a table given by its rows. *)
Definition entry (table : list (list nat)) (i q : nat) : nat :=
  nth q (nth i table []) 0%nat.

(** The tables of the basis index provider for [N] labels and [n] qubits:
    both are [N] x [n]; flipping a qubit is an involution on the labels, it
    turns that qubit's bit from [v] to [1 - v] and leaves the other bits
    alone; a label is determined by its bits. *)
Record valid_tables (N n : nat) (neighbours basis_bin : list (list nat))
    : Prop := {
  vt_pos : (0 < N)%nat;
  vt_nb_rows : length neighbours = N;
  vt_bin_rows : length basis_bin = N;
  vt_nb_cols : Forall (fun row => length row = n) neighbours;
  vt_bin_cols : Forall (fun row => length row = n) basis_bin;
  vt_range : forall i q, (i < N)%nat -> (q < n)%nat ->
               (entry neighbours i q < N)%nat;
  vt_invol : forall i q, (i < N)%nat -> (q < n)%nat ->
               entry neighbours (entry neighbours i q) q = i;
  vt_bit : forall i q, (i < N)%nat -> (q < n)%nat ->
             (entry basis_bin i q <= 1)%nat;
  vt_flip : forall i q, (i < N)%nat -> (q < n)%nat ->
              entry basis_bin (entry neighbours i q) q
              = (1 - entry basis_bin i q)%nat;
  vt_keep : forall i q r, (i < N)%nat -> (q < n)%nat -> (r < n)%nat -> r <> q ->
              entry basis_bin (entry neighbours i q) r = entry basis_bin i r;
  vt_inj : forall i j, (i < N)%nat -> (j < N)%nat ->
             (forall q, (q < n)%nat -> entry basis_bin i q = entry basis_bin j q) ->
             i = j
}.

(** The diagonal term table: [E >= 1] rows of [N] values. *)
Definition valid_terms (E N : nat) (all_cuv_vals : list (list R)) : Prop :=
  (0 < E)%nat /\ length all_cuv_vals = E
  /\ Forall (fun row => length row = N) all_cuv_vals.

(** The phases of the cost layer, label by label: the product over the
    terms of [exp(-i gamma c)], taken in the order of [math.prod]. *)
Definition phases (all_cuv_vals : list (list R)) (gammas : list R) (N : nat)
    : list C :=
  fold_left (fun acc gr =>
               zip_with Cmul acc
                 (map (fun c => Cexp (Cmul (Cmul (Copp Ci) (RtoC gr.1)) (RtoC c)))
                      gr.2))
            (zip gammas all_cuv_vals) (replicate N C1).

(** One single-qubit rotation in gather form:
    [new[j] = cos(beta) psi[j] - i sin(beta) psi[flip j]]. *)
Definition gate (beta : R) (flip : nat -> nat) (psi : list C) : list C :=
  map (fun j => Cadd (Cmul (nth j psi C0) (RtoC (cos beta)))
                     (Cmul (nth (flip j) psi C0)
                           (Cmul (Copp Ci) (RtoC (sin beta)))))
      (seq 0 (length psi)).

(** The rotations of the qubits [qs], applied in that order. *)
Definition mix (neighbours : list (list nat)) (betas : list R) (qs : list nat)
    (psi : list C) : list C :=
  fold_left (fun acc q => gate (nth q betas 0) (fun j => entry neighbours j q) acc)
            qs psi.

(** One layer in gather form. *)
Definition layer (all_cuv_vals : list (list R)) (neighbours : list (list nat))
    (n : nat) (gammas betas : list R) (psi : list C) : list C :=
  mix neighbours betas (seq 0 n)
      (zip_with Cmul (phases all_cuv_vals gammas (length psi)) psi).

(** The angles of layer [i] when every layer takes [L] of them. *)
Definition layer_gammas (angles : list R) (L E i : nat) : list R :=
  take E (slice angles (i * L) ((i + 1) * L)).
Definition layer_betas (angles : list R) (L E i : nat) : list R :=
  drop E (slice angles (i * L) ((i + 1) * L)).

(** The state after [k] layers, in gather form. *)
Definition evolve (all_cuv_vals : list (list R)) (neighbours : list (list nat))
    (n : nat) (angles : list R) (L k : nat) (psi : list C) : list C :=
  fold_left (fun acc i =>
               layer all_cuv_vals neighbours n
                     (layer_gammas angles L (length all_cuv_vals) i)
                     (layer_betas angles L (length all_cuv_vals) i) acc)
            (seq 0 k) psi.

(** The column sums of the selected rows of the term table. *)
Definition column_sums (all_cuv_vals : list (list R)) (inds : list nat) (N : nat)
    : list R :=
  fold_left (zip_with Rplus) (map (fun i => nth i all_cuv_vals []) inds)
            (replicate N 0).

(** [Re <psi| D |psi>] for a diagonal [D]. *)
Definition expectation (psi : list C) (diag : list R) : R :=
  Re (Csum (zip_with (fun a b => Cmul (Cconj a) b) psi
                     (zip_with Cmul (map RtoC diag) psi))).

(** The number of angles per layer computed by the simulation. *)
Definition per_layer (angles : list R) (p : Z) : nat :=
  Z.to_nat (Z.quot (Z.of_nat (length angles)) p).

(** A local optimizer that reports the same result whatever it is given. *)
Definition const_minimize (r : Optimization.OptimizeResult)
    : (list R -> py R) -> list R -> Optimization.OptimizeResult :=
  fun _ _ => r.

Definition core_const_minimize (r : QaoaCore.OptimizeResult)
    : (list R -> py R) -> list R -> QaoaCore.OptimizeResult :=
  fun _ _ => r.

(** An evaluator with two angles whose value is the constant 1. *)
Definition flat_evaluator : Optimization.Evaluator :=
  Optimization.mkEvaluator (fun _ => Ok 1) 2.

(** A local optimizer that always reports the point (pi/2, pi/4, 0) with the
    value -1, the minimum of the sign-flipped cut expectation of one edge of
    weight 1. *)
Definition reaching_result : Optimization.OptimizeResult :=
  Optimization.mkResult [PI / 2; PI / 4; 0] (-1).
Definition core_reaching_result : QaoaCore.OptimizeResult :=
  QaoaCore.mkResult [PI / 2; PI / 4; 0] (-1).

(** The analytical multi-angle evaluator of one edge of weight 1; the two
    collaborators it is built with play no part in the multi-angle case. *)
Definition single_edge_evaluator : Optimization.Evaluator :=
  Optimization.get_evaluator_standard_maxcut_analytical
    (fun f _ _ => f) (single_edge 1) None true.

(** ** The generalized first-order formula *)

(** The term of the edge [(u, v)]: gammas are the first [n] angles, betas the
    next [n]. *)
Definition z1_term (angles : list R) (n : nat) (edge : nat * nat) : R :=
  sin (2 * nth (edge.1 + n) angles 0) * sin (2 * nth (edge.2 + n) angles 0)
  * sin (2 * nth edge.1 angles 0) * sin (2 * nth edge.2 angles 0) / 2.

(** [num_edges / 2 - sum over the edges of the term]. *)
Definition z1_formula (angles : list R) (graph : Graph)
    (index_edges : list (nat * nat)) : R :=
  INR (length (edges graph)) / 2
  - Rsum (map (z1_term angles (length (nodes graph))) index_edges).

(** The angles the simulation reads: the first [m] of each of the [k]
    consecutive slices of [L] angles. *)
Definition used_angles (angles : list R) (L m k : nat) : list R :=
  concat (map (fun i => take m (slice angles (i * L) ((i + 1) * L))) (seq 0 k)).

(** ** Simple graphs *)

(** No two entries of the edge list join the same pair of nodes. *)
Definition simple_edges (graph : Graph) : Prop :=
  forall i j e1 e2,
    edges graph !! i = Some e1 -> edges graph !! j = Some e2 ->
    same_edge e1.1.1 e1.1.2 e2.1.1 e2.1.2 = true -> i = j.

(** ** The annotation of one edge *)

(** The attribute dictionary of the edge [uv] after
    [nx.set_edge_attributes(graph, values, name)]: every item of [values]
    that names this edge, in either orientation, overwrites [name]. *)
Definition annotated (name : string) (values : list (nat * nat * R))
    (uv : nat * nat) (attrs : gmap string R) : gmap string R :=
  fold_left (fun m (item : nat * nat * R) =>
               if same_edge item.1.1 item.1.2 uv.1 uv.2
               then <[ name := item.2 ]> m else m)
            values attrs.

(** ** Well-formed graphs *)

(** The graph has an edge between [u] and [v]. *)
Definition joined (graph : Graph) (u v : nat) : Prop :=
  Exists (fun e : nat * nat * gmap string R =>
            same_edge u v e.1.1 e.1.2 = true) (edges graph).

(** Every edge has a weight and joins two nodes of the graph. *)
Definition weighted_graph (graph : Graph) : Prop :=
  Forall (fun e : nat * nat * gmap string R =>
            is_Some (e.2 !! "weight")
            /\ e.1.1 ∈ nodes graph /\ e.1.2 ∈ nodes graph) (edges graph).

(** The weight of the edge between the two nodes of [uv] (0 when there is
    none). *)
Definition weight_of (graph : Graph) (uv : nat * nat) : R :=
  match edge_attr graph uv.1 uv.2 "weight" with
  | Ok w => w
  | Raise _ => 0
  end.

(** ** The neighbourhoods counted by the random-circuit formula *)

(** The neighbours of [u], as [graph[u]] lists them. *)
Definition neighbour_list (graph : Graph) (u : nat) : list nat :=
  remove_dups
    (omap (fun e : nat * nat * gmap string R =>
             if (u =? e.1.1)%nat then Some e.1.2
             else if (u =? e.1.2)%nat then Some e.1.1
             else None) (edges graph)).

(** The neighbours of [u] other than [v], and the neighbours that [u] and
    [v] share. *)
Definition others (graph : Graph) (u v : nat) : list nat :=
  filter (fun m => m ≠ v) (neighbour_list graph u).

Definition common (graph : Graph) (u v : nat) : list nat :=
  filter (fun m => m ∈ others graph v u) (others graph u v).

(** The expectation of the cut of the pair [uv] after one layer with the
    angles [gamma] and [beta], in the circuit of [graph_random]: with [d]
    and [e] other neighbours of the two nodes, [f] of them shared,
    [1/2 - sin(2 beta)^2 cos(gamma)^(d + e - 2 f) (1 - cos(2 gamma)^f) / 4],
    plus [sin(4 beta) sin(gamma) (cos(gamma)^d + cos(gamma)^e) / 4] when the
    circuit has the edge. *)
Definition random_formula (gamma beta : R) (graph_random : Graph)
    (uv : nat * nat) : R :=
  let d := length (others graph_random uv.1 uv.2) in
  let e := length (others graph_random uv.2 uv.1) in
  let f := length (common graph_random uv.1 uv.2) in
  1 / 2
  - 1 / 4 * sin (2 * beta) ^ 2 * cos gamma ^ (d - f + (e - f))
    * (1 - cos (2 * gamma) ^ f)
  + (if decide (uv.1 ∈ neighbour_list graph_random uv.2)
     then 1 / 4 * sin (4 * beta) * sin gamma * (cos gamma ^ d + cos gamma ^ e)
     else 0).

(** Every edge has weight 1 and joins two nodes of the graph. *)
Definition unit_graph (graph : Graph) : Prop :=
  Forall (fun e : nat * nat * gmap string R =>
            e.2 !! "weight" = Some 1
            /\ e.1.1 ∈ nodes graph /\ e.1.2 ∈ nodes graph) (edges graph).

(** ** Angles up to full turns *)

(** [a'] is [a] plus a whole number of full turns. *)
Definition full_turns (a a' : R) : Prop :=
  exists k : nat, a' = a + 2 * INR k * PI.

(** * Properties *)

(** ** The error monad *)

Lemma bind_Ok {A B : Type} (m : py A) (k : A -> py B) (b : B) :
  bind m k = Ok b -> exists a, m = Ok a /\ k a = Ok b.
Proof. destruct m as [a|e]; simpl; [eauto | discriminate]. Qed.

Lemma foldM_app {A B : Type} (f : A -> B -> py A) (l1 l2 : list B) (a : A) :
  foldM f (l1 ++ l2) a = bind (foldM f l1 a) (foldM f l2).
Proof.
  revert a. induction l1 as [|b l1 IH]; intros a; simpl; [reflexivity|].
  destruct (f a b); simpl; [apply IH | reflexivity].
Qed.

(** ** The restart loop of src/src/optimization.py *)

Module OptimizationFacts.
Import Optimization OptimizationSpec.

Section Driver.
Variable minimize : (list R -> py R) -> list R -> OptimizeResult.
Variable uniform : nat -> nat -> list R.
Variable evaluator : Evaluator.

Local Abbreviation loop := (optimize_loop minimize uniform evaluator).
Local Abbreviation result := (result_at minimize uniform evaluator).

Lemma loop_S (k : nat) :
  loop (S k) = restart minimize uniform evaluator (loop k) k.
Proof.
  unfold optimize_loop. rewrite seq_S, fold_left_app. reflexivity.
Qed.

Lemma loop_starts_length (k : nat) : length (starts (loop k)) = k.
Proof.
  induction k as [|k IH]; [reflexivity|].
  rewrite loop_S. unfold restart.
  destruct (Rgt_dec _ _); simpl; rewrite length_app, IH; simpl; lia.
Qed.

Lemma loop_record (k : nat) :
  - fun_ (result k) > objective_best (loop k) ->
  objective_best (loop (S k)) = - fun_ (result k)
  /\ angles_best (loop (S k)) = x (result k).
Proof.
  intros Hgt. rewrite loop_S. unfold restart.
  fold (result_at minimize uniform evaluator k).
  destruct (Rgt_dec _ _) as [_|Hn]; [split; reflexivity | contradiction].
Qed.

Lemma loop_keep (k : nat) :
  - fun_ (result k) <= objective_best (loop k) ->
  objective_best (loop (S k)) = objective_best (loop k)
  /\ angles_best (loop (S k)) = angles_best (loop k).
Proof.
  intros Hle. rewrite loop_S. unfold restart.
  fold (result_at minimize uniform evaluator k).
  destruct (Rgt_dec _ _) as [Hgt|_]; [lra | split; reflexivity].
Qed.

(** The best objective bounds every restart seen so far. *)
Lemma loop_upper_bound (k j : nat) :
  (j < k)%nat -> - fun_ (result j) <= objective_best (loop k).
Proof.
  induction k as [|k IH]; intros Hj; [lia|].
  destruct (Rle_lt_dec (- fun_ (result k)) (objective_best (loop k))) as [H|H].
  - destruct (loop_keep k H) as [-> _].
    destruct (decide (j = k)) as [->|Hne]; [exact H | apply IH; lia].
  - destruct (loop_record k H) as [-> _].
    destruct (decide (j = k)) as [->|Hne]; [lra|].
    assert (Hjk : (j < k)%nat) by lia. specialize (IH Hjk). lra.
Qed.

(** The pair held by the loop is the initial one or the one of a restart. *)
Lemma loop_attained (k : nat) :
  (objective_best (loop k) = 0
   /\ angles_best (loop k) = replicate (num_angles evaluator) 0)
  \/ exists i, (i < k)%nat
       /\ objective_best (loop k) = - fun_ (result i)
       /\ angles_best (loop k) = x (result i).
Proof.
  induction k as [|k IH]; [left; split; reflexivity|].
  destruct (Rle_lt_dec (- fun_ (result k)) (objective_best (loop k))) as [H|H].
  - destruct (loop_keep k H) as [-> ->].
    destruct IH as [IH|(i & Hi & IH)]; [left; exact IH|].
    right. exists i. split; [lia | exact IH].
  - right. exists k. split; [lia | apply loop_record; exact H].
Qed.

Lemma loop_unchanged (k : nat) :
  (forall i, (i < k)%nat ->
     0 <= fun_ (minimize (func evaluator) (uniform i (num_angles evaluator)))) ->
  objective_best (loop k) = 0
  /\ angles_best (loop k) = replicate (num_angles evaluator) 0.
Proof.
  induction k as [|k IH]; intros Hall; [split; reflexivity|].
  destruct IH as [Ho Ha]; [intros i Hi; apply Hall; lia|].
  assert (Hk := Hall k ltac:(lia)).
  assert (Hle : - fun_ (result k) <= objective_best (loop k)).
  { unfold result_at. rewrite Ha, Ho, length_replicate. lra. }
  destruct (loop_keep k Hle) as [-> ->]. split; assumption.
Qed.
End Driver.

End OptimizationFacts.

(** ** The restart loop of src/qaoa_core.py *)

Module QaoaCoreFacts.
Import QaoaCore QaoaCoreSpec.

Section Driver.
Variable minimize : (list R -> py R) -> list R -> OptimizeResult.
Variable uniform : nat -> nat -> list R.
Variable func : list R -> py R.
Variable objective_max : R.

Local Abbreviation run := (QaoaCoreSpec.run minimize uniform func).
Local Abbreviation attempts :=
  (QaoaCore.attempts minimize uniform func objective_max).

Lemma run_S (first k : nat) (st : loop_state) :
  run first (S k) st = run (S first) k (restart minimize uniform func st first).
Proof. reflexivity. Qed.

Lemma run_starts_length (k first : nat) (st : loop_state) :
  length (starts (run first k st)) = (length (starts st) + k)%nat.
Proof.
  revert first st. induction k as [|k IH]; intros first st;
    [unfold QaoaCoreSpec.run; simpl; lia|].
  rewrite run_S, IH. unfold restart.
  destruct (Rgt_dec _ _); simpl; rewrite length_app; simpl; lia.
Qed.

(** The loop with its [break] performs the restarts up to the first state
    that passes the early-stop test, and no other. *)
Lemma attempts_stops_first (n first : nat) (st : loop_state) :
  exists m, (m <= n)%nat
    /\ attempts (seq first n) st = run first m st
    /\ (forall k, (k < m)%nat -> ~ stop_test objective_max (run first k st))
    /\ ((m < n)%nat -> stop_test objective_max (run first m st)).
Proof.
  revert first st. induction n as [|n IH]; intros first st.
  - exists 0%nat. repeat split; [lia | intros; lia | intros; lia].
  - simpl. destruct (Rlt_dec _ _) as [Hstop|Hgo].
    + exists 0%nat. repeat split; [lia | intros; lia | intros _; exact Hstop].
    + destruct (IH (S first) (restart minimize uniform func st first))
        as (m & Hm & Heq & Hbefore & Hat).
      exists (S m). repeat split.
      * lia.
      * rewrite run_S. exact Heq.
      * intros k Hk. destruct k as [|k]; [exact Hgo|].
        rewrite run_S. apply Hbefore. lia.
      * intros Hlt. rewrite run_S. apply Hat. lia.
Qed.
End Driver.

End QaoaCoreFacts.

(** ** Stepping the graph-based loop *)

Module QaoaCoreSteps.
Import QaoaCore QaoaCoreSpec.

Section Steps.
Variable minimize : (list R -> py R) -> list R -> OptimizeResult.
Variable uniform : nat -> nat -> list R.
Variable func : list R -> py R.
Variable objective_max : R.

Lemma attempts_stop (inds : list nat) (st : loop_state) :
  stop_test objective_max st ->
  attempts minimize uniform func objective_max inds st = st.
Proof.
  intros Hstop. destruct inds as [|i rest]; [reflexivity|]. simpl.
  destruct (Rlt_dec _ _) as [_|Hn]; [reflexivity | contradiction].
Qed.

Lemma attempts_go (i : nat) (rest : list nat) (st : loop_state) :
  ~ stop_test objective_max st ->
  attempts minimize uniform func objective_max (i :: rest) st
  = attempts minimize uniform func objective_max rest
             (restart minimize uniform func st i).
Proof.
  intros Hgo. simpl.
  destruct (Rlt_dec _ _) as [Hs|_]; [contradiction | reflexivity].
Qed.

Lemma restart_improves (st : loop_state) (i : nat) :
  - fun_ (minimize func (uniform i (length (angles_best st)))) > objective_best st ->
  restart minimize uniform func st i
  = mkState (- fun_ (minimize func (uniform i (length (angles_best st)))))
            (map (fun a => a / PI) (uniform i (length (angles_best st))))
            (starts st ++ [uniform i (length (angles_best st))]).
Proof.
  intros Hgt. unfold restart.
  destruct (Rgt_dec _ _) as [_|Hn]; [reflexivity | contradiction].
Qed.

Lemma restart_keeps (st : loop_state) (i : nat) :
  - fun_ (minimize func (uniform i (length (angles_best st)))) <= objective_best st ->
  restart minimize uniform func st i
  = mkState (objective_best st) (angles_best st)
            (starts st ++ [uniform i (length (angles_best st))]).
Proof.
  intros Hle. unfold restart.
  destruct (Rgt_dec _ _) as [Hgt|_]; [lra | reflexivity].
Qed.
End Steps.

(** The analytical multi-angle run at [p = 1], once the weights are summed. *)
Lemma optimize_loop_analytical minimize uniform (graph : Graph)
    (edge_list : option (list (nat * nat))) (objective_max : R) :
  total_weight graph = Ok objective_max ->
  optimize_loop minimize uniform true true 1 graph edge_list
  = Ok (attempts minimize uniform
          (change_sign (fun a => (run_ma_qaoa_analytical_p1 a graph edge_list).1))
          objective_max (seq 0 10)
          (mkState 0 (replicate (length (edges graph) + length (nodes graph)) 0) [])).
Proof.
  unfold total_weight, optimize_loop. intros Hw.
  change (negb (negb true || (1 =? 1)%Z)) with false. cbv iota.
  change (negb true) with false. cbv iota. unfold bind at 1.
  rewrite decide_True by lia. unfold bind at 1.
  destruct (mapM _ (edges_data graph "weight")) as [weights|e]; [|discriminate].
  simpl in Hw. injection Hw as <-. unfold bind.
  rewrite Z.mul_1_r, Nat2Z.id. reflexivity.
Qed.

End QaoaCoreSteps.

(** ** Complex arithmetic and finite sums *)

Lemma C_eq (a b : C) : Re a = Re b -> Im a = Im b -> a = b.
Proof. destruct a, b; simpl; intros -> ->; reflexivity. Qed.

Ltac Cring := apply C_eq; simpl; ring.

Lemma Cmul_1_l (a : C) : Cmul C1 a = a.
Proof. Cring. Qed.

Lemma Cmul_comm (a b : C) : Cmul a b = Cmul b a.
Proof. Cring. Qed.

Lemma Cadd_0_l (a : C) : Cadd C0 a = a.
Proof. Cring. Qed.

Lemma Cnorm2_mul (a b : C) : Cnorm2 (Cmul a b) = Cnorm2 a * Cnorm2 b.
Proof. unfold Cnorm2; simpl; ring. Qed.

Lemma Cnorm2_C1 : Cnorm2 C1 = 1.
Proof. unfold Cnorm2; simpl; ring. Qed.

Lemma Cnorm2_Cexp_imaginary (z : C) : Re z = 0 -> Cnorm2 (Cexp z) = 1.
Proof.
  intros Hz. unfold Cnorm2, Cexp; simpl. rewrite Hz, exp_0.
  generalize (sin2_cos2 (Im z)). unfold Rsqr. intros H.
  replace (1 * cos (Im z) * (1 * cos (Im z)) + 1 * sin (Im z) * (1 * sin (Im z)))
    with (sin (Im z) * sin (Im z) + cos (Im z) * cos (Im z)) by ring.
  exact H.
Qed.

(** [exp(-i gamma c)] lies on the unit circle. *)
Lemma Cnorm2_phase (gamma c : R) :
  Cnorm2 (Cexp (Cmul (Cmul (Copp Ci) (RtoC gamma)) (RtoC c))) = 1.
Proof. apply Cnorm2_Cexp_imaginary. simpl. ring. Qed.

Lemma Cexp_zero_angle (c : R) :
  Cexp (Cmul (Cmul (Copp Ci) (RtoC 0)) (RtoC c)) = C1.
Proof.
  assert (Hz : Cmul (Cmul (Copp Ci) (RtoC 0)) (RtoC c) = C0) by Cring.
  rewrite Hz. unfold Cexp; simpl. rewrite exp_0, cos_0, sin_0. Cring.
Qed.

Lemma Rsum_from (l : list R) (a : R) : fold_left Rplus l a = a + Rsum l.
Proof.
  unfold Rsum. revert a. induction l as [|x l IH]; intros a; simpl; [ring|].
  rewrite IH, (IH (0 + x)). ring.
Qed.

Lemma Rsum_nil : Rsum [] = 0.
Proof. reflexivity. Qed.

Lemma Rsum_cons (a : R) (l : list R) : Rsum (a :: l) = a + Rsum l.
Proof. unfold Rsum at 1. simpl. rewrite Rsum_from. ring. Qed.

Lemma Rsum_app (l1 l2 : list R) : Rsum (l1 ++ l2) = Rsum l1 + Rsum l2.
Proof.
  induction l1 as [|a l1 IH]; simpl; [rewrite Rsum_nil; ring|].
  rewrite !Rsum_cons, IH. ring.
Qed.

Lemma Rsum_perm (l1 l2 : list R) : Permutation l1 l2 -> Rsum l1 = Rsum l2.
Proof.
  induction 1 as [|a l1 l2 _ IH|a b l|l1 l2 l3 _ IH1 _ IH2].
  - reflexivity.
  - rewrite !Rsum_cons, IH. reflexivity.
  - rewrite !Rsum_cons. ring.
  - congruence.
Qed.

Lemma Rsum_map_ext {A : Type} (f g : A -> R) (l : list A) :
  (forall a, In a l -> f a = g a) -> Rsum (map f l) = Rsum (map g l).
Proof.
  intros H. f_equal. apply map_ext_in. exact H.
Qed.

Lemma Rsum_map_plus {A : Type} (f g : A -> R) (l : list A) :
  Rsum (map (fun a => f a + g a) l) = Rsum (map f l) + Rsum (map g l).
Proof.
  induction l as [|a l IH]; simpl; [rewrite Rsum_nil; ring|].
  rewrite !Rsum_cons, IH. ring.
Qed.

Lemma Rsum_map_scal {A : Type} (c : R) (f : A -> R) (l : list A) :
  Rsum (map (fun a => c * f a) l) = c * Rsum (map f l).
Proof.
  induction l as [|a l IH]; simpl; [rewrite Rsum_nil; ring|].
  rewrite !Rsum_cons, IH. ring.
Qed.

Lemma Rsum_replicate (k : nat) (a : R) : Rsum (replicate k a) = INR k * a.
Proof.
  induction k as [|k IH]; [simpl; rewrite Rsum_nil; ring|].
  change (replicate (S k) a) with (a :: replicate k a).
  rewrite Rsum_cons, IH, S_INR. ring.
Qed.

(** An involution of [0 .. N-1] permutes the indices, so a sum over all
    indices may be re-indexed through it. *)
Lemma involution_perm (N : nat) (flip : nat -> nat) :
  (forall j, (j < N)%nat -> (flip j < N)%nat) ->
  (forall j, (j < N)%nat -> flip (flip j) = j) ->
  Permutation (map flip (seq 0 N)) (seq 0 N).
Proof.
  intros Hrange Hinv.
  apply NoDup_Permutation_bis.
  - apply NoDup_ListNoDup, (NoDup_fmap_2_strong flip).
    + intros a b Ha Hb Heq.
      apply list_elem_of_In, in_seq in Ha. apply list_elem_of_In, in_seq in Hb.
      rewrite <- (Hinv a), <- (Hinv b) by lia. congruence.
    + apply NoDup_ListNoDup, seq_NoDup.
  - rewrite length_map. lia.
  - intros a Ha. apply in_map_iff in Ha as (j & <- & Hj).
    apply in_seq in Hj. apply in_seq. specialize (Hrange j). lia.
Qed.

Lemma Rsum_reindex (N : nat) (flip : nat -> nat) (f : nat -> R) :
  (forall j, (j < N)%nat -> (flip j < N)%nat) ->
  (forall j, (j < N)%nat -> flip (flip j) = j) ->
  Rsum (map (fun j => f (flip j)) (seq 0 N)) = Rsum (map f (seq 0 N)).
Proof.
  intros Hrange Hinv.
  rewrite <- (map_map flip f).
  apply Rsum_perm, Permutation_map, involution_perm; assumption.
Qed.

(** ** Loops over index ranges *)

Lemma mapM_ext {A B : Type} (f g : A -> py B) (l : list A) :
  (forall a, In a l -> f a = g a) -> mapM f l = mapM g l.
Proof.
  induction l as [|a l IH]; intros H; simpl; [reflexivity|].
  rewrite (H a) by (left; reflexivity).
  rewrite IH by (intros b Hb; apply H; right; exact Hb). reflexivity.
Qed.

Lemma mapM_map {A B D : Type} (f : B -> py D) (g : A -> B) (l : list A) :
  mapM f (map g l) = mapM (fun a => f (g a)) l.
Proof.
  induction l as [|a l IH]; simpl; [reflexivity|]. rewrite IH. reflexivity.
Qed.

Lemma mapM_pure {A B : Type} (f : A -> B) (l : list A) :
  mapM (fun a => Ok (f a)) l = Ok (map f l).
Proof.
  induction l as [|a l IH]; simpl; [reflexivity|]. rewrite IH. reflexivity.
Qed.

Lemma index_lt {A : Type} (l : list A) (i : nat) (d : A) :
  (i < length l)%nat -> index l i = Ok (nth i l d).
Proof.
  intros Hi. unfold index.
  destruct (nth_lookup_or_length l i d) as [->|Hge]; [reflexivity | lia].
Qed.

Lemma index_ge {A : Type} (l : list A) (i : nat) :
  (length l <= i)%nat -> index l i = Raise IndexError.
Proof.
  intros Hi. unfold index. rewrite lookup_ge_None_2 by exact Hi. reflexivity.
Qed.

(** Reading two arrays side by side over [range(len(l))]. *)
Lemma mapM_index_zip {A B D : Type} (h : A -> B -> D) (l : list A) (m : list B) :
  (length l <= length m)%nat ->
  mapM (fun i => try! a := index l i in try! b := index m i in Ok (h a b))
       (seq 0 (length l))
  = Ok (zip_with h l m).
Proof.
  revert m. induction l as [|a l IH]; intros m Hlen; [reflexivity|].
  destruct m as [|b m]; [simpl in Hlen; lia|].
  simpl in Hlen. simpl length. rewrite <- cons_seq, <- seq_shift.
  simpl. rewrite mapM_map.
  rewrite (mapM_ext _ (fun i => try! a0 := index l i in
                                try! b0 := index m i in Ok (h a0 b0)))
    by (intros i _; reflexivity).
  rewrite (IH m) by lia. reflexivity.
Qed.

(** ** The cost layer *)

Lemma phases_length (all_cuv_vals : list (list R)) (gammas : list R) (N : nat) :
  Forall (fun row => length row = N) all_cuv_vals ->
  length (phases all_cuv_vals gammas N) = N.
Proof.
  intros Hrows. unfold phases.
  assert (Hgen : forall acc, length acc = N ->
    length (fold_left (fun acc gr =>
               zip_with Cmul acc
                 (map (fun c => Cexp (Cmul (Cmul (Copp Ci) (RtoC gr.1)) (RtoC c)))
                      gr.2)) (zip gammas all_cuv_vals) acc) = N).
  { revert gammas. induction Hrows as [|row rows Hrow _ IH]; intros gammas acc Hacc.
    - destruct gammas; exact Hacc.
    - destruct gammas as [|g gammas]; [exact Hacc|].
      simpl. apply IH. rewrite length_zip_with, length_map. lia. }
  apply Hgen, length_replicate.
Qed.

Lemma phases_unit (all_cuv_vals : list (list R)) (gammas : list R) (N : nat) :
  Forall (fun z => Cnorm2 z = 1) (phases all_cuv_vals gammas N).
Proof.
  unfold phases.
  assert (Hgen : forall rows acc, Forall (fun z => Cnorm2 z = 1) acc ->
    Forall (fun z => Cnorm2 z = 1)
      (fold_left (fun acc gr =>
               zip_with Cmul acc
                 (map (fun c => Cexp (Cmul (Cmul (Copp Ci) (RtoC gr.1)) (RtoC c)))
                      gr.2)) (zip gammas rows) acc)).
  { induction gammas as [|g gammas IH]; intros rows acc Hacc; [exact Hacc|].
    destruct rows as [|row rows]; [exact Hacc|].
    simpl. apply IH. clear IH.
    revert row. induction Hacc as [|z acc Hz _ IHacc]; intros row; [constructor|].
    destruct row as [|c row]; [constructor|].
    simpl. constructor; [|apply IHacc].
    rewrite Cnorm2_mul, Hz, Cnorm2_phase. ring. }
  apply Hgen, Forall_replicate, Cnorm2_C1.
Qed.

(** With every angle zero the cost layer multiplies by one. *)
Lemma phases_zero (all_cuv_vals : list (list R)) (k N : nat) :
  Forall (fun row => length row = N) all_cuv_vals ->
  phases all_cuv_vals (replicate k 0) N = replicate N C1.
Proof.
  intros Hrows. unfold phases.
  assert (Hgen : forall acc, length acc = N ->
    fold_left (fun acc gr =>
               zip_with Cmul acc
                 (map (fun c => Cexp (Cmul (Cmul (Copp Ci) (RtoC gr.1)) (RtoC c)))
                      gr.2)) (zip (replicate k 0) all_cuv_vals) acc = acc).
  { revert k. induction Hrows as [|row rows Hrow _ IH]; intros k acc Hacc.
    - destruct k; reflexivity.
    - destruct k as [|k]; [reflexivity|]. simpl.
      assert (Hstep : zip_with Cmul acc
                (map (fun c => Cexp (Cmul (Cmul (Copp Ci) (RtoC 0)) (RtoC c))) row)
              = acc).
      { assert (Hr : length row = length acc) by lia.
        clear -Hr. revert row Hr.
        induction acc as [|z acc IHacc]; intros row Hrow; [reflexivity|].
        destruct row as [|c row]; [discriminate|]. simpl.
        rewrite Cexp_zero_angle, IHacc by (simpl in Hrow; lia).
        f_equal. Cring. }
      rewrite Hstep. apply IH. exact Hacc. }
  apply Hgen, length_replicate.
Qed.

Lemma zip_with_Cmul_ones (psi : list C) :
  zip_with Cmul (replicate (length psi) C1) psi = psi.
Proof.
  induction psi as [|z psi IH]; [reflexivity|]. simpl. rewrite IH.
  f_equal. Cring.
Qed.

(** The product of the factors, as [math.prod] computes it. *)
Lemma math_prod_factors (rows : list (list R)) (gammas : list R) (N : nat)
    (acc : list C) :
  (0 < N)%nat -> length acc = N ->
  Forall (fun row => length row = N) rows ->
  foldM np_mul (zip_with QaoaCore.uc_factor gammas rows) (NArray acc)
  = Ok (NArray (fold_left (fun acc gr =>
               zip_with Cmul acc
                 (map (fun c => Cexp (Cmul (Cmul (Copp Ci) (RtoC gr.1)) (RtoC c)))
                      gr.2)) (zip gammas rows) acc)).
Proof.
  intros HN Hacc Hrows. revert gammas acc Hacc.
  induction Hrows as [|row rows Hrow _ IH]; intros gammas acc Hacc.
  - destruct gammas; reflexivity.
  - destruct gammas as [|g gammas]; [reflexivity|].
    simpl. unfold arr_mul. rewrite length_map.
    rewrite decide_True by lia. simpl.
    apply IH. rewrite length_zip_with, length_map. lia.
Qed.

Lemma apply_uc_gather (all_cuv_vals : list (list R)) (gammas : list R)
    (psi : list C) (N : nat) :
  (0 < N)%nat -> length psi = N ->
  Forall (fun row => length row = N) all_cuv_vals ->
  (length gammas <= length all_cuv_vals)%nat ->
  QaoaCore.apply_uc all_cuv_vals gammas psi
  = Ok (zip_with Cmul (phases all_cuv_vals gammas N) psi).
Proof.
  intros HN Hpsi Hrows Hlen. unfold QaoaCore.apply_uc.
  rewrite (mapM_index_zip QaoaCore.uc_factor gammas all_cuv_vals Hlen). simpl.
  unfold math_prod, phases.
  destruct gammas as [|g gammas].
  - simpl. rewrite <- Hpsi, zip_with_Cmul_ones.
    f_equal. clear. induction psi as [|z psi IH]; [reflexivity|].
    simpl. rewrite IH. f_equal. Cring.
  - destruct all_cuv_vals as [|row rows]; [simpl in Hlen; lia|].
    inversion Hrows as [|? ? Hrow Hrows']; subst.
    simpl foldM. simpl bind.
    rewrite (math_prod_factors rows gammas (length psi))
      by (try assumption; rewrite length_map, length_map; exact Hrow).
    simpl. unfold arr_mul.
    assert (Hl : length (fold_left (fun acc gr =>
               zip_with Cmul acc
                 (map (fun c => Cexp (Cmul (Cmul (Copp Ci) (RtoC gr.1)) (RtoC c)))
                      gr.2)) (zip gammas rows)
               (map (Cmul C1)
                  (map (fun c => Cexp (Cmul (Cmul (Copp Ci) (RtoC g)) (RtoC c))) row)))
            = length psi).
    { assert (Hgen : forall gs acc, length acc = length psi ->
        length (fold_left (fun acc gr =>
               zip_with Cmul acc
                 (map (fun c => Cexp (Cmul (Cmul (Copp Ci) (RtoC gr.1)) (RtoC c)))
                      gr.2)) (zip gs rows) acc) = length psi).
      { clear -Hrows'. induction Hrows' as [|r rs Hr _ IH]; intros gs acc Hacc.
        - destruct gs; exact Hacc.
        - destruct gs as [|g0 gs]; [exact Hacc|]. simpl. apply IH.
          rewrite length_zip_with, length_map. lia. }
      apply Hgen. rewrite !length_map. exact Hrow. }
    rewrite decide_True by exact Hl. simpl.
    f_equal. f_equal. f_equal.
    rewrite zip_with_replicate_l by (rewrite length_map; lia).
    reflexivity.
Qed.

(** ** One single-qubit rotation: the scatter loop computes the gather form *)

Lemma nth_insert {A : Type} (l : list A) (i j : nat) (x d : A) :
  (i < length l)%nat ->
  nth j (<[ i := x ]> l) d = if decide (j = i) then x else nth j l d.
Proof.
  intros Hi. rewrite !nth_lookup. destruct (decide (j = i)) as [->|Hne].
  - rewrite list_lookup_insert_eq by exact Hi. reflexivity.
  - rewrite list_lookup_insert_ne by congruence. reflexivity.
Qed.

Lemma get_exp_x_same (beta : R) (t : nat) :
  (t <= 1)%nat -> index2 (QaoaCore.get_exp_x beta) t t = Ok (RtoC (cos beta)).
Proof. intros Ht. destruct t as [|[|t]]; [reflexivity | reflexivity | lia]. Qed.

Lemma get_exp_x_flip (beta : R) (t : nat) :
  (t <= 1)%nat ->
  index2 (QaoaCore.get_exp_x beta) (1 - t) t = Ok (Cmul (Copp Ci) (RtoC (sin beta))).
Proof. intros Ht. destruct t as [|[|t]]; [reflexivity | reflexivity | lia]. Qed.

Lemma length_gate (beta : R) (flip : nat -> nat) (psi : list C) :
  length (gate beta flip psi) = length psi.
Proof. unfold gate. rewrite length_map, length_seq. reflexivity. Qed.

Lemma nth_gate (beta : R) (flip : nat -> nat) (psi : list C) (j : nat) :
  (j < length psi)%nat ->
  nth j (gate beta flip psi) C0
  = Cadd (Cmul (nth j psi C0) (RtoC (cos beta)))
         (Cmul (nth (flip j) psi C0) (Cmul (Copp Ci) (RtoC (sin beta)))).
Proof.
  intros Hj. unfold gate.
  rewrite nth_lookup, list_lookup_fmap, lookup_seq_lt by exact Hj.
  reflexivity.
Qed.

Section OneQubit.
Variable beta : R.
Variable psi : list C.
Variables nb tv : list nat.
Variable N : nat.
Hypothesis Hpsi : length psi = N.
Hypothesis Hnb : length nb = N.
Hypothesis Htv : length tv = N.
Hypothesis Hrange : forall i, (i < N)%nat -> (nth i nb 0 < N)%nat.
Hypothesis Hinv : forall i, (i < N)%nat -> nth (nth i nb 0%nat) nb 0%nat = i.
Hypothesis Hbit : forall i, (i < N)%nat -> (nth i tv 0 <= 1)%nat.

Local Abbreviation c := (RtoC (cos beta)).
Local Abbreviation s := (Cmul (Copp Ci) (RtoC (sin beta))).

Lemma one_qubit_step_value (res : list C) (k : nat) :
  (k < N)%nat -> length res = N ->
  QaoaCore.one_qubit_step (QaoaCore.get_exp_x beta) psi nb tv res k
  = Ok (<[ nth k nb 0%nat :=
             Cadd (nth (nth k nb 0%nat)
                       (<[ k := Cadd (nth k res C0) (Cmul (nth k psi C0) c) ]> res) C0)
                  (Cmul (nth k psi C0) s) ]>
          (<[ k := Cadd (nth k res C0) (Cmul (nth k psi C0) c) ]> res)).
Proof.
  intros Hk Hres. unfold QaoaCore.one_qubit_step, QaoaCore.add_at.
  rewrite (index_lt psi k C0) by lia. simpl.
  rewrite (index_lt tv k 0%nat) by lia. simpl.
  rewrite get_exp_x_same by (apply Hbit; exact Hk). simpl.
  rewrite (index_lt res k C0) by lia. simpl.
  rewrite (index_lt nb k 0%nat) by lia. simpl.
  rewrite get_exp_x_flip by (apply Hbit; exact Hk). simpl.
  rewrite (index_lt _ (nth k nb 0%nat) C0)
    by (rewrite length_insert, Hres; apply Hrange; exact Hk).
  reflexivity.
Qed.

(** The accumulator after the first [k] passes of the loop. *)
Lemma one_qubit_prefix (k : nat) :
  (k <= N)%nat ->
  exists res,
    foldM (QaoaCore.one_qubit_step (QaoaCore.get_exp_x beta) psi nb tv)
          (seq 0 k) (replicate N C0) = Ok res
    /\ length res = N
    /\ forall j, (j < N)%nat ->
         nth j res C0
         = Cadd (if (j <? k)%nat then Cmul (nth j psi C0) c else C0)
                (if (nth j nb 0 <? k)%nat
                 then Cmul (nth (nth j nb 0%nat) psi C0) s else C0).
Proof.
  induction k as [|k IH]; intros Hk.
  - exists (replicate N C0). split; [reflexivity|]. split; [apply length_replicate|].
    intros j Hj. simpl. rewrite nth_lookup, lookup_replicate_2 by exact Hj.
    simpl. Cring.
  - destruct IH as (res & Hrun & Hlen & Hval); [lia|].
    rewrite seq_S, foldM_app, Hrun. simpl.
    rewrite one_qubit_step_value by (try lia; exact Hlen).
    eexists. split; [reflexivity|]. split; [rewrite !length_insert; exact Hlen|].
    intros j Hj.
    assert (Hnk : (nth k nb 0 < N)%nat) by (apply Hrange; lia).
    rewrite nth_insert by (rewrite length_insert, Hlen; exact Hnk).
    rewrite !nth_insert by (rewrite Hlen; lia).
    rewrite !Hval by lia.
    destruct (decide (j = nth k nb 0%nat)) as [Hjn|Hjn].
    + assert (Hnj : nth j nb 0%nat = k) by (rewrite Hjn; apply Hinv; lia).
      rewrite <- !Hjn. rewrite !Hnj.
      destruct (decide (j = k)) as [Hjk|Hjk]; [rewrite !Hjk|];
        repeat match goal with
               | |- context [(?a <? ?b)%nat] => destruct (Nat.ltb_spec a b)
               end; try lia; Cring.
    + assert (Hnj : nth j nb 0%nat <> k).
      { intros Heq. apply Hjn. rewrite <- Heq. symmetry. apply Hinv. exact Hj. }
      destruct (decide (j = k)) as [Hjk|Hjk]; [subst j|];
        repeat match goal with
               | |- context [(?a <? ?b)%nat] => destruct (Nat.ltb_spec a b)
               end; try lia; Cring.
Qed.

Lemma one_qubit_gather :
  QaoaCore.apply_unitary_one_qubit (QaoaCore.get_exp_x beta) psi nb tv
  = Ok (gate beta (fun j => nth j nb 0%nat) psi).
Proof.
  unfold QaoaCore.apply_unitary_one_qubit. rewrite Hpsi.
  destruct (one_qubit_prefix N) as (res & -> & Hlen & Hval); [lia|].
  f_equal.
  apply (nth_ext _ _ C0 C0); [rewrite length_gate, Hpsi; exact Hlen|].
  intros j Hj. rewrite Hlen in Hj.
  rewrite nth_gate by (rewrite Hpsi; exact Hj).
  rewrite Hval by exact Hj.
  rewrite (proj2 (Nat.ltb_lt j N)) by exact Hj.
  rewrite (proj2 (Nat.ltb_lt (nth j nb 0%nat) N)) by (apply Hrange; exact Hj).
  reflexivity.
Qed.
End OneQubit.

(** ** The mixer layer *)

Lemma gate_ext (beta : R) (f g : nat -> nat) (psi : list C) :
  (forall j, (j < length psi)%nat -> f j = g j) ->
  gate beta f psi = gate beta g psi.
Proof.
  intros H. unfold gate. apply map_ext_in. intros j Hj.
  apply in_seq in Hj. rewrite H by lia. reflexivity.
Qed.

Lemma column_ok (table : list (list nat)) (n q : nat) :
  Forall (fun row => length row = n) table -> (q < n)%nat ->
  column table q = Ok (map (fun row => nth q row 0%nat) table).
Proof.
  intros Hrows Hq. unfold column.
  rewrite (mapM_ext _ (fun row => Ok (nth q row 0%nat))).
  - apply mapM_pure.
  - intros row Hrow. apply index_lt.
    rewrite Forall_forall in Hrows.
    rewrite (Hrows row) by (apply list_elem_of_In; exact Hrow). exact Hq.
Qed.

Lemma nth_column (table : list (list nat)) (q j : nat) :
  nth j (map (fun row => nth q row 0%nat) table) 0%nat = entry table j q.
Proof.
  unfold entry.
  rewrite <- (map_nth (fun row => nth q row 0%nat) table [] j).
  destruct q; reflexivity.
Qed.

Lemma shape1_valid (table : list (list nat)) (N n : nat) :
  (0 < N)%nat -> length table = N ->
  Forall (fun row => length row = n) table ->
  shape1 table = Ok n.
Proof.
  intros HN Hlen Hrows. destruct table as [|row rows]; [simpl in Hlen; lia|].
  inversion Hrows; subst. reflexivity.
Qed.

Lemma length_mix (neighbours : list (list nat)) (betas : list R) (qs : list nat)
    (psi : list C) :
  length (mix neighbours betas qs psi) = length psi.
Proof.
  unfold mix. revert psi. induction qs as [|q qs IH]; intros psi; [reflexivity|].
  simpl. rewrite IH. apply length_gate.
Qed.

Lemma mix_app (neighbours : list (list nat)) (betas : list R) (qs1 qs2 : list nat)
    (psi : list C) :
  mix neighbours betas (qs1 ++ qs2) psi
  = mix neighbours betas qs2 (mix neighbours betas qs1 psi).
Proof. unfold mix. apply fold_left_app. Qed.

Lemma mix_snoc (neighbours : list (list nat)) (betas : list R) (qs : list nat)
    (q : nat) (psi : list C) :
  mix neighbours betas (qs ++ [q]) psi
  = gate (nth q betas 0) (fun j => entry neighbours j q)
         (mix neighbours betas qs psi).
Proof. rewrite mix_app. reflexivity. Qed.

Section Mixer.
Variables N n : nat.
Variables neighbours basis_bin : list (list nat).
Hypothesis Hvalid : valid_tables N n neighbours basis_bin.

Lemma ub_step_gather (betas : list R) (psi : list C) (q : nat) :
  length psi = N -> (q < n)%nat -> (q < length betas)%nat ->
  QaoaCore.ub_step betas neighbours basis_bin psi q
  = Ok (gate (nth q betas 0) (fun j => entry neighbours j q) psi).
Proof.
  intros Hpsi Hq Hb. destruct Hvalid. unfold QaoaCore.ub_step.
  rewrite (index_lt betas q 0) by exact Hb. simpl.
  rewrite (column_ok neighbours n q) by assumption. simpl.
  rewrite (column_ok basis_bin n q) by assumption. simpl.
  rewrite (one_qubit_gather _ psi _ _ N).
  - f_equal. apply gate_ext. intros j _. apply nth_column.
  - exact Hpsi.
  - rewrite length_map. assumption.
  - rewrite length_map. assumption.
  - intros i Hi. rewrite nth_column. auto.
  - intros i Hi. rewrite !nth_column. auto.
  - intros i Hi. rewrite nth_column. auto.
Qed.

Lemma apply_ub_individual_gather (betas : list R) (psi : list C) :
  length psi = N -> (n <= length betas)%nat ->
  QaoaCore.apply_ub_individual betas psi neighbours basis_bin
  = Ok (mix neighbours betas (seq 0 n) psi).
Proof.
  intros Hpsi Hb. unfold QaoaCore.apply_ub_individual.
  rewrite (shape1_valid neighbours N n) by (destruct Hvalid; assumption).
  simpl.
  assert (Hpre : forall k, (k <= n)%nat ->
            foldM (QaoaCore.ub_step betas neighbours basis_bin) (seq 0 k) psi
            = Ok (mix neighbours betas (seq 0 k) psi)).
  { induction k as [|k IH]; intros Hk; [reflexivity|].
    rewrite seq_S, foldM_app, IH by lia. simpl.
    rewrite ub_step_gather by (try lia; rewrite length_mix; exact Hpsi).
    rewrite mix_snoc. reflexivity. }
  apply Hpre. lia.
Qed.
End Mixer.

(** ** Both layers preserve the norm *)

Lemma map_over_indices {A B : Type} (f : A -> B) (l : list A) (d : A) :
  map (fun j => f (nth j l d)) (seq 0 (length l)) = map f l.
Proof.
  induction l as [|a l IH]; [reflexivity|].
  simpl length. rewrite <- cons_seq, <- seq_shift. simpl. rewrite map_map.
  simpl. rewrite IH. reflexivity.
Qed.

Lemma norm2_indices (psi : list C) :
  norm2 psi = Rsum (map (fun j => Cnorm2 (nth j psi C0)) (seq 0 (length psi))).
Proof. unfold norm2. rewrite map_over_indices. reflexivity. Qed.

Lemma norm2_phases (ph psi : list C) :
  length ph = length psi -> Forall (fun z => Cnorm2 z = 1) ph ->
  norm2 (zip_with Cmul ph psi) = norm2 psi.
Proof.
  unfold norm2. revert ph. induction psi as [|z psi IH]; intros ph Hlen Hunit.
  - destruct ph; reflexivity.
  - destruct ph as [|w ph]; [discriminate|].
    inversion Hunit as [|? ? Hw Hph]; subst. simpl.
    rewrite !Rsum_cons, IH by (try assumption; simpl in Hlen; lia).
    rewrite Cnorm2_mul, Hw. ring.
Qed.

Section GateNorm.
Variable beta : R.
Variable flip : nat -> nat.
Variable psi : list C.
Hypothesis Hrange : forall j, (j < length psi)%nat -> (flip j < length psi)%nat.
Hypothesis Hinv : forall j, (j < length psi)%nat -> flip (flip j) = j.

(** The cross term of the rotation at label [j]. *)
Let cross (j : nat) : R :=
  Re (nth j psi C0) * Im (nth (flip j) psi C0)
  - Im (nth j psi C0) * Re (nth (flip j) psi C0).

Lemma cross_sum_zero : Rsum (map cross (seq 0 (length psi))) = 0.
Proof.
  assert (H : Rsum (map cross (seq 0 (length psi)))
              = - Rsum (map cross (seq 0 (length psi)))).
  { rewrite <- (Rsum_reindex (length psi) flip cross Hrange Hinv) at 1.
    replace (- Rsum (map cross (seq 0 (length psi))))
      with (-1 * Rsum (map cross (seq 0 (length psi)))) by ring.
    rewrite <- Rsum_map_scal. apply Rsum_map_ext.
    intros j Hj. apply in_seq in Hj. unfold cross.
    rewrite Hinv by lia. ring. }
  lra.
Qed.

Lemma norm2_gate : norm2 (gate beta flip psi) = norm2 psi.
Proof.
  rewrite (norm2_indices psi).
  unfold norm2, gate. rewrite map_map.
  rewrite (Rsum_map_ext _
    (fun j => cos beta * cos beta * Cnorm2 (nth j psi C0)
              + (sin beta * sin beta * Cnorm2 (nth (flip j) psi C0)
                 + 2 * cos beta * sin beta * cross j)))
    by (intros j _; unfold Cnorm2, cross; simpl; ring).
  rewrite Rsum_map_plus, Rsum_map_plus, !Rsum_map_scal.
  rewrite (Rsum_reindex (length psi) flip
             (fun j => Cnorm2 (nth j psi C0)) Hrange Hinv).
  rewrite cross_sum_zero.
  generalize (sin2_cos2 beta). unfold Rsqr. intros Htrig.
  set (S := Rsum (map (fun j => Cnorm2 (nth j psi C0)) (seq 0 (length psi)))).
  replace (cos beta * cos beta * S + (sin beta * sin beta * S
           + 2 * cos beta * sin beta * 0))
    with ((sin beta * sin beta + cos beta * cos beta) * S) by ring.
  rewrite Htrig. ring.
Qed.
End GateNorm.

Lemma norm2_mix (N n : nat) (neighbours basis_bin : list (list nat))
    (betas : list R) (k : nat) (psi : list C) :
  valid_tables N n neighbours basis_bin -> length psi = N -> (k <= n)%nat ->
  norm2 (mix neighbours betas (seq 0 k) psi) = norm2 psi.
Proof.
  intros Hvalid Hpsi. induction k as [|k IH]; intros Hk; [reflexivity|].
  rewrite seq_S, mix_snoc. simpl.
  rewrite norm2_gate.
  - apply IH. lia.
  - intros j Hj. rewrite length_mix, Hpsi in Hj. rewrite length_mix, Hpsi.
    apply (vt_range _ _ _ _ Hvalid); lia.
  - intros j Hj. rewrite length_mix, Hpsi in Hj.
    apply (vt_invol _ _ _ _ Hvalid); lia.
Qed.

Lemma norm2_uniform (N : nat) :
  (0 < N)%nat -> norm2 (QaoaCore.uniform_state N) = 1.
Proof.
  intros HN. unfold norm2, QaoaCore.uniform_state.
  assert (Hpos : 0 < INR N) by (apply lt_0_INR; lia).
  assert (Hsq : sqrt (INR N) * sqrt (INR N) = INR N) by (apply sqrt_sqrt; lra).
  assert (Hne : sqrt (INR N) <> 0).
  { intros H0. rewrite H0 in Hsq. lra. }
  replace (map Cnorm2 (replicate N (Cdivr C1 (sqrt (INR N)))))
    with (replicate N (Cnorm2 (Cdivr C1 (sqrt (INR N)))))
    by (symmetry; apply fmap_replicate).
  rewrite Rsum_replicate. unfold Cnorm2; simpl.
  replace (1 / sqrt (INR N) * (1 / sqrt (INR N))
           + 0 / sqrt (INR N) * (0 / sqrt (INR N)))
    with (/ (sqrt (INR N) * sqrt (INR N))) by (field; exact Hne).
  rewrite Hsq. field. lra.
Qed.

(** ** The whole simulation in gather form *)

Lemma length_phases_zip (all_cuv_vals : list (list R)) (gammas : list R)
    (psi : list C) :
  Forall (fun row => length row = length psi) all_cuv_vals ->
  length (zip_with Cmul (phases all_cuv_vals gammas (length psi)) psi)
  = length psi.
Proof.
  intros Hrows. rewrite length_zip_with, phases_length by exact Hrows. lia.
Qed.

Lemma length_layer (all_cuv_vals : list (list R)) (neighbours : list (list nat))
    (n : nat) (gammas betas : list R) (psi : list C) :
  Forall (fun row => length row = length psi) all_cuv_vals ->
  length (layer all_cuv_vals neighbours n gammas betas psi) = length psi.
Proof.
  intros Hrows. unfold layer. rewrite length_mix. apply length_phases_zip, Hrows.
Qed.

Lemma length_slice {A : Type} (l : list A) (lo hi : nat) :
  (lo <= hi)%nat -> (hi <= length l)%nat -> length (slice l lo hi) = (hi - lo)%nat.
Proof.
  intros Hlo Hhi. unfold slice. rewrite length_take, length_drop. lia.
Qed.

Lemma terms_rows (E N : nat) (all_cuv_vals : list (list R)) :
  valid_terms E N all_cuv_vals ->
  Forall (fun row => length row = N) all_cuv_vals.
Proof. intros (_ & _ & H). exact H. Qed.

Lemma terms_shape1 (E N : nat) (all_cuv_vals : list (list R)) :
  valid_terms E N all_cuv_vals -> shape1 all_cuv_vals = Ok N.
Proof.
  intros (HE & Hlen & Hrows).
  destruct all_cuv_vals as [|row rows]; [simpl in Hlen; lia|].
  inversion Hrows; subst. reflexivity.
Qed.

Section Simulation.
Variables E N n : nat.
Variable all_cuv_vals : list (list R).
Variables neighbours basis_bin : list (list nat).
Hypothesis Hterms : valid_terms E N all_cuv_vals.
Hypothesis Hvalid : valid_tables N n neighbours basis_bin.

Lemma layer_step_gather (angles : list R) (L : nat) (psi : list C) (i : nat) :
  length psi = N -> (E + n <= L)%nat -> ((i + 1) * L <= length angles)%nat ->
  QaoaCore.layer_step angles L all_cuv_vals neighbours basis_bin psi i
  = Ok (layer all_cuv_vals neighbours n (layer_gammas angles L E i)
              (layer_betas angles L E i) psi).
Proof.
  intros Hpsi HL Hi. destruct Hterms as (HE & Hlen & Hrows).
  unfold QaoaCore.layer_step, shape0. rewrite Hlen.
  fold (layer_gammas angles L E i). fold (layer_betas angles L E i).
  rewrite (apply_uc_gather _ _ _ N);
    [| destruct Hvalid; assumption | exact Hpsi | exact Hrows
     | unfold layer_gammas; rewrite length_take; lia ].
  simpl.
  rewrite (apply_ub_individual_gather N n _ _ Hvalid).
  - unfold layer. rewrite Hpsi. reflexivity.
  - rewrite <- Hpsi. apply length_phases_zip. rewrite Hpsi. exact Hrows.
  - unfold layer_betas. rewrite length_drop, length_slice by lia. nia.
Qed.

Lemma evolve_S (angles : list R) (L k : nat) (psi : list C) :
  evolve all_cuv_vals neighbours n angles L (S k) psi
  = layer all_cuv_vals neighbours n
          (layer_gammas angles L (length all_cuv_vals) k)
          (layer_betas angles L (length all_cuv_vals) k)
          (evolve all_cuv_vals neighbours n angles L k psi).
Proof. unfold evolve. rewrite seq_S, fold_left_app. reflexivity. Qed.

Lemma length_evolve (angles : list R) (L k : nat) (psi : list C) :
  length psi = N ->
  length (evolve all_cuv_vals neighbours n angles L k psi) = N.
Proof.
  intros Hpsi. induction k as [|k IH]; [exact Hpsi|].
  rewrite evolve_S, length_layer; [exact IH|].
  rewrite IH. exact (terms_rows E N _ Hterms).
Qed.

Lemma norm2_evolve (angles : list R) (L k : nat) (psi : list C) :
  length psi = N ->
  norm2 (evolve all_cuv_vals neighbours n angles L k psi) = norm2 psi.
Proof.
  intros Hpsi. induction k as [|k IH]; [reflexivity|].
  rewrite evolve_S. unfold layer.
  assert (Hprev := length_evolve angles L k psi Hpsi).
  assert (Hrows : Forall (fun row => length row
              = length (evolve all_cuv_vals neighbours n angles L k psi))
            all_cuv_vals) by (rewrite Hprev; exact (terms_rows E N _ Hterms)).
  rewrite (norm2_mix N n _ basis_bin _ n _ Hvalid).
  - rewrite norm2_phases; [exact IH | | apply phases_unit].
    apply phases_length. exact Hrows.
  - rewrite length_phases_zip by exact Hrows. exact Hprev.
  - lia.
Qed.

Lemma layers_gather (angles : list R) (L k : nat) (psi : list C) :
  length psi = N -> (E + n <= L)%nat -> (k * L <= length angles)%nat ->
  foldM (QaoaCore.layer_step angles L all_cuv_vals neighbours basis_bin)
        (seq 0 k) psi
  = Ok (evolve all_cuv_vals neighbours n angles L k psi).
Proof.
  intros Hpsi HL. induction k as [|k IH]; intros Hk; [reflexivity|].
  rewrite seq_S, foldM_app, IH by lia. simpl.
  rewrite layer_step_gather by (try lia; apply length_evolve; exact Hpsi).
  rewrite evolve_S. destruct Hterms as (_ & -> & _). reflexivity.
Qed.

(** The quotient [int(len(angles) / p)] times [p] fits in the vector. *)
Lemma per_layer_fits (angles : list R) (p : Z) (k : nat) :
  (1 <= p)%Z -> (k <= Z.to_nat p)%nat ->
  (k * per_layer angles p <= length angles)%nat.
Proof.
  intros Hp Hk. unfold per_layer.
  set (len := Z.of_nat (length angles)).
  assert (Hq : (0 <= Z.quot len p)%Z) by (apply Z.quot_pos; lia).
  assert (Hmul : (p * Z.quot len p <= len)%Z)
    by (apply Z.mul_quot_le; lia).
  apply Nat2Z.inj_le. rewrite Nat2Z.inj_mul, Z2Nat.id by exact Hq.
  fold len. nia.
Qed.

Lemma simulate_layers_gather (angles : list R) (p : Z) (k : nat) :
  (1 <= p)%Z -> (E + n <= per_layer angles p)%nat -> (k <= Z.to_nat p)%nat ->
  QaoaCore.simulate_layers angles p k all_cuv_vals neighbours basis_bin
  = Ok (evolve all_cuv_vals neighbours n angles (per_layer angles p) k
               (QaoaCore.uniform_state N)).
Proof.
  intros Hp HL Hk. unfold QaoaCore.simulate_layers.
  rewrite (terms_shape1 E N _ Hterms). simpl.
  rewrite decide_False by lia.
  apply layers_gather; [apply length_replicate | exact HL |].
  apply per_layer_fits; assumption.
Qed.
End Simulation.

Lemma length_column_sums (all_cuv_vals : list (list R)) (inds : list nat)
    (N : nat) :
  Forall (fun row => length row = N) all_cuv_vals ->
  Forall (fun i => (i < length all_cuv_vals)%nat) inds ->
  length (column_sums all_cuv_vals inds N) = N.
Proof.
  intros Hrows Hinds. unfold column_sums.
  assert (Hgen : forall acc, length acc = N ->
    length (fold_left (zip_with Rplus)
              (map (fun i => nth i all_cuv_vals []) inds) acc) = N).
  { induction Hinds as [|i inds Hi _ IH]; intros acc Hacc; [exact Hacc|].
    simpl. apply IH. rewrite length_zip_with, Hacc.
    rewrite (Forall_nth _ []) in Hrows. rewrite (Hrows i Hi). lia. }
  apply Hgen, length_replicate.
Qed.

Lemma sum_rows_ok (all_cuv_vals : list (list R)) (inds : list nat) (E N : nat) :
  valid_terms E N all_cuv_vals ->
  Forall (fun i => (i < E)%nat) inds ->
  QaoaCore.sum_rows all_cuv_vals inds = Ok (column_sums all_cuv_vals inds N).
Proof.
  intros Hterms Hinds. unfold QaoaCore.sum_rows.
  rewrite (mapM_ext _ (fun i => Ok (nth i all_cuv_vals []))).
  - rewrite mapM_pure. simpl.
    rewrite (terms_shape1 E N all_cuv_vals Hterms). reflexivity.
  - intros i Hi. apply index_lt. destruct Hterms as (_ & -> & _).
    rewrite Forall_forall in Hinds. apply Hinds, list_elem_of_In, Hi.
Qed.

Lemma calc_expectation_ok (psi : list C) (diag : list R) :
  length diag = length psi ->
  QaoaCore.calc_expectation_diagonal psi diag = Ok (expectation psi diag).
Proof.
  intros Hlen. unfold QaoaCore.calc_expectation_diagonal, arr_mul.
  rewrite length_map, decide_True by exact Hlen. simpl.
  rewrite decide_True; [reflexivity|].
  rewrite length_zip_with, length_map. lia.
Qed.

Lemma run_simulation_gather (E N n : nat) (all_cuv_vals : list (list R))
    (neighbours basis_bin : list (list nat)) (angles : list R) (p : Z)
    (edge_inds : option (list nat)) :
  valid_terms E N all_cuv_vals -> valid_tables N n neighbours basis_bin ->
  (1 <= p)%Z -> (E + n <= per_layer angles p)%nat ->
  Forall (fun i => (i < E)%nat) (default (seq 0 E) edge_inds) ->
  QaoaCore.run_ma_qaoa_simulation angles p all_cuv_vals neighbours basis_bin
                                  edge_inds
  = Ok (expectation
          (evolve all_cuv_vals neighbours n angles (per_layer angles p)
                  (Z.to_nat p) (QaoaCore.uniform_state N))
          (column_sums all_cuv_vals (default (seq 0 E) edge_inds) N)).
Proof.
  intros Hterms Hvalid Hp HL Hinds. unfold QaoaCore.run_ma_qaoa_simulation.
  rewrite (simulate_layers_gather E N n) by (try assumption; lia). simpl.
  assert (Hsel : match edge_inds with
                 | Some l => l
                 | None => seq 0 (shape0 all_cuv_vals)
                 end = default (seq 0 E) edge_inds).
  { destruct edge_inds; [reflexivity|]. simpl. unfold shape0.
    destruct Hterms as (_ & -> & _). reflexivity. }
  rewrite Hsel, (sum_rows_ok _ _ E N) by assumption. simpl.
  apply calc_expectation_ok.
  rewrite length_column_sums, (length_evolve E N n) ;
    try assumption; try apply length_replicate; try reflexivity.
  - destruct Hterms as (_ & _ & H); exact H.
  - destruct Hterms as (_ & -> & _). exact Hinds.
Qed.

(** ** The tables of the basis index provider are valid *)

Lemma testbit_high (i n m : nat) :
  (i < 2 ^ n)%nat -> (n <= m)%nat -> Nat.testbit i m = false.
Proof.
  intros Hi Hm. rewrite <- (Nat.mod_small i (2 ^ n)) by exact Hi.
  apply Nat.mod_pow2_bits_high. exact Hm.
Qed.

Lemma flip_bit_range (i n q : nat) :
  (i < 2 ^ n)%nat -> (q < n)%nat -> (Nat.lxor i (2 ^ q) < 2 ^ n)%nat.
Proof.
  intros Hi Hq.
  assert (Heq : Nat.lxor i (2 ^ q) mod 2 ^ n = Nat.lxor i (2 ^ q)).
  { apply Nat.bits_inj. intros m.
    destruct (Nat.lt_ge_cases m n) as [Hm|Hm].
    - apply Nat.mod_pow2_bits_low. exact Hm.
    - rewrite Nat.mod_pow2_bits_high by exact Hm.
      rewrite Nat.lxor_spec, (testbit_high i n m Hi Hm), Nat.pow2_bits_false by lia.
      reflexivity. }
  rewrite <- Heq. apply Nat.mod_upper_bound.
  apply Nat.pow_nonzero. lia.
Qed.

Lemma flip_bit_involutive (i q : nat) :
  Nat.lxor (Nat.lxor i (2 ^ q)) (2 ^ q) = i.
Proof. rewrite Nat.lxor_assoc, Nat.lxor_nilpotent, Nat.lxor_0_r. reflexivity. Qed.

Lemma entry_tabulated (f : nat -> nat -> nat) (M n i q : nat) :
  (i < M)%nat -> (q < n)%nat ->
  entry (map (fun label => map (f label) (seq 0 n)) (seq 0 M)) i q = f i q.
Proof.
  intros Hi Hq. unfold entry.
  rewrite (nth_lookup _ i), list_lookup_fmap, lookup_seq_lt by exact Hi. simpl.
  rewrite nth_lookup, list_lookup_fmap, lookup_seq_lt by exact Hq. reflexivity.
Qed.

Lemma tabulated_rows (f : nat -> nat -> nat) (M n : nat) :
  Forall (fun row => length row = n)
         (map (fun label => map (f label) (seq 0 n)) (seq 0 M)).
Proof.
  apply Forall_forall. intros row Hrow.
  apply list_elem_of_In, in_map_iff in Hrow as (label & <- & _).
  rewrite length_map, length_seq. reflexivity.
Qed.

Lemma provider_tables_valid (n : nat) :
  valid_tables (2 ^ n) n (get_neighbour_labelings n) (get_all_binary_labelings n).
Proof.
  assert (Hpos : (0 < 2 ^ n)%nat) by (apply Nat.neq_0_lt_0, Nat.pow_nonzero; lia).
  unfold get_neighbour_labelings, get_all_binary_labelings.
  constructor.
  - exact Hpos.
  - rewrite length_map, length_seq. reflexivity.
  - rewrite length_map, length_seq. reflexivity.
  - apply (tabulated_rows (fun label q => Nat.lxor label (2 ^ q))).
  - apply (tabulated_rows (fun label q => if Nat.testbit label q then 1 else 0)%nat).
  - intros i q Hi Hq.
    rewrite (entry_tabulated (fun label q => Nat.lxor label (2 ^ q))) by assumption.
    apply flip_bit_range; assumption.
  - intros i q Hi Hq.
    rewrite (entry_tabulated (fun label q => Nat.lxor label (2 ^ q)) _ _ i q)
      by assumption.
    rewrite (entry_tabulated (fun label q => Nat.lxor label (2 ^ q)))
      by (try assumption; apply flip_bit_range; assumption).
    apply flip_bit_involutive.
  - intros i q Hi Hq.
    rewrite (entry_tabulated (fun label q => if Nat.testbit label q then 1 else 0)%nat)
      by assumption.
    destruct (Nat.testbit i q); lia.
  - intros i q Hi Hq.
    rewrite (entry_tabulated (fun label q => Nat.lxor label (2 ^ q))) by assumption.
    rewrite !(entry_tabulated (fun label q => if Nat.testbit label q then 1 else 0)%nat)
      by (try assumption; apply flip_bit_range; assumption).
    rewrite Nat.lxor_spec, Nat.pow2_bits_true.
    destruct (Nat.testbit i q); reflexivity.
  - intros i q r Hi Hq Hr Hne.
    rewrite (entry_tabulated (fun label q => Nat.lxor label (2 ^ q))) by assumption.
    rewrite !(entry_tabulated (fun label q => if Nat.testbit label q then 1 else 0)%nat)
      by (try assumption; apply flip_bit_range; assumption).
    rewrite Nat.lxor_spec, Nat.pow2_bits_false by congruence.
    destruct (Nat.testbit i r); reflexivity.
  - intros i j Hi Hj Hbits. apply Nat.bits_inj. intros m.
    destruct (Nat.lt_ge_cases m n) as [Hm|Hm].
    + specialize (Hbits m Hm).
      rewrite !(entry_tabulated (fun label q => if Nat.testbit label q then 1 else 0)%nat)
        in Hbits by assumption.
      destruct (Nat.testbit i m), (Nat.testbit j m); congruence.
    + rewrite (testbit_high i n m), (testbit_high j n m) by assumption.
      reflexivity.
Qed.

(** ** Rotations commute and are undone by the opposite angle *)

Lemma gate_comm (a b : R) (f g : nat -> nat) (psi : list C) :
  (forall j, (j < length psi)%nat -> (f j < length psi)%nat) ->
  (forall j, (j < length psi)%nat -> (g j < length psi)%nat) ->
  (forall j, (j < length psi)%nat -> f (g j) = g (f j)) ->
  gate a f (gate b g psi) = gate b g (gate a f psi).
Proof.
  intros Hf Hg Hcomm.
  apply (nth_ext _ _ C0 C0); [rewrite !length_gate; reflexivity|].
  intros j Hj. rewrite !length_gate in Hj.
  repeat (rewrite nth_gate by (rewrite ?length_gate; auto)).
  rewrite (Hcomm j Hj). Cring.
Qed.

Lemma gate_inverse (a : R) (f : nat -> nat) (psi : list C) :
  (forall j, (j < length psi)%nat -> (f j < length psi)%nat) ->
  (forall j, (j < length psi)%nat -> f (f j) = j) ->
  gate (- a) f (gate a f psi) = psi.
Proof.
  intros Hf Hinv.
  apply (nth_ext _ _ C0 C0); [rewrite !length_gate; reflexivity|].
  intros j Hj. rewrite !length_gate in Hj.
  repeat (rewrite nth_gate by (rewrite ?length_gate; auto)).
  rewrite (Hinv j Hj), cos_neg, sin_neg.
  generalize (sin2_cos2 a). unfold Rsqr. intros Htrig.
  set (z := nth j psi C0). set (w := nth (f j) psi C0).
  apply C_eq; simpl.
  - transitivity (Re z * (sin a * sin a + cos a * cos a)); [ring|].
    rewrite Htrig. ring.
  - transitivity (Im z * (sin a * sin a + cos a * cos a)); [ring|].
    rewrite Htrig. ring.
Qed.

Section Flips.
Variables N n : nat.
Variables neighbours basis_bin : list (list nat).
Hypothesis Hvalid : valid_tables N n neighbours basis_bin.

(** Flipping two qubits gives the same label in either order. *)
Lemma flips_commute (i q r : nat) :
  (i < N)%nat -> (q < n)%nat -> (r < n)%nat ->
  entry neighbours (entry neighbours i r) q
  = entry neighbours (entry neighbours i q) r.
Proof.
  intros Hi Hq Hr. destruct Hvalid.
  destruct (decide (q = r)) as [->|Hqr]; [reflexivity|].
  assert (Hir := vt_range0 i r Hi Hr). assert (Hiq := vt_range0 i q Hi Hq).
  apply vt_inj0; [auto | auto |].
  intros t Ht.
  destruct (decide (t = q)) as [->|Htq].
  - rewrite vt_flip0 by assumption.
    rewrite (vt_keep0 (entry neighbours i q) r q) by (try assumption; congruence).
    rewrite vt_flip0 by assumption.
    rewrite (vt_keep0 i r q) by (try assumption; congruence). reflexivity.
  - rewrite (vt_keep0 (entry neighbours i r) q t) by assumption.
    destruct (decide (t = r)) as [->|Htr].
    + rewrite !vt_flip0 by assumption.
      rewrite (vt_keep0 i q r) by assumption. reflexivity.
    + rewrite !vt_keep0 by assumption. reflexivity.
Qed.

Lemma gate_mix_comm (a : R) (q : nat) (betas : list R) (k : nat)
    (psi : list C) :
  length psi = N -> (q < n)%nat -> (k <= n)%nat ->
  gate a (fun j => entry neighbours j q) (mix neighbours betas (seq 0 k) psi)
  = mix neighbours betas (seq 0 k) (gate a (fun j => entry neighbours j q) psi).
Proof.
  intros Hpsi Hq. induction k as [|k IH]; intros Hk; [reflexivity|].
  rewrite seq_S, !mix_snoc.
  rewrite gate_comm.
  - rewrite IH by lia. reflexivity.
  - intros j Hj. rewrite length_mix, Hpsi in *.
    apply (vt_range _ _ _ _ Hvalid); lia.
  - intros j Hj. rewrite length_mix, Hpsi in *.
    apply (vt_range _ _ _ _ Hvalid); lia.
  - intros j Hj. rewrite length_mix, Hpsi in Hj.
    apply flips_commute; lia.
Qed.

Lemma mix_inverse (betas : list R) (k : nat) (psi : list C) :
  length psi = N -> (k <= n)%nat ->
  mix neighbours (map Ropp betas) (seq 0 k) (mix neighbours betas (seq 0 k) psi)
  = psi.
Proof.
  intros Hpsi. induction k as [|k IH]; intros Hk; [reflexivity|].
  rewrite seq_S, !mix_snoc. change (0 + k)%nat with k.
  rewrite <- gate_mix_comm by (try lia; rewrite length_mix; exact Hpsi).
  rewrite IH by lia.
  assert (Hneg : nth k (map Ropp betas) 0 = - nth k betas 0).
  { rewrite <- (map_nth Ropp betas 0 k). f_equal. ring. }
  rewrite Hneg. apply gate_inverse.
  - intros j Hj. rewrite Hpsi in *. apply (vt_range _ _ _ _ Hvalid); lia.
  - intros j Hj. rewrite Hpsi in *. apply (vt_invol _ _ _ _ Hvalid); lia.
Qed.
End Flips.

(** ** With every angle zero the state stays where it is *)

Lemma gate_zero (flip : nat -> nat) (psi : list C) :
  gate 0 flip psi = psi.
Proof.
  apply (nth_ext _ _ C0 C0); [apply length_gate|].
  intros j Hj. rewrite length_gate in Hj.
  rewrite nth_gate by exact Hj. rewrite cos_0, sin_0. Cring.
Qed.

Lemma nth_zeros (l : list R) (q : nat) :
  Forall (fun a => a = 0) l -> nth q l 0 = 0.
Proof.
  intros Hl. destruct (nth_in_or_default q l 0) as [Hin|Hd]; [|exact Hd].
  rewrite Forall_forall in Hl. apply Hl, list_elem_of_In, Hin.
Qed.

Lemma mix_zero (neighbours : list (list nat)) (betas : list R) (qs : list nat)
    (psi : list C) :
  Forall (fun a => a = 0) betas -> mix neighbours betas qs psi = psi.
Proof.
  intros Hb. unfold mix. revert psi.
  induction qs as [|q qs IH]; intros psi; [reflexivity|].
  simpl. rewrite nth_zeros by exact Hb. rewrite gate_zero. apply IH.
Qed.

Lemma zeros_replicate (l : list R) :
  Forall (fun a => a = 0) l -> l = replicate (length l) 0.
Proof.
  induction 1 as [|a l Ha _ IH]; [reflexivity|].
  simpl. rewrite Ha, <- IH. reflexivity.
Qed.

Lemma layer_zero (all_cuv_vals : list (list R)) (neighbours : list (list nat))
    (n : nat) (gammas betas : list R) (psi : list C) :
  Forall (fun row => length row = length psi) all_cuv_vals ->
  Forall (fun a => a = 0) gammas -> Forall (fun a => a = 0) betas ->
  layer all_cuv_vals neighbours n gammas betas psi = psi.
Proof.
  intros Hrows Hg Hb. unfold layer. rewrite mix_zero by exact Hb.
  rewrite (zeros_replicate gammas Hg), phases_zero by exact Hrows.
  apply zip_with_Cmul_ones.
Qed.

Lemma evolve_zero (E N n : nat) (all_cuv_vals : list (list R))
    (neighbours : list (list nat)) (angles : list R) (L k : nat)
    (psi : list C) :
  valid_terms E N all_cuv_vals -> length psi = N ->
  Forall (fun a => a = 0) angles ->
  evolve all_cuv_vals neighbours n angles L k psi = psi.
Proof.
  intros Hterms Hpsi Hzero. unfold evolve.
  induction k as [|k IH]; [reflexivity|].
  rewrite seq_S, fold_left_app, IH. simpl.
  apply layer_zero.
  - rewrite Hpsi. exact (terms_rows E N _ Hterms).
  - unfold layer_gammas, slice. apply Forall_take, Forall_take, Forall_drop, Hzero.
  - unfold layer_betas, slice. apply Forall_drop, Forall_take, Forall_drop, Hzero.
Qed.

(** ** The angles a layer reads *)

Lemma mix_ext (neighbours : list (list nat)) (betas betas' : list R)
    (qs : list nat) (psi : list C) :
  (forall q, In q qs -> nth q betas 0 = nth q betas' 0) ->
  mix neighbours betas qs psi = mix neighbours betas' qs psi.
Proof.
  unfold mix. revert psi. induction qs as [|q qs IH]; intros psi H; [reflexivity|].
  simpl. rewrite (H q) by (left; reflexivity).
  apply IH. intros q' Hq'. apply H. right. exact Hq'.
Qed.

Lemma slice_chunk (chunks : list (list R)) (m i : nat) :
  Forall (fun c => length c = m) chunks -> (i < length chunks)%nat ->
  slice (concat chunks) (i * m) ((i + 1) * m) = nth i chunks [].
Proof.
  intros Hc. revert i. induction Hc as [|c cs Hlen _ IH]; intros i Hi.
  - simpl in Hi. lia.
  - destruct i as [|i]; unfold slice; simpl.
    + rewrite Nat.add_0_r, Nat.sub_0_r. apply take_app_length'. lia.
    + simpl in Hi. rewrite <- (IH i) by lia. unfold slice.
      rewrite drop_app_add' by lia.
      f_equal. lia.
Qed.

Section Surplus.
Variables E N n : nat.
Variable all_cuv_vals : list (list R).
Variables neighbours basis_bin : list (list nat).
Hypothesis Hterms : valid_terms E N all_cuv_vals.
Variable angles : list R.
Variables L k : nat.
Hypothesis HL : (E + n <= L)%nat.
Hypothesis Hfit : (k * L <= length angles)%nat.

Lemma used_chunks :
  Forall (fun c => length c = (E + n)%nat)
    (map (fun i => take (E + n) (slice angles (i * L) ((i + 1) * L))) (seq 0 k)).
Proof.
  apply Forall_forall. intros c Hc.
  apply list_elem_of_In, in_map_iff in Hc as (i & <- & Hi).
  apply in_seq in Hi.
  rewrite length_take, length_slice by nia. nia.
Qed.

Lemma used_angles_length :
  length (used_angles angles L (E + n) k) = ((E + n) * k)%nat.
Proof.
  unfold used_angles.
  assert (Hgen : forall chunks : list (list R),
            Forall (fun c => length c = (E + n)%nat) chunks ->
            length (concat chunks) = ((E + n) * length chunks)%nat).
  { induction 1 as [|c cs Hc _ IH]; simpl; [lia|].
    rewrite length_app, IH, Hc. lia. }
  rewrite (Hgen _ used_chunks), length_map, length_seq. reflexivity.
Qed.

Lemma used_slice (i : nat) :
  (i < k)%nat ->
  slice (used_angles angles L (E + n) k) (i * (E + n)) ((i + 1) * (E + n))
  = take (E + n) (slice angles (i * L) ((i + 1) * L)).
Proof.
  intros Hi. unfold used_angles.
  rewrite slice_chunk by (try exact used_chunks; rewrite length_map, length_seq; exact Hi).
  rewrite (nth_indep _ [] (take (E + n) (slice angles (0 * L) ((0 + 1) * L))))
    by (rewrite length_map, length_seq; exact Hi).
  rewrite (map_nth (fun i => take (E + n) (slice angles (i * L) ((i + 1) * L)))
                   (seq 0 k) 0%nat i).
  rewrite seq_nth by exact Hi. reflexivity.
Qed.

(** Cutting every slice to its first [E + n] angles changes no layer. *)
Lemma layer_used (i : nat) (psi : list C) :
  (i < k)%nat ->
  layer all_cuv_vals neighbours n
        (layer_gammas (used_angles angles L (E + n) k) (E + n) E i)
        (layer_betas (used_angles angles L (E + n) k) (E + n) E i) psi
  = layer all_cuv_vals neighbours n (layer_gammas angles L E i)
          (layer_betas angles L E i) psi.
Proof.
  intros Hi. unfold layer, layer_gammas, layer_betas.
  rewrite used_slice by exact Hi.
  rewrite take_take, Nat.min_l by lia.
  apply mix_ext. intros q Hq. apply in_seq in Hq.
  rewrite !nth_lookup, !lookup_drop, lookup_take_lt by lia. reflexivity.
Qed.

Lemma evolve_used (j : nat) (psi : list C) :
  (j <= k)%nat ->
  evolve all_cuv_vals neighbours n (used_angles angles L (E + n) k) (E + n) j psi
  = evolve all_cuv_vals neighbours n angles L j psi.
Proof.
  induction j as [|j IH]; intros Hj; [reflexivity|].
  unfold evolve in *. rewrite !seq_S, !fold_left_app, IH by lia. simpl.
  destruct Hterms as (_ & -> & _). apply layer_used. lia.
Qed.
End Surplus.

(** * The claims *)

(** ** State evolution *)

Lemma per_layer_exact (angles : list R) (p : Z) (m : nat) :
  (1 <= p)%Z -> length angles = (m * Z.to_nat p)%nat -> per_layer angles p = m.
Proof.
  intros Hp Hlen. unfold per_layer.
  rewrite Hlen, Nat2Z.inj_mul, Z2Nat.id, Z.quot_mul by lia.
  apply Nat2Z.id.
Qed.

(** C2: for every angle vector of the expected length [(E + n) * p], every
    [p >= 1] and valid tables, the state vector of [run_ma_qaoa_simulation]
    after each of its layers (k = 0 .. p, the last one being the final state)
    exists and has Euclidean norm 1, hence within 1e-9 of 1. *)
Theorem simulation_state_has_unit_norm (E N n : nat)
    (all_cuv_vals : list (list R)) (neighbours basis_bin : list (list nat))
    (angles : list R) (p : Z) (k : nat) :
  valid_terms E N all_cuv_vals ->
  valid_tables N n neighbours basis_bin ->
  (1 <= p)%Z ->
  length angles = ((E + n) * Z.to_nat p)%nat ->
  (k <= Z.to_nat p)%nat ->
  exists psi,
    QaoaCore.simulate_layers angles p k all_cuv_vals neighbours basis_bin = Ok psi
    /\ norm psi = 1
    /\ Rabs (norm psi - 1) <= 1e-9.
Proof.
  intros Hterms Hvalid Hp Hlen Hk.
  assert (HL : per_layer angles p = (E + n)%nat) by (apply per_layer_exact; assumption).
  eexists. split.
  - apply (simulate_layers_gather E N n); try assumption. rewrite HL. lia.
  - assert (Hnorm : norm (evolve all_cuv_vals neighbours n angles
                            (per_layer angles p) k (QaoaCore.uniform_state N)) = 1).
    { unfold norm.
      rewrite (norm2_evolve E N n _ _ basis_bin Hterms Hvalid)
        by apply length_replicate.
      rewrite norm2_uniform by (destruct Hvalid; assumption).
      apply sqrt_1. }
    split; [exact Hnorm|].
    rewrite Hnorm. replace (1 - 1) with 0 by ring. rewrite Rabs_R0. lra.
Qed.

Lemma single_edge_cuts_valid : valid_terms 1 4 single_edge_cuts.
Proof.
  split; [lia|]. split; [reflexivity|].
  constructor; [reflexivity | constructor].
Defined.

Lemma simulation_state_has_unit_norm_witness :
  exists psi,
    QaoaCore.simulate_layers [0; 0; 0] 1 1 single_edge_cuts
      (get_neighbour_labelings 2) (get_all_binary_labelings 2) = Ok psi
    /\ norm psi = 1
    /\ Rabs (norm psi - 1) <= 1e-9.
Proof.
  apply (simulation_state_has_unit_norm 1 4 2).
  - exact single_edge_cuts_valid.
  - exact (provider_tables_valid 2).
  - lia.
  - reflexivity.
  - simpl; lia.
Defined.

(** C8: for valid tables, a state vector over their labels and any angles
    (one per qubit at least), the mixer layer with [betas] followed by the
    mixer layer with the opposite angles gives back the state vector it
    started from. *)
Theorem mixer_undone_by_opposite_angles (N n : nat)
    (neighbours basis_bin : list (list nat)) (betas : list R) (psi : list C) :
  valid_tables N n neighbours basis_bin ->
  length psi = N ->
  (n <= length betas)%nat ->
  exists psi',
    QaoaCore.apply_ub_individual betas psi neighbours basis_bin = Ok psi'
    /\ QaoaCore.apply_ub_individual (map Ropp betas) psi' neighbours basis_bin
       = Ok psi.
Proof.
  intros Hvalid Hpsi Hb.
  exists (mix neighbours betas (seq 0 n) psi). split.
  - apply (apply_ub_individual_gather N n); assumption.
  - rewrite (apply_ub_individual_gather N n _ _ Hvalid).
    + f_equal. apply (mix_inverse N n _ basis_bin); [assumption | assumption | lia].
    + rewrite length_mix. exact Hpsi.
    + rewrite length_map. exact Hb.
Qed.

Lemma mixer_undone_by_opposite_angles_witness :
  exists psi',
    QaoaCore.apply_ub_individual [1; 2] (QaoaCore.uniform_state 4)
      (get_neighbour_labelings 2) (get_all_binary_labelings 2) = Ok psi'
    /\ QaoaCore.apply_ub_individual (map Ropp [1; 2]) psi'
         (get_neighbour_labelings 2) (get_all_binary_labelings 2)
       = Ok (QaoaCore.uniform_state 4).
Proof.
  apply (mixer_undone_by_opposite_angles 4 2).
  - exact (provider_tables_valid 2).
  - reflexivity.
  - simpl; lia.
Defined.

(** ** The optimisation drivers *)

Lemma core_optimize_loop_Ok minimize uniform (multi_angle use_analytical : bool)
    (p : Z) (graph : Graph) (edge_list : option (list (nat * nat)))
    (st : QaoaCore.loop_state) :
  QaoaCore.optimize_loop minimize uniform multi_angle use_analytical p graph edge_list
  = Ok st ->
  exists func objective_max angles0,
    QaoaCoreSpec.total_weight graph = Ok objective_max
    /\ st = QaoaCore.attempts minimize uniform func objective_max (seq 0 10)
              (QaoaCore.mkState 0 angles0 []).
Proof.
  unfold QaoaCore.optimize_loop, QaoaCoreSpec.total_weight.
  destruct (negb (negb use_analytical || (p =? 1)%Z)); [discriminate|].
  intros H.
  apply bind_Ok in H as (pre & _ & H).
  apply bind_Ok in H as (angles0 & _ & H).
  apply bind_Ok in H as (weights & Hw & H).
  injection H as <-. rewrite Hw. simpl. eauto.
Qed.

(** C10: when no restart of the evaluator-based driver reports a negative
    minimum (every maximised objective is at most 0), the driver returns the
    objective 0 with the all-zeros angle vector it was initialised with; the
    driver itself never evaluates that vector. *)
Theorem driver_returns_initial_pair_when_nothing_improves
    (minimize : (list R -> py R) -> list R -> Optimization.OptimizeResult)
    (uniform : nat -> nat -> list R) (evaluator : Optimization.Evaluator)
    (num_restarts : nat) :
  (forall i, (i < num_restarts)%nat ->
     0 <= Optimization.fun_
            (minimize (Optimization.func evaluator)
                      (uniform i (Optimization.num_angles evaluator)))) ->
  Optimization.optimize_qaoa_angles minimize uniform evaluator num_restarts
  = (0, replicate (Optimization.num_angles evaluator) 0).
Proof.
  intros Hall. unfold Optimization.optimize_qaoa_angles.
  destruct (OptimizationFacts.loop_unchanged minimize uniform evaluator
              num_restarts Hall) as [-> ->].
  reflexivity.
Qed.

Lemma driver_returns_initial_pair_when_nothing_improves_witness :
  Optimization.optimize_qaoa_angles
    (const_minimize (Optimization.mkResult [1; 1] 1)) zero_uniform
    flat_evaluator 3
  = (0, [0; 0]).
Proof.
  apply (driver_returns_initial_pair_when_nothing_improves
           (const_minimize (Optimization.mkResult [1; 1] 1)) zero_uniform
           flat_evaluator 3).
  intros i _. simpl. lra.
Defined.

(** C7: in the graph-based driver, asking for the analytical evaluator with
    [p <> 1] raises the assertion error before any table is built, any
    random point drawn or the local optimizer called: the outcome does not
    depend on the collaborators at all. *)
Theorem analytical_requires_one_layer
    (minimize : (list R -> py R) -> list R -> QaoaCore.OptimizeResult)
    (uniform : nat -> nat -> list R) (multi_angle : bool) (p : Z)
    (graph : Graph) (edge_list : option (list (nat * nat))) :
  p <> 1%Z ->
  QaoaCore.optimize_loop minimize uniform multi_angle true p graph edge_list
  = Raise (AssertionError "Cannot use analytical for p != 1")
  /\ QaoaCore.optimize_qaoa_angles minimize uniform multi_angle true p graph edge_list
     = Raise (AssertionError "Cannot use analytical for p != 1").
Proof.
  intros Hp. unfold QaoaCore.optimize_qaoa_angles, QaoaCore.optimize_loop.
  simpl. destruct (Z.eqb_spec p 1) as [Heq|_]; [contradiction|].
  split; reflexivity.
Qed.

Lemma analytical_requires_one_layer_witness :
  QaoaCore.optimize_loop
    (core_const_minimize (QaoaCore.mkResult [] 0)) zero_uniform true true 2
    (single_edge 1) None
  = Raise (AssertionError "Cannot use analytical for p != 1")
  /\ QaoaCore.optimize_qaoa_angles
       (core_const_minimize (QaoaCore.mkResult [] 0)) zero_uniform true true 2
       (single_edge 1) None
     = Raise (AssertionError "Cannot use analytical for p != 1").
Proof.
  apply (analytical_requires_one_layer
           (core_const_minimize (QaoaCore.mkResult [] 0)) zero_uniform true 2
           (single_edge 1) None).
  lia.
Defined.

Lemma total_weight_single_edge (w : R) :
  QaoaCoreSpec.total_weight (single_edge w) = Ok (Rsum [w]).
Proof.
  unfold QaoaCoreSpec.total_weight, single_edge, edges_data. simpl.
  rewrite lookup_singleton_eq. reflexivity.
Qed.

(** The graph-based driver on one edge of weight 1 with an optimizer that
    reaches the maximum at once: one restart, then the early stop. *)
Lemma core_single_edge_run :
  QaoaCore.optimize_loop (core_const_minimize core_reaching_result) zero_uniform
                         true true 1 (single_edge 1) None
  = Ok (QaoaCore.mkState (- -1) (map (fun a => a / PI) [0; 0; 0]) [ [0; 0; 0] ]).
Proof.
  rewrite (QaoaCoreSteps.optimize_loop_analytical _ _ _ _ _
             (total_weight_single_edge 1)).
  f_equal. change (seq 0 10) with (0%nat :: seq 1 9).
  rewrite QaoaCoreSteps.attempts_go
    by (unfold QaoaCoreSpec.stop_test, Rsum; simpl; lra).
  rewrite QaoaCoreSteps.restart_improves by (simpl; lra).
  apply QaoaCoreSteps.attempts_stop.
  unfold QaoaCoreSpec.stop_test, Rsum; simpl; lra.
Qed.

(** C4 (as stated, refuted on the graph-based driver): its only improving
    restart records the starting point divided by pi, not the minimising
    vector the local optimizer returned, and the driver returns the
    objective alone. *)
Lemma graph_driver_records_scaled_start :
  QaoaCore.optimize_loop (core_const_minimize core_reaching_result) zero_uniform
                         true true 1 (single_edge 1) None
  = Ok (QaoaCore.mkState (- QaoaCore.fun_ core_reaching_result)
                         (map (fun a => a / PI) [0; 0; 0]) [ [0; 0; 0] ])
  /\ map (fun a => a / PI) [0; 0; 0] <> QaoaCore.x core_reaching_result
  /\ QaoaCore.optimize_qaoa_angles (core_const_minimize core_reaching_result)
       zero_uniform true true 1 (single_edge 1) None
     = Ok (- QaoaCore.fun_ core_reaching_result).
Proof.
  split; [exact core_single_edge_run|]. split.
  - simpl. intros H. injection H as H _ _.
    assert (Hpi := PI_RGT_0). unfold Rdiv in H. rewrite Rmult_0_l in H. lra.
  - unfold QaoaCore.optimize_qaoa_angles. rewrite core_single_edge_run.
    reflexivity.
Qed.

(** C4 (amended): the evaluator-based driver records, at every restart whose
    objective strictly exceeds the best so far, that objective with the
    minimising vector returned by the local optimizer, and returns the pair
    held when the loop ends, which bounds every restart and is either the
    initial pair or the pair of one restart; the graph-based driver records
    the objective at such a restart and returns the best objective alone. *)
Theorem drivers_record_the_best_restart :
  (forall (minimize : (list R -> py R) -> list R -> Optimization.OptimizeResult)
          (uniform : nat -> nat -> list R) (evaluator : Optimization.Evaluator)
          (num_restarts : nat),
     let loop := Optimization.optimize_loop minimize uniform evaluator in
     let result := OptimizationSpec.result_at minimize uniform evaluator in
     (forall i, - Optimization.fun_ (result i) > Optimization.objective_best (loop i) ->
        Optimization.objective_best (loop (S i)) = - Optimization.fun_ (result i)
        /\ Optimization.angles_best (loop (S i)) = Optimization.x (result i))
     /\ Optimization.optimize_qaoa_angles minimize uniform evaluator num_restarts
        = (Optimization.objective_best (loop num_restarts),
           Optimization.angles_best (loop num_restarts))
     /\ (forall i, (i < num_restarts)%nat ->
           - Optimization.fun_ (result i)
           <= Optimization.objective_best (loop num_restarts))
     /\ ((Optimization.objective_best (loop num_restarts) = 0
          /\ Optimization.angles_best (loop num_restarts)
             = replicate (Optimization.num_angles evaluator) 0)
         \/ exists i, (i < num_restarts)%nat
              /\ Optimization.objective_best (loop num_restarts)
                 = - Optimization.fun_ (result i)
              /\ Optimization.angles_best (loop num_restarts)
                 = Optimization.x (result i)))
  /\ (forall (minimize : (list R -> py R) -> list R -> QaoaCore.OptimizeResult)
             (uniform : nat -> nat -> list R) (func : list R -> py R)
             (st : QaoaCore.loop_state) (opt_ind : nat),
        let result :=
          minimize func (uniform opt_ind (length (QaoaCore.angles_best st))) in
        - QaoaCore.fun_ result > QaoaCore.objective_best st ->
        QaoaCore.objective_best (QaoaCore.restart minimize uniform func st opt_ind)
        = - QaoaCore.fun_ result)
  /\ (forall (minimize : (list R -> py R) -> list R -> QaoaCore.OptimizeResult)
             (uniform : nat -> nat -> list R) (multi_angle use_analytical : bool)
             (p : Z) (graph : Graph) (edge_list : option (list (nat * nat)))
             (st : QaoaCore.loop_state),
        QaoaCore.optimize_loop minimize uniform multi_angle use_analytical p
                               graph edge_list = Ok st ->
        QaoaCore.optimize_qaoa_angles minimize uniform multi_angle use_analytical
                                      p graph edge_list
        = Ok (QaoaCore.objective_best st)).
Proof.
  split; [|split].
  - intros minimize uniform evaluator num_restarts loop result.
    split; [intros i; apply OptimizationFacts.loop_record|].
    split; [reflexivity|].
    split; [intros i; apply OptimizationFacts.loop_upper_bound|].
    apply OptimizationFacts.loop_attained.
  - intros minimize uniform func st opt_ind result Hgt.
    rewrite QaoaCoreSteps.restart_improves by exact Hgt. reflexivity.
  - intros minimize uniform multi_angle use_analytical p graph edge_list st Hst.
    unfold QaoaCore.optimize_qaoa_angles. rewrite Hst. reflexivity.
Qed.

Lemma drivers_record_the_best_restart_witness :
  Optimization.objective_best
    (Optimization.optimize_loop (const_minimize reaching_result) zero_uniform
                                single_edge_evaluator 1)
  = - Optimization.fun_ reaching_result
  /\ Optimization.angles_best
       (Optimization.optimize_loop (const_minimize reaching_result) zero_uniform
                                   single_edge_evaluator 1)
     = Optimization.x reaching_result.
Proof.
  apply (proj1 (proj1 drivers_record_the_best_restart
                  (const_minimize reaching_result) zero_uniform
                  single_edge_evaluator 1%nat) 0%nat).
  simpl. lra.
Defined.




(** ** The generalized first-order evaluator *)

Lemma z1_loop (angles : list R) (graph : Graph) (l : list (nat * nat)) (acc : R) :
  Forall (fun e : nat * nat =>
            (e.1 + length (nodes graph) < length angles)%nat
            /\ (e.2 + length (nodes graph) < length angles)%nat) l ->
  foldM (Analytical.z1_step angles graph) l acc
  = Ok (acc - Rsum (map (z1_term angles (length (nodes graph))) l)).
Proof.
  intros Hl. revert acc. induction Hl as [|e l [H1 H2] _ IH]; intros acc.
  - simpl. rewrite Rsum_nil. f_equal. ring.
  - simpl. unfold Analytical.z1_step at 1.
    rewrite (index_lt angles e.1 0) by lia. simpl.
    rewrite (index_lt angles e.2 0) by lia. simpl.
    rewrite (index_lt angles (e.1 + length (nodes graph)) 0) by lia. simpl.
    rewrite (index_lt angles (e.2 + length (nodes graph)) 0) by lia. simpl.
    rewrite IH, Rsum_cons. unfold z1_term at 2. f_equal. ring.
Qed.

Lemma nth_replicate_app_l {A : Type} (n i : nat) (x d : A) (l : list A) :
  (i < n)%nat -> nth i (replicate n x ++ l) d = x.
Proof.
  intros Hi. rewrite app_nth1 by (rewrite length_replicate; exact Hi).
  rewrite nth_lookup, lookup_replicate_2 by exact Hi. reflexivity.
Qed.

Lemma nth_replicate_app_r {A : Type} (n i : nat) (x d : A) (l : list A) :
  nth (i + n) (replicate n x ++ l) d = nth i l d.
Proof.
  rewrite app_nth2 by (rewrite length_replicate; lia).
  rewrite length_replicate, Nat.add_sub. reflexivity.
Qed.

Lemma nth_app_replicate_r {A : Type} (n i : nat) (x d : A) (l : list A) :
  length l = n -> (i < n)%nat -> nth (i + n) (l ++ replicate n x) d = x.
Proof.
  intros Hl Hi. rewrite app_nth2 by lia.
  rewrite nth_lookup, lookup_replicate_2 by lia. reflexivity.
Qed.

Lemma sin_2_quarter_pi : sin (2 * (PI / 4)) = 1.
Proof. replace (2 * (PI / 4)) with (PI / 2) by field. apply sin_PI2. Qed.

(** C9: the generalized Z1 evaluator returns [num_edges / 2] minus the sum
    over the index edges [(u, v)] of
    [sin(2 beta_u) sin(2 beta_v) sin(2 gamma_u) sin(2 gamma_v) / 2], and the
    reduced variant, given one free angle per node, returns the value of the
    full formula at that vector as gammas with every beta equal to pi/4. *)
Theorem z1_formula_and_reduced_variant
    (get_index_edge_list : Graph -> list (nat * nat)) (graph : Graph) :
  let n := length (nodes graph) in
  (forall angles,
     Forall (fun e : nat * nat =>
               (e.1 + n < length angles)%nat /\ (e.2 + n < length angles)%nat)
            (get_index_edge_list graph) ->
     Analytical.calc_expectation_general_analytical_z1 get_index_edge_list
       angles graph
     = Ok (z1_formula angles graph (get_index_edge_list graph)))
  /\ (forall gammas,
        length gammas = n ->
        Forall (fun e : nat * nat => (e.1 < n)%nat /\ (e.2 < n)%nat)
               (get_index_edge_list graph) ->
        Analytical.calc_expectation_general_analytical_z1_reduced
          get_index_edge_list gammas graph
        = Analytical.calc_expectation_general_analytical_z1 get_index_edge_list
            (gammas ++ replicate n (PI / 4)) graph
        /\ Analytical.calc_expectation_general_analytical_z1_reduced
             get_index_edge_list gammas graph
           = Ok (INR (length (edges graph)) / 2
                 - Rsum (map (fun e : nat * nat =>
                                sin (2 * nth e.1 gammas 0)
                                * sin (2 * nth e.2 gammas 0) / 2)
                             (get_index_edge_list graph)))).
Proof.
  intros n. split.
  - intros angles Hl. unfold Analytical.calc_expectation_general_analytical_z1.
    rewrite z1_loop by exact Hl. reflexivity.
  - intros gammas Hg Hl.
    assert (Hred : Analytical.calc_expectation_general_analytical_z1_reduced
                     get_index_edge_list gammas graph
                   = Ok (INR (length (edges graph)) / 2
                         - Rsum (map (fun e : nat * nat =>
                                        sin (2 * nth e.1 gammas 0)
                                        * sin (2 * nth e.2 gammas 0) / 2)
                                     (get_index_edge_list graph)))).
    { unfold Analytical.calc_expectation_general_analytical_z1_reduced,
        Analytical.calc_expectation_general_analytical_z1.
      rewrite z1_loop.
      - f_equal. f_equal. apply Rsum_map_ext. intros e He.
        rewrite Forall_forall in Hl.
        destruct (Hl e (proj2 (list_elem_of_In _ _) He)) as [H1 H2].
        unfold z1_term. fold n.
        rewrite !nth_replicate_app_r, !nth_replicate_app_l by assumption.
        rewrite sin_2_quarter_pi. field.
      - eapply Forall_impl; [exact Hl|]. intros e [H1 H2]. fold n.
        rewrite length_app, length_replicate, Hg. lia. }
    split; [|exact Hred].
    rewrite Hred. unfold Analytical.calc_expectation_general_analytical_z1.
    rewrite z1_loop.
    + f_equal. f_equal. apply Rsum_map_ext. intros e He.
      rewrite Forall_forall in Hl.
      destruct (Hl e (proj2 (list_elem_of_In _ _) He)) as [H1 H2].
      unfold z1_term. fold n.
      rewrite !nth_app_replicate_r by assumption.
      rewrite !(app_nth1 gammas) by (rewrite Hg; assumption).
      rewrite sin_2_quarter_pi. field.
    + eapply Forall_impl; [exact Hl|]. intros e [H1 H2]. fold n.
      rewrite length_app, length_replicate, Hg. lia.
Qed.

Lemma z1_formula_and_reduced_variant_witness :
  Analytical.calc_expectation_general_analytical_z1 edge_pairs
    [1; 2; 3; 4] (single_edge 1)
  = Ok (z1_formula [1; 2; 3; 4] (single_edge 1) (edge_pairs (single_edge 1))).
Proof.
  apply (proj1 (z1_formula_and_reduced_variant edge_pairs (single_edge 1))).
  repeat constructor.
Defined.

(** ** The closed form and the graph it annotates *)

Lemma analytical_single_edge (g b0 b1 w : R) (rest : list R) :
  ma_qaoa_analytical_p1 (g :: b0 :: b1 :: rest) (single_edge w) None
  = (Ok (0 + (w / 2 + w / 2 * sin (g * w)
                      * (sin (2 * b0) * cos (2 * b1) * Rprod []
                         + cos (2 * b0) * sin (2 * b1) * Rprod []))),
     mkGraph [0%nat; 1%nat]
             [ (0%nat, 1%nat, <[ "gamma" := g * w ]> {[ "weight" := w ]}) ]).
Proof.
  unfold ma_qaoa_analytical_p1, single_edge, scaled_gammas, edges_data,
    enumerate, slice. simpl.
  rewrite lookup_singleton_eq. simpl.
  unfold set_edge_attributes, set_edge_attribute; simpl.
  unfold edge_term, edge_attr, adj, cos_prod, cos_prod_f. simpl.
  rewrite lookup_insert_ne by done. rewrite lookup_singleton_eq. simpl.
  rewrite lookup_insert_eq. simpl.
  reflexivity.
Qed.

Section Annotation.
Variable name : string.

Lemma set_attribute_nodes (graph : Graph) (u v : nat) (value : R) :
  nodes (set_edge_attribute graph u v name value) = nodes graph.
Proof. reflexivity. Qed.

Lemma set_attribute_lookup (graph : Graph) (u v : nat) (value : R) (i : nat) :
  edges (set_edge_attribute graph u v name value) !! i
  = (fun e : nat * nat * gmap string R =>
       if same_edge u v e.1.1 e.1.2 then (e.1, <[ name := value ]> e.2) else e)
    <$> edges graph !! i.
Proof. unfold set_edge_attribute. simpl. apply list_lookup_fmap. Qed.

Lemma set_attributes_nodes (values : list (nat * nat * R)) (graph : Graph) :
  nodes (set_edge_attributes graph values name) = nodes graph.
Proof.
  unfold set_edge_attributes. revert graph.
  induction values as [|item values IH]; intros graph; [reflexivity|].
  simpl. rewrite IH. reflexivity.
Qed.

(** Edge by edge: the endpoints stay, every other attribute stays, and the
    attribute [name] is only ever set, never removed. *)
Lemma set_attributes_lookup (values : list (nat * nat * R)) (graph : Graph)
    (i : nat) (e : nat * nat * gmap string R) :
  edges graph !! i = Some e ->
  exists attrs,
    edges (set_edge_attributes graph values name) !! i = Some (e.1, attrs)
    /\ (forall other, other <> name -> attrs !! other = e.2 !! other)
    /\ (is_Some (e.2 !! name) -> is_Some (attrs !! name))
    /\ (Exists (fun item : nat * nat * R =>
                  same_edge item.1.1 item.1.2 e.1.1 e.1.2 = true) values ->
        is_Some (attrs !! name)).
Proof.
  unfold set_edge_attributes. revert graph e.
  induction values as [|item values IH]; intros graph e He.
  - exists e.2. simpl. rewrite He. destruct e as [uv attrs]. simpl.
    split; [reflexivity|]. split; [reflexivity|]. split; [auto|].
    intros H. inversion H.
  - simpl.
    set (g1 := set_edge_attribute graph item.1.1 item.1.2 name item.2).
    assert (H1 : edges g1 !! i
                 = Some (if same_edge item.1.1 item.1.2 e.1.1 e.1.2
                         then (e.1, <[ name := item.2 ]> e.2) else e)).
    { unfold g1. rewrite set_attribute_lookup, He. reflexivity. }
    destruct (IH g1 _ H1) as (attrs & Hlook & Hother & Hkeep & Hset).
    destruct (same_edge item.1.1 item.1.2 e.1.1 e.1.2) eqn:Hsame;
      simpl in Hlook, Hother, Hkeep, Hset.
    + exists attrs. split; [exact Hlook|]. split.
      * intros other Hne. rewrite Hother by exact Hne.
        apply lookup_insert_ne. congruence.
      * assert (Hnow : is_Some (attrs !! name)).
        { apply Hkeep. rewrite lookup_insert_eq. eauto. }
        split; intros _; exact Hnow.
    + exists attrs. split; [exact Hlook|]. split; [exact Hother|].
      split; [exact Hkeep|].
      intros Hex. inversion Hex as [? ? Hhd|? ? Htl]; subst.
      * congruence.
      * apply Hset. exact Htl.
Qed.
End Annotation.

Lemma same_edge_refl (u v : nat) : same_edge u v u v = true.
Proof. unfold same_edge. rewrite !Nat.eqb_refl. reflexivity. Qed.

(** The scaled gammas have one item per edge, with the endpoints of that
    edge. *)
Lemma scaled_items_endpoints (gammas : list R)
    (es : list (nat * nat * gmap string R))
    (F : nat -> nat * nat * option R -> nat * (nat * nat * option R))
    (values : list (nat * nat * R)) :
  (forall i item, (F i item).2 = item) ->
  mapM (fun item : nat * (nat * nat * option R) =>
          try! g := index gammas item.1 in
          match item.2.2 with
          | Some w => Ok (item.2.1, g * w)
          | None => Raise TypeError
          end)
       (imap F (map (fun e : nat * nat * gmap string R =>
                       (e.1.1, e.1.2, e.2 !! "weight")) es))
  = Ok values ->
  map fst values = map fst es.
Proof.
  revert F values. induction es as [|e es IH]; intros F values HF H.
  - simpl in H. injection H as <-. reflexivity.
  - simpl in H.
    apply bind_Ok in H as (y & Hy & H).
    apply bind_Ok in H as (ys & Hys & H). injection H as <-.
    apply bind_Ok in Hy as (g & _ & Hy). rewrite HF in Hy. simpl in Hy.
    destruct (e.2 !! "weight"); [|discriminate]. injection Hy as <-.
    simpl. f_equal.
    + destruct e as [[u v] attrs]. reflexivity.
    + apply (IH (F ∘ S) ys); [intros i item; apply HF | exact Hys].
Qed.

Lemma scaled_gammas_endpoints (graph : Graph) (gammas : list R)
    (values : list (nat * nat * R)) :
  scaled_gammas graph gammas = Ok values ->
  map fst values = map fst (edges graph).
Proof.
  unfold scaled_gammas, edges_data, enumerate.
  apply scaled_items_endpoints. reflexivity.
Qed.

(** ** The value of the annotation on a simple graph *)

Lemma scaled_items_lookup (gammas : list R)
    (es : list (nat * nat * gmap string R)) (start : nat)
    (values : list (nat * nat * R)) :
  mapM (fun item : nat * (nat * nat * option R) =>
          try! g := index gammas item.1 in
          match item.2.2 with
          | Some w => Ok (item.2.1, g * w)
          | None => Raise TypeError
          end)
       (imap (fun i x => ((start + i)%nat, x))
             (map (fun e : nat * nat * gmap string R =>
                     (e.1.1, e.1.2, e.2 !! "weight")) es))
  = Ok values ->
  forall i e, es !! i = Some e ->
    exists g w, gammas !! (start + i)%nat = Some g
                /\ e.2 !! "weight" = Some w
                /\ values !! i = Some (e.1, g * w).
Proof.
  revert start values. induction es as [|e0 es IH]; intros start values H i e He.
  - discriminate.
  - simpl in H.
    apply bind_Ok in H as (y & Hy & H).
    apply bind_Ok in H as (ys & Hys & H). injection H as <-.
    apply bind_Ok in Hy as (g & Hg & Hy). simpl in Hy, Hg.
    destruct (e0.2 !! "weight") as [w|] eqn:Hw; [|discriminate].
    injection Hy as <-.
    destruct i as [|i].
    + injection He as <-. exists g, w.
      unfold index in Hg. destruct (gammas !! (start + 0)%nat) eqn:Hl; [|discriminate].
      injection Hg as ->. split; [reflexivity|]. split; [exact Hw|].
      destruct e0 as [[u v] attrs]. reflexivity.
    + simpl in He.
      assert (Hys' : mapM (fun item : nat * (nat * nat * option R) =>
                try! g := index gammas item.1 in
                match item.2.2 with
                | Some w => Ok (item.2.1, g * w)
                | None => Raise TypeError
                end)
             (imap (fun i x => ((S start + i)%nat, x))
                   (map (fun e : nat * nat * gmap string R =>
                           (e.1.1, e.1.2, e.2 !! "weight")) es)) = Ok ys).
      { rewrite <- Hys. f_equal. apply imap_ext. intros k x _. simpl.
        f_equal. lia. }
      destruct (IH (S start) ys Hys' i e He) as (g' & w' & Hg' & Hw' & Hv).
      exists g', w'. split; [|split; [exact Hw' | exact Hv]].
      rewrite <- Hg'. f_equal. lia.
Qed.

Lemma set_attributes_snoc (graph : Graph) (values : list (nat * nat * R))
    (item : nat * nat * R) (name : string) :
  set_edge_attributes graph (values ++ [item]) name
  = set_edge_attribute (set_edge_attributes graph values name)
                       item.1.1 item.1.2 name item.2.
Proof. unfold set_edge_attributes. rewrite fold_left_app. reflexivity. Qed.

Lemma same_edge_pair (a b : nat * nat) :
  a = b -> same_edge a.1 a.2 b.1 b.2 = true.
Proof. intros ->. apply same_edge_refl. Qed.

(** On a simple graph, after the first [k] items of a dictionary that lists
    the edges in order, exactly the first [k] edges carry their value. *)
Lemma set_attributes_prefix (name : string) (graph : Graph)
    (values : list (nat * nat * R)) (k : nat) :
  simple_edges graph ->
  (forall i e, edges graph !! i = Some e ->
     exists x, values !! i = Some (e.1, x)) ->
  length values = length (edges graph) ->
  (k <= length values)%nat ->
  forall i e x,
    edges graph !! i = Some e -> values !! i = Some (e.1, x) ->
    edges (set_edge_attributes graph (take k values) name) !! i
    = Some (if decide (i < k)%nat then (e.1, <[ name := x ]> e.2) else e).
Proof.
  intros Hsimple Haligned Hlen. induction k as [|k IH]; intros Hk i e x He Hv.
  - rewrite decide_False by lia. exact He.
  - assert (Hek : is_Some (edges graph !! k))
      by (apply lookup_lt_is_Some; lia).
    destruct Hek as [ek Hek].
    destruct (Haligned k ek Hek) as (xk & Hvk).
    rewrite (take_S_r _ _ _ Hvk), set_attributes_snoc, set_attribute_lookup.
    rewrite (IH ltac:(lia) i e x He Hv). simpl.
    destruct (decide (i = k)) as [->|Hne].
    + assert (e = ek) by congruence. subst ek.
      assert (x = xk) by congruence. subst xk.
      rewrite decide_False, decide_True by lia.
      rewrite same_edge_refl. reflexivity.
    + assert (Hdiff : same_edge ek.1.1 ek.1.2 e.1.1 e.1.2 = false).
      { destruct (same_edge ek.1.1 ek.1.2 e.1.1 e.1.2) eqn:Hs; [|reflexivity].
        exfalso. apply Hne. symmetry. exact (Hsimple k i ek e Hek He Hs). }
      destruct (decide (i < k)%nat) as [Hlt|Hge].
      * rewrite decide_True by lia. simpl. rewrite Hdiff. reflexivity.
      * rewrite decide_False by lia. rewrite Hdiff. reflexivity.
Qed.

(** The annotation left by one call on a simple graph: edge [i] carries
    [angles[i] * weight_i]. *)
Lemma annotation_value (angles : list R) (graph : Graph)
    (edge_list : option (list (nat * nat))) (i : nat)
    (e : nat * nat * gmap string R) (value : R) :
  simple_edges graph ->
  (ma_qaoa_analytical_p1 angles graph edge_list).1 = Ok value ->
  edges graph !! i = Some e ->
  exists a w,
    angles !! i = Some a /\ e.2 !! "weight" = Some w
    /\ edges (ma_qaoa_analytical_p1 angles graph edge_list).2 !! i
       = Some (e.1, <[ "gamma" := a * w ]> e.2).
Proof.
  intros Hsimple Hok He. unfold ma_qaoa_analytical_p1 in *.
  destruct (scaled_gammas graph _) as [values|err] eqn:Hvalues;
    [|discriminate]. simpl in *. clear Hok.
  assert (Hlen : length values = length (edges graph)).
  { apply scaled_gammas_endpoints in Hvalues.
    rewrite <- (length_map fst values), Hvalues, length_map. reflexivity. }
  unfold scaled_gammas, edges_data, enumerate in Hvalues.
  assert (Hitems := scaled_items_lookup _ (edges graph) 0 values Hvalues).
  destruct (Hitems i e He) as (a & w & Ha & Hw & Hv).
  exists a, w. simpl in Ha. unfold slice in Ha.
  rewrite drop_0 in Ha. apply lookup_take_Some in Ha as [Ha _].
  split; [exact Ha|]. split; [exact Hw|].
  rewrite <- (firstn_all values) at 1.
  change (firstn (length values) values) with (take (length values) values).
  rewrite (set_attributes_prefix "gamma" graph values (length values) Hsimple)
    with (e := e) (x := a * w); try assumption; try lia.
  - rewrite decide_True; [reflexivity|].
    rewrite Hlen. apply lookup_lt_Some in He. exact He.
  - intros j ej Hej. destruct (Hitems j ej Hej) as (a' & w' & _ & _ & Hv').
    eauto.
Qed.




(** ** Closed form against simulation *)

(** The tables the graph-based driver builds for one edge, whatever its
    weight: [check_edge_cut] is given the label and the endpoints only. *)
Lemma preprocessing_single_edge (w : R) :
  QaoaCore.preprocessing (single_edge w) None
  = Ok (QaoaCore.mkTables (get_neighbour_labelings 2)
                          (get_all_binary_labelings 2) single_edge_cuts None).
Proof. reflexivity. Qed.

Lemma uniform_cut_expectation :
  expectation (QaoaCore.uniform_state 4) (column_sums single_edge_cuts [0%nat] 4)
  = 1 / 2.
Proof.
  unfold expectation, QaoaCore.uniform_state, column_sums, single_edge_cuts, Csum.
  simpl.
  assert (Hsq : sqrt (1 + 1 + 1 + 1) * sqrt (1 + 1 + 1 + 1) = 1 + 1 + 1 + 1)
    by (apply sqrt_sqrt; lra).
  assert (Hne : sqrt (1 + 1 + 1 + 1) <> 0).
  { intros H0. rewrite H0 in Hsq. lra. }
  set (s := sqrt (1 + 1 + 1 + 1)) in *.
  transitivity (2 / (s * s)); [field; exact Hne|].
  rewrite Hsq. field.
Qed.

(** The simulation of one edge at zero angles: half of the labels cut it. *)
Lemma simulation_single_edge_zero :
  QaoaCore.run_ma_qaoa_simulation [0; 0; 0] 1 single_edge_cuts
    (get_neighbour_labelings 2) (get_all_binary_labelings 2) None
  = Ok (1 / 2).
Proof.
  rewrite (run_simulation_gather 1 4 2).
  - f_equal.
    rewrite (evolve_zero 1 4 2)
      by (try exact single_edge_cuts_valid; try reflexivity; repeat constructor).
    exact uniform_cut_expectation.
  - exact single_edge_cuts_valid.
  - exact (provider_tables_valid 2).
  - lia.
  - vm_compute. lia.
  - simpl. repeat constructor.
Qed.

Lemma Cexp_phase (gamma c : R) :
  Cexp (Cmul (Cmul (Copp Ci) (RtoC gamma)) (RtoC c))
  = mkC (cos (gamma * c)) (- sin (gamma * c)).
Proof.
  assert (Hz : Cmul (Cmul (Copp Ci) (RtoC gamma)) (RtoC c)
               = mkC 0 (- (gamma * c))) by Cring.
  rewrite Hz. unfold Cexp. simpl.
  rewrite exp_0, cos_neg, sin_neg. Cring.
Qed.

(** With weight 1 the two paths agree on one edge, at every angle vector:
    both give [1/2 + sin(gamma) sin(2 beta_0 + 2 beta_1) / 2], written as the
    closed form writes it. *)
Lemma unit_edge_closed_form_equals_simulation (g b0 b1 : R) :
  let value :=
    1 / 2 + 1 / 2 * sin g
            * (sin (2 * b0) * cos (2 * b1) + cos (2 * b0) * sin (2 * b1)) in
  (QaoaCore.run_ma_qaoa_analytical_p1 [g; b0; b1] (single_edge 1) None).1
  = Ok value
  /\ QaoaCore.run_ma_qaoa_simulation [g; b0; b1] 1 single_edge_cuts
       (get_neighbour_labelings 2) (get_all_binary_labelings 2) None
     = Ok value.
Proof.
  intros value. split.
  - unfold QaoaCore.run_ma_qaoa_analytical_p1.
    rewrite analytical_single_edge. simpl. f_equal.
    unfold value, Rprod. simpl. rewrite Rmult_1_r. ring.
  - rewrite (run_simulation_gather 1 4 2);
      [| exact single_edge_cuts_valid | exact (provider_tables_valid 2) | lia
       | vm_compute; lia | simpl; repeat constructor ].
    f_equal.
    change (per_layer [g; b0; b1] 1) with 3%nat.
    change (Z.to_nat 1) with 1%nat.
    unfold evolve, layer, layer_gammas, layer_betas, slice, phases, mix,
      single_edge_cuts. simpl.
    rewrite !Cexp_phase.
    unfold gate. simpl. unfold entry. simpl.
    unfold expectation, column_sums, Csum. simpl.
    rewrite Rmult_0_r, Rmult_1_r, cos_0, sin_0.
    unfold value. rewrite !sin_2a, !cos_2a.
    assert (Hsq : sqrt (1 + 1 + 1 + 1) * sqrt (1 + 1 + 1 + 1) = 1 + 1 + 1 + 1)
      by (apply sqrt_sqrt; lra).
    assert (Hne : sqrt (1 + 1 + 1 + 1) <> 0).
    { intros H0. rewrite H0 in Hsq. lra. }
    set (s := sqrt (1 + 1 + 1 + 1)) in *.
    generalize (sin2_cos2 g) (sin2_cos2 b0) (sin2_cos2 b1). unfold Rsqr.
    generalize (sin g) (cos g) (sin b0) (cos b0) (sin b1) (cos b1).
    intros sg cg s0 c0 s1 c1 Hg H0 H1.
    field_simplify_eq; [|exact Hne].
    replace (s ^ 2) with 4 by (simpl; rewrite Rmult_1_r, Hsq; ring).
    assert (Hg2 : cg ^ 2 = 1 - sg ^ 2) by (simpl; rewrite !Rmult_1_r; lra).
    assert (H02 : c0 ^ 2 = 1 - s0 ^ 2) by (simpl; rewrite !Rmult_1_r; lra).
    assert (H12 : c1 ^ 2 = 1 - s1 ^ 2) by (simpl; rewrite !Rmult_1_r; lra).
    rewrite ?Hg2, ?H02, ?H12. ring.
Qed.

(** C1 (the code at the failing input): on one edge of weight 2 with all
    angles zero, the closed form returns 1 and the simulation over the tables
    the driver builds returns 1/2, in the multi-angle layout and in the
    standard layout alike. *)
Theorem weighted_edge_closed_form_differs_from_simulation :
  exists t a b,
    QaoaCore.preprocessing (single_edge 2) None = Ok t
    /\ (QaoaCore.run_ma_qaoa_analytical_p1 [0; 0; 0] (single_edge 2) None).1 = Ok a
    /\ QaoaCore.run_ma_qaoa_simulation [0; 0; 0] 1 (QaoaCore.all_cuv_vals t)
         (QaoaCore.neighbours t) (QaoaCore.all_labelings t) (QaoaCore.edge_inds t)
       = Ok b
    /\ (QaoaCore.run_qaoa_analytical_p1 [0; 0] (single_edge 2) None).1 = Ok a
    /\ QaoaCore.run_qaoa_simulation [0; 0] 1 (QaoaCore.all_cuv_vals t)
         (QaoaCore.neighbours t) (QaoaCore.all_labelings t) (QaoaCore.edge_inds t)
       = Ok b
    /\ a = 1 /\ b = 1 / 2 /\ Rabs (a - b) > 1e-9.
Proof.
  eexists. eexists. exists (1 / 2).
  split; [apply preprocessing_single_edge|]. simpl.
  split; [unfold QaoaCore.run_ma_qaoa_analytical_p1;
          rewrite analytical_single_edge; reflexivity|].
  split; [exact simulation_single_edge_zero|].
  split; [unfold QaoaCore.run_qaoa_analytical_p1, QaoaCore.run_ma_qaoa_analytical_p1;
          simpl; rewrite analytical_single_edge; reflexivity|].
  split; [unfold QaoaCore.run_qaoa_simulation; simpl;
          exact simulation_single_edge_zero|].
  split; [rewrite Rmult_0_l, sin_0; lra|].
  split; [reflexivity|].
  rewrite Rmult_0_l, sin_0.
  rewrite Rabs_right; lra.
Qed.

(** ** The length of the angle vector *)

(** C3 (as stated, refuted): with one term and two qubits, three angles per
    layer are expected; four angles at [p = 1], and seven angles at [p = 2]
    (not divisible by [p]), are accepted and a value is returned. *)
Lemma simulation_accepts_other_lengths :
  length [0; 0; 0; 0] <> ((1 + 2) * 1)%nat
  /\ QaoaCore.run_ma_qaoa_simulation [0; 0; 0; 0] 1 single_edge_cuts
       (get_neighbour_labelings 2) (get_all_binary_labelings 2) None
     = Ok (1 / 2)
  /\ (Z.of_nat (length (replicate 7 0)) mod 2 <> 0)%Z
  /\ QaoaCore.run_ma_qaoa_simulation (replicate 7 0) 2 single_edge_cuts
       (get_neighbour_labelings 2) (get_all_binary_labelings 2) None
     = Ok (1 / 2).
Proof.
  split; [simpl; lia|]. split; [|split; [vm_compute; discriminate|]].
  - rewrite (run_simulation_gather 1 4 2).
    + f_equal.
      rewrite (evolve_zero 1 4 2)
        by (try exact single_edge_cuts_valid; try reflexivity; repeat constructor).
      exact uniform_cut_expectation.
    + exact single_edge_cuts_valid.
    + exact (provider_tables_valid 2).
    + lia.
    + vm_compute. lia.
    + simpl. repeat constructor.
  - rewrite (run_simulation_gather 1 4 2).
    + f_equal.
      rewrite (evolve_zero 1 4 2)
        by (try exact single_edge_cuts_valid; try reflexivity; repeat constructor).
      exact uniform_cut_expectation.
    + exact single_edge_cuts_valid.
    + exact (provider_tables_valid 2).
    + lia.
    + vm_compute. lia.
    + simpl. repeat constructor.
Qed.

(** C3 (amended): the simulation does not check the length of the angle
    vector.  For [p >= 1] and valid tables, whenever each of the [p] slices
    of [int(len(angles) / p)] angles holds at least [E + n] angles, the call
    returns a value, and it is the value for the vector of exactly
    [(E + n) * p] angles made of the first [E + n] angles of every slice:
    the other angles are ignored without an error. *)
Theorem simulation_ignores_surplus_angles (E N n : nat)
    (all_cuv_vals : list (list R)) (neighbours basis_bin : list (list nat))
    (angles : list R) (p : Z) (edge_inds : option (list nat)) :
  valid_terms E N all_cuv_vals ->
  valid_tables N n neighbours basis_bin ->
  (1 <= p)%Z ->
  (E + n <= per_layer angles p)%nat ->
  Forall (fun i => (i < E)%nat) (default (seq 0 E) edge_inds) ->
  let used := used_angles angles (per_layer angles p) (E + n) (Z.to_nat p) in
  length used = ((E + n) * Z.to_nat p)%nat
  /\ exists value,
       QaoaCore.run_ma_qaoa_simulation angles p all_cuv_vals neighbours
                                       basis_bin edge_inds = Ok value
       /\ QaoaCore.run_ma_qaoa_simulation used p all_cuv_vals neighbours
                                          basis_bin edge_inds = Ok value.
Proof.
  intros Hterms Hvalid Hp HL Hinds used.
  assert (Hfit : (Z.to_nat p * per_layer angles p <= length angles)%nat)
    by (apply per_layer_fits; [exact Hp | lia]).
  assert (Hlen : length used = ((E + n) * Z.to_nat p)%nat)
    by (apply (used_angles_length E n angles _ _ HL Hfit)).
  assert (Hper : per_layer used p = (E + n)%nat)
    by (apply per_layer_exact; [exact Hp | exact Hlen]).
  split; [exact Hlen|].
  eexists. split.
  - apply (run_simulation_gather E N n); assumption.
  - rewrite (run_simulation_gather E N n) by (try assumption; rewrite Hper; lia).
    rewrite Hper. unfold used.
    rewrite (evolve_used E N n all_cuv_vals neighbours Hterms angles _ _ HL Hfit)
      by lia.
    reflexivity.
Qed.

Lemma simulation_ignores_surplus_angles_witness :
  length (used_angles [0; 0; 0; 0] (per_layer [0; 0; 0; 0] 1) (1 + 2) (Z.to_nat 1))
  = ((1 + 2) * Z.to_nat 1)%nat
  /\ exists value,
       QaoaCore.run_ma_qaoa_simulation [0; 0; 0; 0] 1 single_edge_cuts
         (get_neighbour_labelings 2) (get_all_binary_labelings 2) None = Ok value
       /\ QaoaCore.run_ma_qaoa_simulation
            (used_angles [0; 0; 0; 0] (per_layer [0; 0; 0; 0] 1) (1 + 2) (Z.to_nat 1))
            1 single_edge_cuts
            (get_neighbour_labelings 2) (get_all_binary_labelings 2) None = Ok value.
Proof.
  apply (simulation_ignores_surplus_angles 1 4 2).
  - exact single_edge_cuts_valid.
  - exact (provider_tables_valid 2).
  - lia.
  - vm_compute. lia.
  - simpl. repeat constructor.
Defined.

(** * Further properties of the code *)

(** ** The state evolution engine *)

Lemma index2_square (u00 u01 u10 u11 : C) (a b : nat) :
  (a <= 1)%nat -> (b <= 1)%nat ->
  index2 [ [u00; u01]; [u10; u11] ] a b
  = Ok (nth b (nth a [ [u00; u01]; [u10; u11] ] []) C0).
Proof.
  intros Ha Hb.
  destruct a as [|[|a]]; [| |lia]; (destruct b as [|[|b]]; [| |lia]); reflexivity.
Qed.

Section AnyOneQubitMatrix.
Variables u00 u01 u10 u11 : C.
Variable psi : list C.
Variables nb tv : list nat.
Variable N : nat.
Hypothesis Hpsi : length psi = N.
Hypothesis Hnb : length nb = N.
Hypothesis Htv : length tv = N.
Hypothesis Hrange : forall i, (i < N)%nat -> (nth i nb 0 < N)%nat.
Hypothesis Hinv : forall i, (i < N)%nat -> nth (nth i nb 0%nat) nb 0%nat = i.
Hypothesis Hbit : forall i, (i < N)%nat -> (nth i tv 0 <= 1)%nat.

Local Abbreviation unitary := [ [u00; u01]; [u10; u11] ].
Local Abbreviation u := (fun a b : nat => nth b (nth a unitary []) C0).
Local Abbreviation same := (fun i : nat => u (nth i tv 0%nat) (nth i tv 0%nat)).
Local Abbreviation cross :=
  (fun i : nat => u (1 - nth i tv 0%nat)%nat (nth i tv 0%nat)).

Lemma any_step_value (res : list C) (k : nat) :
  (k < N)%nat -> length res = N ->
  QaoaCore.one_qubit_step unitary psi nb tv res k
  = Ok (<[ nth k nb 0%nat :=
             Cadd (nth (nth k nb 0%nat)
                       (<[ k := Cadd (nth k res C0) (Cmul (nth k psi C0) (same k)) ]> res)
                       C0)
                  (Cmul (nth k psi C0) (cross k)) ]>
          (<[ k := Cadd (nth k res C0) (Cmul (nth k psi C0) (same k)) ]> res)).
Proof.
  intros Hk Hres. unfold QaoaCore.one_qubit_step, QaoaCore.add_at.
  assert (Ht := Hbit k Hk).
  rewrite (index_lt psi k C0) by lia. simpl bind.
  rewrite (index_lt tv k 0%nat) by lia. simpl bind.
  rewrite index2_square by lia. simpl bind.
  rewrite (index_lt res k C0) by lia. simpl bind.
  rewrite (index_lt nb k 0%nat) by lia. simpl bind.
  rewrite index2_square by lia. simpl bind.
  rewrite (index_lt _ (nth k nb 0%nat) C0)
    by (rewrite length_insert, Hres; apply Hrange; exact Hk).
  reflexivity.
Qed.

Lemma any_prefix (k : nat) :
  (k <= N)%nat ->
  exists res,
    foldM (QaoaCore.one_qubit_step unitary psi nb tv) (seq 0 k) (replicate N C0)
    = Ok res
    /\ length res = N
    /\ forall j, (j < N)%nat ->
         nth j res C0
         = Cadd (if (j <? k)%nat then Cmul (nth j psi C0) (same j) else C0)
                (if (nth j nb 0 <? k)%nat
                 then Cmul (nth (nth j nb 0%nat) psi C0) (cross (nth j nb 0%nat))
                 else C0).
Proof.
  induction k as [|k IH]; intros Hk.
  - exists (replicate N C0). split; [reflexivity|]. split; [apply length_replicate|].
    intros j Hj. simpl. rewrite nth_lookup, lookup_replicate_2 by exact Hj.
    simpl. Cring.
  - destruct IH as (res & Hrun & Hlen & Hval); [lia|].
    rewrite seq_S, foldM_app, Hrun. simpl bind. simpl foldM.
    rewrite any_step_value by (try lia; exact Hlen). simpl bind.
    eexists. split; [reflexivity|]. split; [rewrite !length_insert; exact Hlen|].
    intros j Hj.
    assert (Hnk : (nth k nb 0 < N)%nat) by (apply Hrange; lia).
    rewrite nth_insert by (rewrite length_insert, Hlen; exact Hnk).
    rewrite !nth_insert by (rewrite Hlen; lia).
    rewrite !Hval by lia.
    destruct (decide (j = nth k nb 0%nat)) as [Hjn|Hjn].
    + assert (Hnj : nth j nb 0%nat = k) by (rewrite Hjn; apply Hinv; lia).
      rewrite <- !Hjn. rewrite !Hnj.
      destruct (decide (j = k)) as [Hjk|Hjk]; [rewrite !Hjk|];
        repeat match goal with
               | |- context [(?a <? ?b)%nat] => destruct (Nat.ltb_spec a b)
               end; try lia; Cring.
    + assert (Hnj : nth j nb 0%nat <> k).
      { intros Heq. apply Hjn. rewrite <- Heq. symmetry. apply Hinv. exact Hj. }
      destruct (decide (j = k)) as [Hjk|Hjk]; [subst j|];
        repeat match goal with
               | |- context [(?a <? ?b)%nat] => destruct (Nat.ltb_spec a b)
               end; try lia; Cring.
Qed.
End AnyOneQubitMatrix.

(** X1: [apply_unitary_one_qubit] applies the 2x2 matrix to the target qubit.
    For any matrix [[u00, u01], [u10, u11]], a neighbour column that is an
    involution of the labels and a bit column consistent with it, the
    scatter loop returns, at every label [j] with target bit [t], the entry
    [U[t, t] psi[j] + U[t, 1 - t] psi[flip j]]. *)
Theorem one_qubit_matrix_applied (u00 u01 u10 u11 : C) (psi : list C)
    (nb tv : list nat) (N : nat) :
  length psi = N -> length nb = N -> length tv = N ->
  (forall i, (i < N)%nat -> (nth i nb 0 < N)%nat) ->
  (forall i, (i < N)%nat -> nth (nth i nb 0%nat) nb 0%nat = i) ->
  (forall i, (i < N)%nat -> (nth i tv 0 <= 1)%nat) ->
  (forall i, (i < N)%nat -> nth (nth i nb 0%nat) tv 0%nat = (1 - nth i tv 0)%nat) ->
  exists res,
    QaoaCore.apply_unitary_one_qubit [ [u00; u01]; [u10; u11] ] psi nb tv = Ok res
    /\ length res = N
    /\ forall j, (j < N)%nat ->
         let t := nth j tv 0%nat in
         let U := fun a b : nat => nth b (nth a [ [u00; u01]; [u10; u11] ] []) C0 in
         nth j res C0
         = Cadd (Cmul (nth j psi C0) (U t t))
                (Cmul (nth (nth j nb 0%nat) psi C0) (U t (1 - t)%nat)).
Proof.
  intros Hpsi Hnb Htv Hrange Hinv Hbit Hflip.
  unfold QaoaCore.apply_unitary_one_qubit. rewrite Hpsi.
  destruct (any_prefix u00 u01 u10 u11 psi nb tv N Hpsi Hnb Htv Hrange Hinv Hbit N)
    as (res & Hrun & Hlen & Hval); [lia|].
  exists res. split; [exact Hrun|]. split; [exact Hlen|].
  intros j Hj. cbv zeta. rewrite Hval by exact Hj.
  rewrite (proj2 (Nat.ltb_lt j N)) by exact Hj.
  rewrite (proj2 (Nat.ltb_lt (nth j nb 0%nat) N)) by (apply Hrange; exact Hj).
  rewrite (Hflip j Hj).
  assert (Ht : (nth j tv 0 <= 1)%nat) by (apply Hbit; exact Hj).
  replace (1 - (1 - nth j tv 0))%nat with (nth j tv 0%nat) by lia. reflexivity.
Qed.

Lemma one_qubit_matrix_applied_witness :
  exists res,
    QaoaCore.apply_unitary_one_qubit [ [C0; C1]; [C1; C0] ] [C1; C0]
      [1%nat; 0%nat] [0%nat; 1%nat] = Ok res
    /\ length res = 2%nat
    /\ forall j, (j < 2)%nat ->
         let t := nth j [0%nat; 1%nat] 0%nat in
         let U := fun a b : nat => nth b (nth a [ [C0; C1]; [C1; C0] ] []) C0 in
         nth j res C0
         = Cadd (Cmul (nth j [C1; C0] C0) (U t t))
                (Cmul (nth (nth j [1%nat; 0%nat] 0%nat) [C1; C0] C0)
                      (U t (1 - t)%nat)).
Proof.
  apply (one_qubit_matrix_applied C0 C1 C1 C0 [C1; C0] [1%nat; 0%nat]
           [0%nat; 1%nat] 2); try reflexivity;
    intros [|[|i]] Hi; simpl; lia.
Defined.

Lemma nth_phase_modulus (ph psi : list C) (j : nat) :
  length ph = length psi -> Forall (fun z => Cnorm2 z = 1) ph ->
  Cnorm2 (nth j (zip_with Cmul ph psi) C0) = Cnorm2 (nth j psi C0).
Proof.
  revert ph j. induction psi as [|z psi IH]; intros ph j Hph Hunit.
  - destruct ph; [|discriminate]. reflexivity.
  - destruct ph as [|w ph]; [discriminate|].
    inversion Hunit as [|? ? Hw Hrest]; subst.
    destruct j as [|j]; simpl.
    + rewrite Cnorm2_mul, Hw. ring.
    + apply IH; [simpl in Hph; lia | exact Hrest].
Qed.

(** X2: the cost layer [apply_uc] multiplies every amplitude by a phase: the
    vector keeps its length and every amplitude keeps its modulus, whatever
    the angles and the (real) term values. *)
Theorem cost_layer_keeps_moduli (all_cuv_vals : list (list R))
    (gammas : list R) (psi : list C) (N : nat) :
  (0 < N)%nat -> length psi = N ->
  Forall (fun row => length row = N) all_cuv_vals ->
  (length gammas <= length all_cuv_vals)%nat ->
  exists psi',
    QaoaCore.apply_uc all_cuv_vals gammas psi = Ok psi'
    /\ length psi' = N
    /\ forall j, Cnorm2 (nth j psi' C0) = Cnorm2 (nth j psi C0).
Proof.
  intros HN Hpsi Hrows Hlen.
  rewrite (apply_uc_gather _ _ _ N) by assumption.
  eexists. split; [reflexivity|].
  assert (Hph := phases_length all_cuv_vals gammas N Hrows).
  split; [rewrite length_zip_with; lia|].
  intros j. apply nth_phase_modulus; [lia | apply phases_unit].
Qed.

Lemma cost_layer_keeps_moduli_witness :
  exists psi',
    QaoaCore.apply_uc single_edge_cuts [1] (QaoaCore.uniform_state 4) = Ok psi'
    /\ length psi' = 4%nat
    /\ forall j, Cnorm2 (nth j psi' C0)
                 = Cnorm2 (nth j (QaoaCore.uniform_state 4) C0).
Proof.
  apply (cost_layer_keeps_moduli single_edge_cuts [1] (QaoaCore.uniform_state 4) 4).
  - lia.
  - reflexivity.
  - repeat constructor.
  - simpl; lia.
Defined.

(** More angles than rows of the term table: the row lookup fails. *)
Lemma mapM_index_overrun {A B D : Type} (h : A -> B -> D) (l : list A) (m : list B) :
  (length m < length l)%nat ->
  mapM (fun i => try! a := index l i in try! b := index m i in Ok (h a b))
       (seq 0 (length l))
  = Raise IndexError.
Proof.
  revert m. induction l as [|a l IH]; intros m Hlen; [simpl in Hlen; lia|].
  simpl length. rewrite <- cons_seq, <- seq_shift. simpl.
  destruct m as [|b m]; [reflexivity|]. simpl.
  rewrite mapM_map.
  rewrite (mapM_ext _ (fun i => try! a0 := index l i in
                                try! b0 := index m i in Ok (h a0 b0)))
    by (intros i _; reflexivity).
  rewrite (IH m) by (simpl in Hlen; lia). reflexivity.
Qed.

(** X3: with more angles than the term table has rows, [apply_uc] raises
    [IndexError], whatever the state vector. *)
Theorem cost_layer_rejects_surplus_gammas (all_cuv_vals : list (list R))
    (gammas : list R) (psi : list C) :
  (length all_cuv_vals < length gammas)%nat ->
  QaoaCore.apply_uc all_cuv_vals gammas psi = Raise IndexError.
Proof.
  intros Hlen. unfold QaoaCore.apply_uc.
  rewrite (mapM_index_overrun QaoaCore.uc_factor gammas all_cuv_vals Hlen).
  reflexivity.
Qed.

Lemma cost_layer_rejects_surplus_gammas_witness :
  QaoaCore.apply_uc single_edge_cuts [1; 2] (QaoaCore.uniform_state 4)
  = Raise IndexError.
Proof.
  apply (cost_layer_rejects_surplus_gammas single_edge_cuts [1; 2]).
  simpl; lia.
Defined.

(** Two rotations of the same qubit add their angles. *)
Lemma gate_add (a b : R) (f : nat -> nat) (psi : list C) :
  (forall j, (j < length psi)%nat -> (f j < length psi)%nat) ->
  (forall j, (j < length psi)%nat -> f (f j) = j) ->
  gate b f (gate a f psi) = gate (a + b) f psi.
Proof.
  intros Hf Hinv.
  apply (nth_ext _ _ C0 C0); [rewrite !length_gate; reflexivity|].
  intros j Hj. rewrite !length_gate in Hj.
  repeat (rewrite nth_gate by (rewrite ?length_gate; auto)).
  rewrite (Hinv j Hj), cos_plus, sin_plus. Cring.
Qed.

Lemma mix_add (N n : nat) (neighbours basis_bin : list (list nat))
    (betas1 betas2 : list R) (k : nat) (psi : list C) :
  valid_tables N n neighbours basis_bin -> length psi = N -> (k <= n)%nat ->
  (n <= length betas1)%nat -> (n <= length betas2)%nat ->
  mix neighbours betas2 (seq 0 k) (mix neighbours betas1 (seq 0 k) psi)
  = mix neighbours (zip_with Rplus betas1 betas2) (seq 0 k) psi.
Proof.
  intros Hvalid Hpsi Hk H1 H2. induction k as [|k IH]; [reflexivity|].
  rewrite seq_S, !mix_snoc. change (0 + k)%nat with k.
  rewrite <- (gate_mix_comm N n _ basis_bin Hvalid)
    by (try lia; rewrite length_mix; exact Hpsi).
  rewrite IH by lia.
  assert (Hsum : nth k (zip_with Rplus betas1 betas2) 0
                 = nth k betas1 0 + nth k betas2 0).
  { rewrite !nth_lookup, lookup_zip_with.
    destruct (lookup_lt_is_Some_2 betas1 k ltac:(lia)) as [x1 ->].
    destruct (lookup_lt_is_Some_2 betas2 k ltac:(lia)) as [x2 ->].
    reflexivity. }
  rewrite Hsum. apply gate_add.
  - intros j Hj. rewrite length_mix, Hpsi in *.
    apply (vt_range _ _ _ _ Hvalid); lia.
  - intros j Hj. rewrite length_mix, Hpsi in Hj.
    apply (vt_invol _ _ _ _ Hvalid); lia.
Qed.

(** X4: two mixer layers in a row are one mixer layer with the angles added
    qubit by qubit: [apply_ub_individual(b2, apply_ub_individual(b1, psi))]
    equals [apply_ub_individual(b1 + b2, psi)], for valid tables. *)
Theorem mixer_layers_add_their_angles (N n : nat)
    (neighbours basis_bin : list (list nat)) (betas1 betas2 : list R)
    (psi : list C) :
  valid_tables N n neighbours basis_bin ->
  length psi = N ->
  (n <= length betas1)%nat -> (n <= length betas2)%nat ->
  exists psi1 psi2,
    QaoaCore.apply_ub_individual betas1 psi neighbours basis_bin = Ok psi1
    /\ QaoaCore.apply_ub_individual betas2 psi1 neighbours basis_bin = Ok psi2
    /\ QaoaCore.apply_ub_individual (zip_with Rplus betas1 betas2) psi
         neighbours basis_bin = Ok psi2.
Proof.
  intros Hvalid Hpsi H1 H2.
  exists (mix neighbours betas1 (seq 0 n) psi).
  exists (mix neighbours (zip_with Rplus betas1 betas2) (seq 0 n) psi).
  split; [apply (apply_ub_individual_gather N n); assumption|].
  split.
  - rewrite (apply_ub_individual_gather N n _ _ Hvalid)
      by (try assumption; rewrite length_mix; exact Hpsi).
    f_equal. apply (mix_add N n _ basis_bin); try assumption. lia.
  - apply (apply_ub_individual_gather N n); try assumption.
    rewrite length_zip_with. lia.
Qed.

Lemma mixer_layers_add_their_angles_witness :
  exists psi1 psi2,
    QaoaCore.apply_ub_individual [1; 2] (QaoaCore.uniform_state 4)
      (get_neighbour_labelings 2) (get_all_binary_labelings 2) = Ok psi1
    /\ QaoaCore.apply_ub_individual [3; 4] psi1
         (get_neighbour_labelings 2) (get_all_binary_labelings 2) = Ok psi2
    /\ QaoaCore.apply_ub_individual (zip_with Rplus [1; 2] [3; 4])
         (QaoaCore.uniform_state 4)
         (get_neighbour_labelings 2) (get_all_binary_labelings 2) = Ok psi2.
Proof.
  apply (mixer_layers_add_their_angles 4 2).
  - exact (provider_tables_valid 2).
  - reflexivity.
  - simpl; lia.
  - simpl; lia.
Defined.

(** ** The expectation value as a weighted sum *)

Lemma Re_fold_Cadd (l : list C) (a : C) :
  Re (fold_left Cadd l a) = Re a + Rsum (map Re l).
Proof.
  revert a. induction l as [|z l IH]; intros a; simpl.
  - rewrite Rsum_nil. lra.
  - rewrite IH, Rsum_cons. simpl. lra.
Qed.

Lemma expectation_zip (psi : list C) (diag : list R) :
  expectation psi diag = Rsum (zip_with (fun d z => d * Cnorm2 z) diag psi).
Proof.
  unfold expectation, Csum. rewrite Re_fold_Cadd. simpl. rewrite Rplus_0_l.
  f_equal. revert diag. induction psi as [|z psi IH]; intros [|d diag];
    simpl; try reflexivity.
  rewrite IH. f_equal. unfold Cnorm2. ring.
Qed.

Lemma zip_with_indices {A B D : Type} (h : A -> B -> D) (l : list A)
    (m : list B) (a : A) (b : B) :
  length l = length m ->
  zip_with h l m = map (fun j => h (nth j l a) (nth j m b)) (seq 0 (length m)).
Proof.
  revert m. induction l as [|x l IH]; intros [|y m] Hlen; simpl in *;
    try discriminate; [reflexivity|].
  f_equal. rewrite <- seq_shift, map_map. apply IH. lia.
Qed.

(** [Re <psi| D |psi>] is the sum over the labels of the diagonal entry times
    the squared modulus of the amplitude. *)
Lemma expectation_indices (psi : list C) (diag : list R) :
  length diag = length psi ->
  expectation psi diag
  = Rsum (map (fun j => nth j diag 0 * Cnorm2 (nth j psi C0))
              (seq 0 (length psi))).
Proof.
  intros Hlen. rewrite expectation_zip.
  rewrite (zip_with_indices _ diag psi 0 C0 Hlen). reflexivity.
Qed.

Lemma Rsum_map_le {A : Type} (f g : A -> R) (l : list A) :
  (forall a, In a l -> f a <= g a) -> Rsum (map f l) <= Rsum (map g l).
Proof.
  induction l as [|a l IH]; intros H; simpl.
  - rewrite Rsum_nil. lra.
  - rewrite !Rsum_cons.
    assert (f a <= g a) by (apply H; left; reflexivity).
    assert (Rsum (map f l) <= Rsum (map g l))
      by (apply IH; intros; apply H; right; assumption).
    lra.
Qed.

Lemma Cnorm2_nonneg (z : C) : 0 <= Cnorm2 z.
Proof. unfold Cnorm2. nra. Qed.

(** A state of norm 1 gives an expectation between the smallest and the
    largest diagonal entry. *)
Lemma expectation_between (psi : list C) (diag : list R) (lo hi : R) :
  length diag = length psi -> norm2 psi = 1 ->
  (forall j, (j < length psi)%nat -> lo <= nth j diag 0 <= hi) ->
  lo <= expectation psi diag <= hi.
Proof.
  intros Hlen Hnorm Hd. rewrite expectation_indices by exact Hlen.
  rewrite norm2_indices in Hnorm.
  assert (Hlo : Rsum (map (fun j => lo * Cnorm2 (nth j psi C0))
                          (seq 0 (length psi))) = lo)
    by (rewrite Rsum_map_scal, Hnorm; ring).
  assert (Hhi : Rsum (map (fun j => hi * Cnorm2 (nth j psi C0))
                          (seq 0 (length psi))) = hi)
    by (rewrite Rsum_map_scal, Hnorm; ring).
  split.
  - rewrite <- Hlo at 1. apply Rsum_map_le. intros j Hj.
    apply in_seq in Hj. pose proof (Hd j ltac:(lia)).
    pose proof (Cnorm2_nonneg (nth j psi C0)). nra.
  - rewrite <- Hhi at 1. apply Rsum_map_le. intros j Hj.
    apply in_seq in Hj. pose proof (Hd j ltac:(lia)).
    pose proof (Cnorm2_nonneg (nth j psi C0)). nra.
Qed.

(** ** The column sums, entry by entry *)

Lemma nth_zip_with_plus (l m : list R) (j : nat) :
  (j < length l)%nat -> (j < length m)%nat ->
  nth j (zip_with Rplus l m) 0 = nth j l 0 + nth j m 0.
Proof.
  intros Hl Hm. rewrite !nth_lookup, lookup_zip_with.
  destruct (lookup_lt_is_Some_2 l j Hl) as [x ->].
  destruct (lookup_lt_is_Some_2 m j Hm) as [y ->]. reflexivity.
Qed.

Lemma nth_fold_zip_plus (rows : list (list R)) (acc : list R) (N j : nat) :
  Forall (fun row => length row = N) rows -> length acc = N -> (j < N)%nat ->
  nth j (fold_left (zip_with Rplus) rows acc) 0
  = nth j acc 0 + Rsum (map (fun row => nth j row 0) rows).
Proof.
  intros Hrows. revert acc. induction Hrows as [|row rows Hrow _ IH];
    intros acc Hacc Hj; simpl.
  - rewrite Rsum_nil. lra.
  - rewrite IH by (rewrite ?length_zip_with; lia).
    rewrite Rsum_cons.
    rewrite nth_zip_with_plus by lia. lra.
Qed.

Lemma nth_column_sums (all_cuv_vals : list (list R)) (inds : list nat)
    (N j : nat) :
  Forall (fun row => length row = N) all_cuv_vals ->
  Forall (fun i => (i < length all_cuv_vals)%nat) inds -> (j < N)%nat ->
  nth j (column_sums all_cuv_vals inds N) 0
  = Rsum (map (fun i => nth j (nth i all_cuv_vals []) 0) inds).
Proof.
  intros Hrows Hinds Hj. unfold column_sums.
  assert (Hsel : Forall (fun row => length row = N)
                        (map (fun i => nth i all_cuv_vals []) inds)).
  { apply Forall_map. eapply Forall_impl; [exact Hinds|].
    intros i Hi. simpl. rewrite (Forall_nth _ []) in Hrows. apply Hrows, Hi. }
  rewrite (nth_fold_zip_plus _ _ N j Hsel (length_replicate _ _) Hj).
  rewrite map_map.
  rewrite nth_lookup, lookup_replicate_2 by exact Hj. simpl. lra.
Qed.

Lemma Rsum_between {A : Type} (f : A -> R) (l : list A) (lo hi : R) :
  (forall a, In a l -> lo <= f a <= hi) ->
  INR (length l) * lo <= Rsum (map f l) <= INR (length l) * hi.
Proof.
  induction l as [|a l IH]; intros H.
  - simpl. rewrite Rsum_nil. lra.
  - change (length (a :: l)) with (S (length l)). rewrite S_INR.
    simpl map. rewrite Rsum_cons.
    pose proof (H a ltac:(left; reflexivity)).
    pose proof (IH ltac:(intros; apply H; right; assumption)). lra.
Qed.

Lemma entry_between (all_cuv_vals : list (list R)) (N i j : nat) (lo hi : R) :
  Forall (fun row => length row = N) all_cuv_vals ->
  Forall (Forall (fun c => lo <= c <= hi)) all_cuv_vals ->
  (i < length all_cuv_vals)%nat -> (j < N)%nat ->
  lo <= nth j (nth i all_cuv_vals []) 0 <= hi.
Proof.
  intros Hrows Hall Hi Hj.
  pose proof (proj1 (Forall_nth _ [] _) Hrows i Hi) as Hlen.
  pose proof (proj1 (Forall_nth _ [] _) Hall i Hi) as Hrow.
  simpl in Hlen, Hrow.
  apply (proj1 (Forall_nth _ 0 _) Hrow). rewrite Hlen. exact Hj.
Qed.

(** X5: the simulated expectation lies between the number of selected terms
    times the smallest table entry and that number times the largest one;
    for a table of cut indicators (entries between 0 and 1) it lies between
    0 and the number of selected edges. *)
Theorem simulation_value_within_table_range (E N n : nat)
    (all_cuv_vals : list (list R)) (neighbours basis_bin : list (list nat))
    (angles : list R) (p : Z) (edge_inds : option (list nat)) (lo hi : R) :
  valid_terms E N all_cuv_vals -> valid_tables N n neighbours basis_bin ->
  (1 <= p)%Z -> (E + n <= per_layer angles p)%nat ->
  Forall (fun i => (i < E)%nat) (default (seq 0 E) edge_inds) ->
  Forall (Forall (fun c => lo <= c <= hi)) all_cuv_vals ->
  exists value,
    QaoaCore.run_ma_qaoa_simulation angles p all_cuv_vals neighbours basis_bin
                                    edge_inds = Ok value
    /\ INR (length (default (seq 0 E) edge_inds)) * lo <= value
       <= INR (length (default (seq 0 E) edge_inds)) * hi.
Proof.
  intros Hterms Hvalid Hp HL Hinds Hall.
  rewrite (run_simulation_gather E N n) by assumption.
  eexists; split; [reflexivity|].
  pose proof (terms_rows E N _ Hterms) as Hrows.
  assert (HE : length all_cuv_vals = E) by (destruct Hterms as (_ & H & _); exact H).
  assert (Hlen : length (evolve all_cuv_vals neighbours n angles
                           (per_layer angles p) (Z.to_nat p)
                           (QaoaCore.uniform_state N)) = N)
    by (apply (length_evolve E N n); [exact Hterms | apply length_replicate]).
  apply expectation_between.
  - rewrite Hlen. apply length_column_sums; [exact Hrows|]. rewrite HE. exact Hinds.
  - rewrite (norm2_evolve E N n _ neighbours basis_bin Hterms Hvalid)
      by apply length_replicate.
    apply norm2_uniform. exact (vt_pos _ _ _ _ Hvalid).
  - intros j Hj. rewrite Hlen in Hj.
    rewrite nth_column_sums; try assumption; [|rewrite HE; exact Hinds].
    apply Rsum_between. intros i Hi.
    apply (entry_between _ N); try assumption.
    rewrite HE. rewrite Forall_forall in Hinds.
    apply Hinds, list_elem_of_In, Hi.
Qed.

Lemma simulation_value_within_table_range_witness :
  exists value,
    QaoaCore.run_ma_qaoa_simulation [1; 2; 3] 1 single_edge_cuts
      (get_neighbour_labelings 2) (get_all_binary_labelings 2) None = Ok value
    /\ INR (length (default (seq 0 1) (@None (list nat)))) * 0 <= value
       <= INR (length (default (seq 0 1) (@None (list nat)))) * 1.
Proof.
  apply (simulation_value_within_table_range 1 4 2).
  - exact single_edge_cuts_valid.
  - exact (provider_tables_valid 2).
  - lia.
  - vm_compute. lia.
  - simpl. repeat constructor.
  - unfold single_edge_cuts. repeat constructor; lra.
Defined.

(** The value the simulation computes: the weighted sum over the labels of
    the column sums of the selected rows. *)
Lemma expectation_of_selection (all_cuv_vals : list (list R)) (inds : list nat)
    (N : nat) (psi : list C) :
  Forall (fun row => length row = N) all_cuv_vals ->
  Forall (fun i => (i < length all_cuv_vals)%nat) inds -> length psi = N ->
  expectation psi (column_sums all_cuv_vals inds N)
  = Rsum (map (fun j => Rsum (map (fun i => nth j (nth i all_cuv_vals []) 0) inds)
                        * Cnorm2 (nth j psi C0))
              (seq 0 N)).
Proof.
  intros Hrows Hinds Hpsi.
  rewrite expectation_indices by (rewrite length_column_sums; auto).
  rewrite Hpsi. apply Rsum_map_ext. intros j Hj. apply in_seq in Hj.
  rewrite nth_column_sums by (try assumption; lia). reflexivity.
Qed.

(** X6: the value adds over the selection of terms: for the concatenation of
    two index lists the simulation returns the sum of the values it returns
    for the two lists (so an index listed twice counts twice). *)
Theorem simulation_value_adds_over_selections (E N n : nat)
    (all_cuv_vals : list (list R)) (neighbours basis_bin : list (list nat))
    (angles : list R) (p : Z) (inds1 inds2 : list nat) :
  valid_terms E N all_cuv_vals -> valid_tables N n neighbours basis_bin ->
  (1 <= p)%Z -> (E + n <= per_layer angles p)%nat ->
  Forall (fun i => (i < E)%nat) inds1 -> Forall (fun i => (i < E)%nat) inds2 ->
  exists v1 v2,
    QaoaCore.run_ma_qaoa_simulation angles p all_cuv_vals neighbours basis_bin
                                    (Some inds1) = Ok v1
    /\ QaoaCore.run_ma_qaoa_simulation angles p all_cuv_vals neighbours basis_bin
                                       (Some inds2) = Ok v2
    /\ QaoaCore.run_ma_qaoa_simulation angles p all_cuv_vals neighbours basis_bin
                                       (Some (inds1 ++ inds2)) = Ok (v1 + v2).
Proof.
  intros Hterms Hvalid Hp HL H1 H2.
  assert (H12 : Forall (fun i => (i < E)%nat) (inds1 ++ inds2))
    by (apply Forall_app; split; assumption).
  rewrite !(run_simulation_gather E N n) by assumption. simpl.
  eexists; eexists; split; [reflexivity|]; split; [reflexivity|]. f_equal.
  pose proof (terms_rows E N _ Hterms) as Hrows.
  assert (HE : length all_cuv_vals = E) by (destruct Hterms as (_ & H & _); exact H).
  rewrite !(expectation_of_selection _ _ N)
    by first [ assumption | rewrite HE; assumption
             | apply (length_evolve E N n);
               [exact Hterms | apply length_replicate] ].
  rewrite <- Rsum_map_plus. apply Rsum_map_ext. intros j _.
  rewrite map_app, Rsum_app. ring.
Qed.

Lemma simulation_value_adds_over_selections_witness :
  exists v1 v2,
    QaoaCore.run_ma_qaoa_simulation [1; 2; 3] 1 single_edge_cuts
      (get_neighbour_labelings 2) (get_all_binary_labelings 2)
      (Some [0%nat]) = Ok v1
    /\ QaoaCore.run_ma_qaoa_simulation [1; 2; 3] 1 single_edge_cuts
         (get_neighbour_labelings 2) (get_all_binary_labelings 2)
         (Some [0%nat; 0%nat]) = Ok v2
    /\ QaoaCore.run_ma_qaoa_simulation [1; 2; 3] 1 single_edge_cuts
         (get_neighbour_labelings 2) (get_all_binary_labelings 2)
         (Some ([0%nat] ++ [0%nat; 0%nat])) = Ok (v1 + v2).
Proof.
  apply (simulation_value_adds_over_selections 1 4 2).
  - exact single_edge_cuts_valid.
  - exact (provider_tables_valid 2).
  - lia.
  - vm_compute. lia.
  - repeat constructor.
  - repeat constructor.
Defined.

(** ** The uniform state *)

Lemma Cnorm2_uniform_entry (N j : nat) :
  (j < N)%nat -> Cnorm2 (nth j (QaoaCore.uniform_state N) C0) = / INR N.
Proof.
  intros Hj. unfold QaoaCore.uniform_state.
  rewrite nth_lookup, lookup_replicate_2 by exact Hj. simpl.
  assert (Hpos : 0 < INR N) by (apply lt_0_INR; lia).
  assert (Hsq : sqrt (INR N) * sqrt (INR N) = INR N) by (apply sqrt_sqrt; lra).
  assert (Hne : sqrt (INR N) <> 0).
  { intros H0. rewrite H0 in Hsq. lra. }
  unfold Cnorm2; simpl.
  replace (1 / sqrt (INR N) * (1 / sqrt (INR N))
           + 0 / sqrt (INR N) * (0 / sqrt (INR N)))
    with (/ (sqrt (INR N) * sqrt (INR N))) by (field; exact Hne).
  rewrite Hsq. reflexivity.
Qed.

Lemma Rsum_swap {A B : Type} (f : A -> B -> R) (la : list A) (lb : list B) :
  Rsum (map (fun b => Rsum (map (fun a => f a b) la)) lb)
  = Rsum (map (fun a => Rsum (map (fun b => f a b) lb)) la).
Proof.
  induction la as [|a la IH]; cbn [map].
  - rewrite Rsum_nil.
    rewrite (Rsum_map_ext _ (fun _ => 0 * 0)) by (intros; ring).
    rewrite (Rsum_map_scal 0 (fun _ => 0)). ring.
  - rewrite Rsum_cons, <- IH, <- Rsum_map_plus.
    apply Rsum_map_ext. intros b _. rewrite Rsum_cons. reflexivity.
Qed.

Lemma Rsum_indices (row : list R) :
  Rsum (map (fun j => nth j row 0) (seq 0 (length row))) = Rsum row.
Proof.
  rewrite (map_over_indices (fun x => x) row 0), map_id. reflexivity.
Qed.

(** In the uniform state the expectation of the selected terms is the sum of
    the averages of their rows. *)
Lemma uniform_expectation (E N : nat) (all_cuv_vals : list (list R))
    (inds : list nat) :
  valid_terms E N all_cuv_vals -> (0 < N)%nat ->
  Forall (fun i => (i < E)%nat) inds ->
  expectation (QaoaCore.uniform_state N) (column_sums all_cuv_vals inds N)
  = Rsum (map (fun i => Rsum (nth i all_cuv_vals []) / INR N) inds).
Proof.
  intros Hterms HN Hinds.
  pose proof (terms_rows E N _ Hterms) as Hrows.
  assert (HE : length all_cuv_vals = E) by (destruct Hterms as (_ & H & _); exact H).
  rewrite (expectation_of_selection _ _ N)
    by first [ assumption | rewrite HE; assumption | apply length_replicate ].
  rewrite (Rsum_map_ext _
             (fun j => Rsum (map (fun i => / INR N * nth j (nth i all_cuv_vals []) 0)
                                 inds))).
  - rewrite (Rsum_swap (fun i j => / INR N * nth j (nth i all_cuv_vals []) 0)).
    apply Rsum_map_ext. intros i Hi.
    rewrite Rsum_map_scal.
    assert (Hlen : length (nth i all_cuv_vals []) = N).
    { apply (proj1 (Forall_nth _ [] _) Hrows). rewrite HE.
      rewrite Forall_forall in Hinds. apply Hinds, list_elem_of_In, Hi. }
    rewrite <- (Rsum_indices (nth i all_cuv_vals [])), Hlen.
    unfold Rdiv. ring.
  - intros j Hj. apply in_seq in Hj.
    rewrite Cnorm2_uniform_entry by lia. rewrite Rsum_map_scal. ring.
Qed.



Lemma simulation_skips_the_layers (E N : nat)
    (all_cuv_vals : list (list R)) (neighbours basis_bin : list (list nat))
    (angles : list R) (p : Z) (edge_inds : option (list nat)) :
  valid_terms E N all_cuv_vals -> (0 < N)%nat -> (p < 0)%Z ->
  Forall (fun i => (i < E)%nat) (default (seq 0 E) edge_inds) ->
  QaoaCore.run_ma_qaoa_simulation angles p all_cuv_vals neighbours basis_bin
                                  edge_inds
  = Ok (Rsum (map (fun i => Rsum (nth i all_cuv_vals []) / INR N)
                  (default (seq 0 E) edge_inds))).
Proof.
  intros Hterms HN Hp Hinds.
  unfold QaoaCore.run_ma_qaoa_simulation, QaoaCore.simulate_layers.
  rewrite (terms_shape1 E N _ Hterms). simpl.
  rewrite decide_False by lia.
  replace (Z.to_nat p) with 0%nat by lia. simpl.
  assert (Hsel : match edge_inds with
                 | Some l => l
                 | None => seq 0 (shape0 all_cuv_vals)
                 end = default (seq 0 E) edge_inds).
  { destruct edge_inds; [reflexivity|]. simpl. unfold shape0.
    destruct Hterms as (_ & -> & _). reflexivity. }
  rewrite Hsel, (sum_rows_ok _ _ E N) by assumption. simpl.
  rewrite calc_expectation_ok.
  - f_equal. apply (uniform_expectation E N); assumption.
  - rewrite length_column_sums; [symmetry; apply length_replicate | |].
    + exact (terms_rows E N _ Hterms).
    + destruct Hterms as (_ & -> & _). exact Hinds.
Qed.

(** X8: a number of layers below 1 is not screened: [p = 0] raises
    [ZeroDivisionError] from [int(len(angles) / p)], whatever the angles,
    and a negative [p] is accepted: the layer loop does not run, no angle
    is read, and the value is the one of the uniform state, the same for
    every angle vector. *)
Theorem simulation_without_layers (E N : nat)
    (all_cuv_vals : list (list R)) (neighbours basis_bin : list (list nat))
    (angles : list R) (p : Z) (edge_inds : option (list nat)) :
  valid_terms E N all_cuv_vals -> (0 < N)%nat ->
  Forall (fun i => (i < E)%nat) (default (seq 0 E) edge_inds) ->
  (p = 0%Z ->
   QaoaCore.run_ma_qaoa_simulation angles p all_cuv_vals neighbours basis_bin
                                   edge_inds
   = Raise ZeroDivisionError)
  /\ ((p < 0)%Z ->
      QaoaCore.run_ma_qaoa_simulation angles p all_cuv_vals neighbours
                                      basis_bin edge_inds
      = Ok (Rsum (map (fun i => Rsum (nth i all_cuv_vals []) / INR N)
                      (default (seq 0 E) edge_inds)))).
Proof.
  intros Hterms HN Hinds. split.
  - intros ->. unfold QaoaCore.run_ma_qaoa_simulation, QaoaCore.simulate_layers.
    rewrite (terms_shape1 E N _ Hterms). reflexivity.
  - intros Hp. apply (simulation_skips_the_layers E N); assumption.
Qed.

Lemma simulation_without_layers_witness :
  QaoaCore.run_ma_qaoa_simulation [1; 2; 3] (-2) single_edge_cuts
    (get_neighbour_labelings 2) (get_all_binary_labelings 2) None
  = Ok (Rsum (map (fun i => Rsum (nth i single_edge_cuts []) / INR 4)
                  (default (seq 0 1) None))).
Proof.
  apply (proj2 (simulation_without_layers 1 4 single_edge_cuts
                  (get_neighbour_labelings 2) (get_all_binary_labelings 2)
                  [1; 2; 3] (-2) None single_edge_cuts_valid ltac:(lia)
                  ltac:(repeat constructor))).
  lia.
Defined.

(** ** The standard angle layout *)

(** The converted vector, chunk by chunk: pair [i] of the input gives
    [num_edges] copies of its gamma followed by [num_nodes] copies of its
    beta; an unpaired last angle is dropped. *)
Lemma convert_angles_chunks (angles : list R) (num_edges num_nodes : nat) :
  QaoaCore.convert_angles_qaoa_to_multi_angle angles num_edges num_nodes
  = concat (map (fun i => replicate num_edges (nth (2 * i) angles 0)
                          ++ replicate num_nodes (nth (2 * i + 1) angles 0))
                (seq 0 (length angles / 2))).
Proof.
  enough (H : forall l,
    (QaoaCore.convert_angles_qaoa_to_multi_angle l num_edges num_nodes
     = concat (map (fun i => replicate num_edges (nth (2 * i) l 0)
                             ++ replicate num_nodes (nth (2 * i + 1) l 0))
                   (seq 0 (length l / 2))))
    /\ forall a,
    (QaoaCore.convert_angles_qaoa_to_multi_angle (a :: l) num_edges num_nodes
     = concat (map (fun i => replicate num_edges (nth (2 * i) (a :: l) 0)
                             ++ replicate num_nodes (nth (2 * i + 1) (a :: l) 0))
                   (seq 0 (length (a :: l) / 2)))))
    by (apply H).
  induction l as [|b l [IH1 IH2]].
  - split; [reflexivity|]. intros a. reflexivity.
  - split; [apply IH2|]. intros a.
    change (length (a :: b :: l)) with (2 + length l)%nat.
    replace ((2 + length l) / 2)%nat with (S (length l / 2))
      by (replace (2 + length l)%nat with (1 * 2 + length l)%nat by lia;
          rewrite Nat.div_add_l by lia; lia).
    cbn [QaoaCore.convert_angles_qaoa_to_multi_angle].
    rewrite IH1. cbn [seq map concat].
    rewrite <- !app_assoc. f_equal. f_equal.
    rewrite <- seq_shift, map_map. f_equal.
    apply map_ext. intros i.
    replace (2 * S i)%nat with (S (S (2 * i))) by lia.
    replace (2 * S i + 1)%nat with (S (S (2 * i + 1))) by lia.
    reflexivity.
Qed.

Lemma length_concat_chunks {A : Type} (f : nat -> list A) (l : list nat)
    (m : nat) :
  (forall i, length (f i) = m) ->
  length (concat (map f l)) = (m * length l)%nat.
Proof.
  intros Hf. induction l as [|i l IH]; simpl; [lia|].
  rewrite length_app, Hf, IH. lia.
Qed.

Lemma convert_angles_length (angles : list R) (num_edges num_nodes : nat) :
  length (QaoaCore.convert_angles_qaoa_to_multi_angle angles num_edges num_nodes)
  = ((num_edges + num_nodes) * (length angles / 2))%nat.
Proof.
  rewrite convert_angles_chunks.
  rewrite (length_concat_chunks _ _ (num_edges + num_nodes)), length_seq;
    [reflexivity|].
  intros i. rewrite length_app, !length_replicate. reflexivity.
Qed.

Lemma convert_angles_slice (angles : list R) (num_edges num_nodes i : nat) :
  (i < length angles / 2)%nat ->
  slice (QaoaCore.convert_angles_qaoa_to_multi_angle angles num_edges num_nodes)
        (i * (num_edges + num_nodes)) ((i + 1) * (num_edges + num_nodes))
  = replicate num_edges (nth (2 * i) angles 0)
    ++ replicate num_nodes (nth (2 * i + 1) angles 0).
Proof.
  intros Hi. rewrite convert_angles_chunks, slice_chunk.
  - rewrite (nth_indep _ [] ((fun i => replicate num_edges (nth (2 * i) angles 0)
                                ++ replicate num_nodes (nth (2 * i + 1) angles 0))
                               0%nat))
      by (rewrite length_map, length_seq; exact Hi).
    rewrite (map_nth (fun i => replicate num_edges (nth (2 * i) angles 0)
                               ++ replicate num_nodes (nth (2 * i + 1) angles 0))).
    rewrite seq_nth by exact Hi. reflexivity.
  - apply Forall_map, Forall_forall. intros j _. simpl.
    rewrite length_app, !length_replicate. reflexivity.
  - rewrite length_map, length_seq. exact Hi.
Qed.

Lemma foldM_ext_in {A B : Type} (f g : A -> B -> py A) (l : list B) (a : A) :
  (forall a b, In b l -> f a b = g a b) -> foldM f l a = foldM g l a.
Proof.
  revert a. induction l as [|b l IH]; intros a H; [reflexivity|].
  simpl. rewrite (H a b) by (left; reflexivity).
  destruct (g a b); simpl; [|reflexivity].
  apply IH. intros a' b' Hb'. apply H. right. exact Hb'.
Qed.

(** X9: the standard layout (one gamma and one beta per layer) run through
    the converter and the multi-angle simulation: with [p] pairs of angles
    every layer gets [num_edges + num_nodes] angles, and layer [i] applies
    the cost layer with gamma [angles[2i]] on every term and the mixer with
    beta [angles[2i+1]] on every qubit; an unpaired last angle is ignored. *)
Theorem standard_layout_layers (all_cuv_vals : list (list R))
    (neighbours basis_bin : list (list nat)) (angles : list R) (p : Z)
    (k N n : nat) :
  shape1 all_cuv_vals = Ok N -> (1 <= p)%Z ->
  (length angles / 2)%nat = Z.to_nat p -> (k <= Z.to_nat p)%nat ->
  length (QaoaCore.convert_angles_qaoa_to_multi_angle
            angles (shape0 all_cuv_vals) n)
  = ((shape0 all_cuv_vals + n) * Z.to_nat p)%nat
  /\ QaoaCore.simulate_layers
       (QaoaCore.convert_angles_qaoa_to_multi_angle angles (shape0 all_cuv_vals) n)
       p k all_cuv_vals neighbours basis_bin
     = foldM (fun psi i =>
                try! psi := QaoaCore.apply_uc all_cuv_vals
                              (replicate (shape0 all_cuv_vals)
                                         (nth (2 * i) angles 0)) psi in
                QaoaCore.apply_ub_individual
                  (replicate n (nth (2 * i + 1) angles 0)) psi
                  neighbours basis_bin)
             (seq 0 k) (QaoaCore.uniform_state N).
Proof.
  intros HN Hp Hpairs Hk.
  pose proof (convert_angles_length angles (shape0 all_cuv_vals) n) as Hlen.
  rewrite Hpairs in Hlen. split; [exact Hlen|].
  unfold QaoaCore.simulate_layers. rewrite HN. simpl.
  rewrite decide_False by lia.
  assert (HL : Z.to_nat (Z.quot (Z.of_nat (length
                 (QaoaCore.convert_angles_qaoa_to_multi_angle
                    angles (shape0 all_cuv_vals) n))) p)
               = (shape0 all_cuv_vals + n)%nat).
  { rewrite Hlen, Z.quot_div_nonneg by lia.
    rewrite Nat2Z.inj_mul, Z2Nat.id by lia.
    rewrite Z.div_mul by lia. apply Nat2Z.id. }
  rewrite HL. apply foldM_ext_in. intros psi i Hi. apply in_seq in Hi.
  unfold QaoaCore.layer_step.
  rewrite convert_angles_slice by lia.
  rewrite take_app_length', drop_app_length'
    by (symmetry; apply length_replicate).
  reflexivity.
Qed.

Lemma standard_layout_layers_witness :
  length (QaoaCore.convert_angles_qaoa_to_multi_angle
            [1; 2; 3; 4; 5] (shape0 single_edge_cuts) 2)
  = ((shape0 single_edge_cuts + 2) * Z.to_nat 2)%nat
  /\ QaoaCore.simulate_layers
       (QaoaCore.convert_angles_qaoa_to_multi_angle
          [1; 2; 3; 4; 5] (shape0 single_edge_cuts) 2)
       2 2 single_edge_cuts (get_neighbour_labelings 2)
       (get_all_binary_labelings 2)
     = foldM (fun psi i =>
                try! psi := QaoaCore.apply_uc single_edge_cuts
                              (replicate (shape0 single_edge_cuts)
                                         (nth (2 * i) [1; 2; 3; 4; 5] 0)) psi in
                QaoaCore.apply_ub_individual
                  (replicate 2 (nth (2 * i + 1) [1; 2; 3; 4; 5] 0)) psi
                  (get_neighbour_labelings 2) (get_all_binary_labelings 2))
             (seq 0 2) (QaoaCore.uniform_state 4).
Proof.
  apply (standard_layout_layers single_edge_cuts).
  - reflexivity.
  - lia.
  - reflexivity.
  - vm_compute. lia.
Defined.

(** ** The closed form on a graph that was annotated before *)

Lemma Graph_eq (g g' : Graph) :
  nodes g = nodes g' -> edges g = edges g' -> g = g'.
Proof. destruct g, g'. simpl. congruence. Qed.

Lemma edges_set_attributes (name : string) (values : list (nat * nat * R))
    (graph : Graph) :
  edges (set_edge_attributes graph values name)
  = map (fun e => (e.1, annotated name values e.1 e.2)) (edges graph).
Proof.
  unfold set_edge_attributes, annotated. revert graph.
  induction values as [|item values IH]; intros graph.
  - simpl. rewrite <- (map_id (edges graph)) at 1.
    apply map_ext. intros [uv attrs]. reflexivity.
  - simpl. rewrite IH. unfold set_edge_attribute. simpl. rewrite map_map.
    apply map_ext. intros e.
    destruct (same_edge item.1.1 item.1.2 e.1.1 e.1.2); reflexivity.
Qed.

Lemma annotated_other (name other : string) (values : list (nat * nat * R))
    (uv : nat * nat) (attrs : gmap string R) :
  other <> name -> annotated name values uv attrs !! other = attrs !! other.
Proof.
  intros Hne. unfold annotated. revert attrs.
  induction values as [|item values IH]; intros attrs; [reflexivity|].
  simpl. rewrite IH.
  destruct (same_edge _ _ _ _); [|reflexivity].
  apply lookup_insert_ne. congruence.
Qed.

(** Once an item names the edge, what the attribute was before is
    forgotten. *)
Lemma annotated_overwrites (name : string) (values : list (nat * nat * R))
    (uv : nat * nat) (attrs attrs' : gmap string R) :
  (forall other, other <> name -> attrs !! other = attrs' !! other) ->
  Exists (fun item : nat * nat * R =>
            same_edge item.1.1 item.1.2 uv.1 uv.2 = true) values ->
  annotated name values uv attrs = annotated name values uv attrs'.
Proof.
  unfold annotated. revert attrs attrs'.
  induction values as [|item values IH]; intros attrs attrs' Hagree Hex.
  - inversion Hex.
  - simpl. destruct (same_edge item.1.1 item.1.2 uv.1 uv.2) eqn:Hsame.
    + f_equal. apply map_eq. intros k.
      destruct (decide (k = name)) as [->|Hk].
      * rewrite !lookup_insert_eq. reflexivity.
      * rewrite !lookup_insert_ne by congruence. apply Hagree, Hk.
    + apply IH; [exact Hagree|].
      inversion Hex as [? ? Hhd|? ? Htl]; subst; [congruence | exact Htl].
Qed.

Lemma names_every_edge (graph : Graph) (gammas : list R)
    (values : list (nat * nat * R)) (e : nat * nat * gmap string R) :
  scaled_gammas graph gammas = Ok values -> In e (edges graph) ->
  Exists (fun item : nat * nat * R =>
            same_edge item.1.1 item.1.2 e.1.1 e.1.2 = true) values.
Proof.
  intros Hvalues He. apply scaled_gammas_endpoints in Hvalues.
  assert (Hin : In e.1 (map fst values))
    by (rewrite Hvalues; apply in_map, He).
  apply in_map_iff in Hin as (item & Hitem & Hin).
  apply Exists_exists. exists item. split; [apply list_elem_of_In; exact Hin|].
  rewrite <- Hitem. apply same_edge_refl.
Qed.

Lemma edge_pairs_set_attributes (name : string) (values : list (nat * nat * R))
    (graph : Graph) :
  edge_pairs (set_edge_attributes graph values name) = edge_pairs graph.
Proof.
  unfold edge_pairs. rewrite edges_set_attributes, map_map. reflexivity.
Qed.

Lemma weights_set_attributes (values : list (nat * nat * R)) (graph : Graph) :
  edges_data (set_edge_attributes graph values "gamma") "weight"
  = edges_data graph "weight".
Proof.
  unfold edges_data. rewrite edges_set_attributes, map_map.
  apply map_ext. intros e. simpl.
  rewrite annotated_other by discriminate. reflexivity.
Qed.

Lemma annotate_again (graph : Graph) (gammas : list R)
    (values1 values2 : list (nat * nat * R)) :
  scaled_gammas graph gammas = Ok values2 ->
  set_edge_attributes (set_edge_attributes graph values1 "gamma") values2 "gamma"
  = set_edge_attributes graph values2 "gamma".
Proof.
  intros Hvalues. apply Graph_eq.
  - rewrite !set_attributes_nodes. reflexivity.
  - rewrite !edges_set_attributes, map_map. apply map_ext_in. intros e He.
    simpl. f_equal. apply annotated_overwrites.
    + intros other Hne. apply annotated_other, Hne.
    + apply (names_every_edge graph gammas); assumption.
Qed.

Lemma closed_form_leaves_annotation (angles : list R) (graph : Graph)
    (edge_list : option (list (nat * nat))) :
  exists values,
    (ma_qaoa_analytical_p1 angles graph edge_list).2
    = set_edge_attributes graph values "gamma".
Proof.
  unfold ma_qaoa_analytical_p1.
  destruct (scaled_gammas graph _) as [values|err].
  - exists values. reflexivity.
  - exists []. reflexivity.
Qed.

Lemma closed_form_on_annotated (angles : list R) (graph : Graph)
    (values1 : list (nat * nat * R)) (edge_list : option (list (nat * nat))) :
  (ma_qaoa_analytical_p1 angles (set_edge_attributes graph values1 "gamma")
                         edge_list).1
  = (ma_qaoa_analytical_p1 angles graph edge_list).1
  /\ forall value,
       (ma_qaoa_analytical_p1 angles graph edge_list).1 = Ok value ->
       (ma_qaoa_analytical_p1 angles (set_edge_attributes graph values1 "gamma")
                              edge_list).2
       = (ma_qaoa_analytical_p1 angles graph edge_list).2.
Proof.
  unfold ma_qaoa_analytical_p1.
  rewrite edge_pairs_set_attributes.
  assert (Hlen : length (edges (set_edge_attributes graph values1 "gamma"))
                 = length (edges graph))
    by (rewrite edges_set_attributes; apply length_map).
  rewrite Hlen.
  assert (Hscaled : forall gammas,
            scaled_gammas (set_edge_attributes graph values1 "gamma") gammas
            = scaled_gammas graph gammas).
  { intros gammas. unfold scaled_gammas.
    rewrite weights_set_attributes. reflexivity. }
  rewrite Hscaled.
  destruct (scaled_gammas graph (slice angles 0 (length (edges graph))))
    as [values2|err2] eqn:Hvalues2; simpl.
  - rewrite (annotate_again graph _ values1 values2 Hvalues2).
    split; [reflexivity|]. intros _ _. reflexivity.
  - split; [reflexivity|]. discriminate.
Qed.

(** X10: what an earlier call left on the graph never shows in a later
    call: on the graph as any call left it, the closed form gives the same
    result (value or exception) as on the graph before that call, and, when
    it returns a value, leaves the same graph. *)
Theorem closed_form_forgets_earlier_calls (angles1 angles2 : list R)
    (graph : Graph) (edge_list1 edge_list2 : option (list (nat * nat))) :
  let used := (ma_qaoa_analytical_p1 angles1 graph edge_list1).2 in
  (ma_qaoa_analytical_p1 angles2 used edge_list2).1
  = (ma_qaoa_analytical_p1 angles2 graph edge_list2).1
  /\ forall value,
       (ma_qaoa_analytical_p1 angles2 graph edge_list2).1 = Ok value ->
       (ma_qaoa_analytical_p1 angles2 used edge_list2).2
       = (ma_qaoa_analytical_p1 angles2 graph edge_list2).2.
Proof.
  intros used. unfold used.
  destruct (closed_form_leaves_annotation angles1 graph edge_list1)
    as [values1 ->].
  apply closed_form_on_annotated.
Qed.

Lemma closed_form_forgets_earlier_calls_witness :
  (ma_qaoa_analytical_p1 [1; 2; 3]
     (ma_qaoa_analytical_p1 [4; 5; 6] (single_edge 1) None).2 None).2
  = (ma_qaoa_analytical_p1 [1; 2; 3] (single_edge 1) None).2.
Proof.
  apply (proj2 (closed_form_forgets_earlier_calls
                  [4; 5; 6] [1; 2; 3] (single_edge 1) None None)
               (0 + (1 / 2 + 1 / 2 * sin (1 * 1)
                     * (sin (2 * 2) * cos (2 * 3) * Rprod []
                        + cos (2 * 2) * sin (2 * 3) * Rprod [])))).
  rewrite analytical_single_edge. reflexivity.
Defined.

(** ** Errors of the annotation step *)

Lemma scaled_items_short (gammas : list R)
    (es : list (nat * nat * gmap string R)) (start : nat) :
  Forall (fun e : nat * nat * gmap string R => is_Some (e.2 !! "weight")) es ->
  (start <= length gammas)%nat -> (length gammas < start + length es)%nat ->
  mapM (fun item : nat * (nat * nat * option R) =>
          try! g := index gammas item.1 in
          match item.2.2 with
          | Some w => Ok (item.2.1, g * w)
          | None => Raise TypeError
          end)
       (imap (fun i x => ((start + i)%nat, x))
             (map (fun e : nat * nat * gmap string R =>
                     (e.1.1, e.1.2, e.2 !! "weight")) es))
  = Raise IndexError.
Proof.
  intros Hw. revert start. induction Hw as [|e es [w He] _ IH];
    intros start Hlo Hhi; simpl in *; [lia|].
  rewrite Nat.add_0_r.
  destruct (decide (start < length gammas)%nat) as [Hlt|Hge].
  - rewrite (index_lt _ _ 0 Hlt). simpl. rewrite He. simpl.
    rewrite (imap_ext _ (fun i x => ((S start + i)%nat, x)))
      by (intros k x _; simpl; f_equal; lia).
    rewrite IH by lia. reflexivity.
  - rewrite index_ge by lia. reflexivity.
Qed.

Lemma scaled_items_unweighted (gammas : list R)
    (es : list (nat * nat * gmap string R)) (start : nat) :
  Exists (fun e : nat * nat * gmap string R => e.2 !! "weight" = None) es ->
  (start + length es <= length gammas)%nat ->
  mapM (fun item : nat * (nat * nat * option R) =>
          try! g := index gammas item.1 in
          match item.2.2 with
          | Some w => Ok (item.2.1, g * w)
          | None => Raise TypeError
          end)
       (imap (fun i x => ((start + i)%nat, x))
             (map (fun e : nat * nat * gmap string R =>
                     (e.1.1, e.1.2, e.2 !! "weight")) es))
  = Raise TypeError.
Proof.
  intros Hex. revert start. induction es as [|e es IH]; intros start Hlen.
  - inversion Hex.
  - simpl in *. rewrite Nat.add_0_r.
    rewrite (index_lt _ _ 0) by lia. simpl.
    destruct (e.2 !! "weight") as [w|] eqn:He; [|reflexivity]. simpl.
    rewrite (imap_ext _ (fun i x => ((S start + i)%nat, x)))
      by (intros k x _; simpl; f_equal; lia).
    rewrite IH; [reflexivity | | lia].
    inversion Hex as [? ? Hhd|? ? Htl]; subst; [congruence | exact Htl].
Qed.

Lemma length_gammas_slice (angles : list R) (E : nat) :
  length (slice angles 0 E) = Nat.min E (length angles).
Proof. unfold slice. rewrite drop_0, Nat.sub_0_r. apply length_take. Qed.

(** X11: with fewer angles than edges the closed form raises [IndexError]
    while it computes the scaled gammas, before it touches the graph: the
    graph is left as it was. *)
Theorem closed_form_needs_a_gamma_per_edge (angles : list R) (graph : Graph)
    (edge_list : option (list (nat * nat))) :
  Forall (fun e : nat * nat * gmap string R => is_Some (e.2 !! "weight"))
         (edges graph) ->
  (length angles < length (edges graph))%nat ->
  ma_qaoa_analytical_p1 angles graph edge_list = (Raise IndexError, graph).
Proof.
  intros Hw Hlen. unfold ma_qaoa_analytical_p1, scaled_gammas, edges_data,
    enumerate.
  rewrite (scaled_items_short _ (edges graph) 0 Hw); [reflexivity|lia|].
  rewrite length_gammas_slice. lia.
Qed.

Lemma closed_form_needs_a_gamma_per_edge_witness :
  ma_qaoa_analytical_p1 [] (single_edge 1) None
  = (Raise IndexError, single_edge 1).
Proof.
  apply closed_form_needs_a_gamma_per_edge.
  - repeat constructor. simpl. rewrite lookup_singleton_eq. eauto.
  - simpl. lia.
Defined.

(** X12: an edge without the attribute "weight" makes the closed form raise
    [TypeError] (the product of an angle and [None]) when there is an angle
    for every edge; the graph is left as it was. *)
Theorem closed_form_needs_every_weight (angles : list R) (graph : Graph)
    (edge_list : option (list (nat * nat))) :
  Exists (fun e : nat * nat * gmap string R => e.2 !! "weight" = None)
         (edges graph) ->
  (length (edges graph) <= length angles)%nat ->
  ma_qaoa_analytical_p1 angles graph edge_list = (Raise TypeError, graph).
Proof.
  intros Hex Hlen. unfold ma_qaoa_analytical_p1, scaled_gammas, edges_data,
    enumerate.
  rewrite (scaled_items_unweighted _ (edges graph) 0 Hex); [reflexivity|].
  rewrite length_gammas_slice. lia.
Qed.

Lemma closed_form_needs_every_weight_witness :
  ma_qaoa_analytical_p1 [1; 0; 0]
    (mkGraph [0%nat; 1%nat] [ (0%nat, 1%nat, ∅) ]) None
  = (Raise TypeError, mkGraph [0%nat; 1%nat] [ (0%nat, 1%nat, ∅) ]).
Proof.
  apply closed_form_needs_every_weight.
  - constructor. reflexivity.
  - simpl. lia.
Defined.

(** ** Edges the closed form is asked about *)

Lemma find_map_fst {A B : Type} (P : A -> bool) (F : A * B -> B)
    (es : list (A * B)) :
  List.find (fun e => P e.1) (map (fun e => (e.1, F e)) es)
  = option_map (fun e => (e.1, F e)) (List.find (fun e => P e.1) es).
Proof.
  induction es as [|e es IH]; [reflexivity|]. simpl.
  destruct (P e.1); [reflexivity | exact IH].
Qed.

Lemma edge_attr_annotated (graph : Graph) (values : list (nat * nat * R))
    (u v : nat) (name : string) :
  edge_attr (set_edge_attributes graph values "gamma") u v name
  = match List.find (fun e => same_edge u v e.1.1 e.1.2) (edges graph) with
    | Some e =>
        match annotated "gamma" values e.1 e.2 !! name with
        | Some x => Ok x
        | None => Raise KeyError
        end
    | None => Raise KeyError
    end.
Proof.
  unfold edge_attr. rewrite edges_set_attributes.
  rewrite (find_map_fst (fun uv => same_edge u v uv.1 uv.2)
             (fun e => annotated "gamma" values e.1 e.2)).
  destruct (List.find _ (edges graph)); reflexivity.
Qed.

Lemma find_no_edge (graph : Graph) (u v : nat) :
  Forall (fun e : nat * nat * gmap string R =>
            same_edge u v e.1.1 e.1.2 = false) (edges graph) ->
  List.find (fun e => same_edge u v e.1.1 e.1.2) (edges graph) = None.
Proof.
  induction 1 as [|e es He _ IH]; [reflexivity|]. simpl.
  rewrite He. exact IH.
Qed.

Lemma foldM_raises {A B : Type} (f : A -> B -> py A) (l : list B) (b : B) :
  In b l -> (forall a, exists err, f a b = Raise err) ->
  forall a, exists err, foldM f l a = Raise err.
Proof.
  intros Hin Hb. induction l as [|b0 l IH]; intros a; [contradiction|].
  simpl. destruct Hin as [->|Hin].
  - destruct (Hb a) as [err ->]. exists err. reflexivity.
  - destruct (f a b0) as [a'|err]; simpl; [apply IH, Hin|].
    exists err. reflexivity.
Qed.

(** X13: the closed form never returns a value when [edge_list] holds a pair
    of nodes that no edge of the graph joins: the lookup of that pair's
    weight raises, unless an earlier step has raised already. *)
Theorem closed_form_rejects_a_missing_edge (angles : list R) (graph : Graph)
    (edge_list : list (nat * nat)) (u v : nat) :
  In (u, v) edge_list ->
  Forall (fun e : nat * nat * gmap string R =>
            same_edge u v e.1.1 e.1.2 = false) (edges graph) ->
  exists err,
    (ma_qaoa_analytical_p1 angles graph (Some edge_list)).1 = Raise err.
Proof.
  intros Hin Hno. unfold ma_qaoa_analytical_p1.
  destruct (scaled_gammas graph _) as [values|err]; simpl;
    [|exists err; reflexivity].
  apply (foldM_raises _ _ (u, v) Hin). intros objective.
  exists KeyError. unfold edge_term. simpl.
  rewrite edge_attr_annotated, (find_no_edge graph u v Hno). reflexivity.
Qed.

Lemma closed_form_rejects_a_missing_edge_witness :
  exists err,
    (ma_qaoa_analytical_p1 [1; 0; 0] (single_edge 1)
       (Some [(0%nat, 1%nat); (0%nat, 2%nat)])).1 = Raise err.
Proof.
  apply (closed_form_rejects_a_missing_edge _ _ _ 0%nat 2%nat).
  - right. left. reflexivity.
  - repeat constructor.
Defined.

(** ** The closed form on a well-formed graph *)

Lemma mapM_ok {A B : Type} (f : A -> py B) (l : list A) :
  Forall (fun a => exists b, f a = Ok b) l -> exists bs, mapM f l = Ok bs.
Proof.
  induction 1 as [|a l [b Hb] _ [bs IH]].
  - exists []. reflexivity.
  - exists (b :: bs). simpl. rewrite Hb. simpl. rewrite IH. reflexivity.
Qed.

Lemma edge_attr_ok (graph : Graph) (u v : nat) (name : string) :
  joined graph u v ->
  Forall (fun e : nat * nat * gmap string R => is_Some (e.2 !! name))
         (edges graph) ->
  exists x, edge_attr graph u v name = Ok x.
Proof.
  intros Hex Hall. unfold edge_attr.
  destruct (List.find _ (edges graph)) as [e|] eqn:Hfind.
  - apply find_some in Hfind as [Hin _].
    rewrite Forall_forall in Hall.
    destruct (Hall e (proj2 (list_elem_of_In _ _) Hin)) as [x ->]. eauto.
  - exfalso. apply Exists_exists in Hex as (e & Hin & Hs).
    pose proof (find_none _ _ Hfind e (proj1 (list_elem_of_In _ _) Hin)) as Hn.
    simpl in Hn. congruence.
Qed.

Lemma adj_ok (graph : Graph) (u : nat) :
  u ∈ nodes graph ->
  exists ms, adj graph u = Ok ms /\ Forall (joined graph u) ms.
Proof.
  intros Hu. unfold adj. rewrite decide_True by exact Hu.
  eexists; split; [reflexivity|].
  apply Forall_forall. intros m Hm. rewrite elem_of_remove_dups in Hm.
  apply list_elem_of_omap in Hm as (e & He & Hf).
  apply Exists_exists. exists e. split; [exact He|].
  unfold same_edge. destruct (u =? e.1.1)%nat eqn:H1.
  - injection Hf as <-. rewrite Nat.eqb_refl. reflexivity.
  - destruct (u =? e.1.2)%nat eqn:H2; [|discriminate].
    injection Hf as <-. rewrite Nat.eqb_refl. reflexivity.
Qed.

Lemma Forall_filter_keep {A : Type} (P : A -> Prop) (Q : A -> Prop)
    `{forall a, Decision (Q a)} (l : list A) :
  Forall P l -> Forall P (filter Q l).
Proof.
  rewrite !Forall_forall. intros HP a Ha.
  apply list_elem_of_filter in Ha as [_ Ha]. apply HP, Ha.
Qed.

Section WellFormed.
Variable graph : Graph.
Hypothesis Hgamma :
  Forall (fun e : nat * nat * gmap string R => is_Some (e.2 !! "gamma"))
         (edges graph).

Lemma cos_prod_ok (u : nat) (ms : list nat) :
  Forall (joined graph u) ms -> exists x, cos_prod graph u ms = Ok x.
Proof.
  intros Hms. unfold cos_prod.
  destruct (mapM_ok (fun m => try! g := edge_attr graph u m "gamma" in
                              Ok (cos g)) ms) as [cs ->]; [|eauto].
  eapply Forall_impl; [exact Hms|]. intros m Hm. simpl.
  destruct (edge_attr_ok graph u m "gamma" Hm Hgamma) as [g ->]. eauto.
Qed.

Lemma cos_prod_f_ok (s : R) (u v : nat) (f : list nat) :
  Forall (joined graph u) f -> Forall (joined graph v) f ->
  exists x, cos_prod_f graph s u v f = Ok x.
Proof.
  intros Hu Hv. unfold cos_prod_f.
  destruct (mapM_ok (fun m => try! gu := edge_attr graph u m "gamma" in
                              try! gv := edge_attr graph v m "gamma" in
                              Ok (cos (gu + s * gv))) f) as [cs ->]; [|eauto].
  rewrite Forall_forall in Hu, Hv. apply Forall_forall. intros m Hm.
  destruct (edge_attr_ok graph u m "gamma" (Hu m Hm) Hgamma) as [gu ->].
  destruct (edge_attr_ok graph v m "gamma" (Hv m Hm) Hgamma) as [gv ->].
  simpl. eauto.
Qed.

Hypothesis Hweight :
  Forall (fun e : nat * nat * gmap string R => is_Some (e.2 !! "weight"))
         (edges graph).

(** The contribution of one edge: it exists, and it is the weight over 2
    plus a multiple of [sin(2 beta_u) sin(2 beta_v)] plus a multiple of
    [sin(gamma_uv)]. *)
Lemma edge_term_shape (betas : list R) (u v : nat) :
  u ∈ nodes graph -> v ∈ nodes graph -> joined graph u v ->
  (u < length betas)%nat -> (v < length betas)%nat ->
  exists w gam X Y Q,
    edge_attr graph u v "weight" = Ok w
    /\ edge_attr graph u v "gamma" = Ok gam
    /\ edge_term graph betas u v
       = Ok (w / 2
             + w / 4 * sin (2 * nth u betas 0) * sin (2 * nth v betas 0) * Q
             + w / 2 * sin gam
               * (sin (2 * nth u betas 0) * cos (2 * nth v betas 0) * X
                  + cos (2 * nth u betas 0) * sin (2 * nth v betas 0) * Y)).
Proof.
  intros Hu Hv Huv Hbu Hbv.
  destruct (edge_attr_ok graph u v "weight" Huv Hweight) as [w Hw].
  destruct (edge_attr_ok graph u v "gamma" Huv Hgamma) as [gam Hgam].
  destruct (adj_ok graph u Hu) as (gu & Hgu & Hju).
  destruct (adj_ok graph v Hv) as (gv & Hgv & Hjv).
  unfold edge_term. rewrite Hw, Hgu, Hgv, Hgam. simpl.
  rewrite (index_lt betas u 0 Hbu), (index_lt betas v 0 Hbv). simpl.
  set (d := filter (fun m => m <> v) gu).
  set (e := filter (fun m => m <> u) gv).
  set (f := filter (fun m => m ∈ e) d).
  assert (Hd : Forall (joined graph u) d) by (apply Forall_filter_keep, Hju).
  assert (He : Forall (joined graph v) e) by (apply Forall_filter_keep, Hjv).
  assert (Hfu : Forall (joined graph u) f) by (apply Forall_filter_keep, Hd).
  assert (Hfv : Forall (joined graph v) f).
  { apply Forall_forall. intros m Hm.
    apply list_elem_of_filter in Hm as [Hme _].
    rewrite Forall_forall in He. apply He, Hme. }
  destruct (cos_prod_ok u (filter (fun m => m ∉ f) d)
              (Forall_filter_keep _ _ _ Hd)) as [cd ->].
  destruct (cos_prod_ok v (filter (fun m => m ∉ f) e)
              (Forall_filter_keep _ _ _ He)) as [ce ->].
  simpl. exists w, gam.
  destruct (decide (length f <> 0%nat)) as [Hne|Hz].
  - destruct (cos_prod_f_ok 1 u v f Hfu Hfv) as [fp ->].
    destruct (cos_prod_f_ok (-1) u v f Hfu Hfv) as [fm ->].
    destruct (cos_prod_ok u f Hfu) as [fu ->].
    destruct (cos_prod_ok v f Hfv) as [fv ->].
    simpl. exists (cd * fu), (ce * fv), (cd * ce * (fp - fm)).
    split; [reflexivity|]. split; [reflexivity|]. f_equal. ring.
  - simpl. exists cd, ce, 0.
    split; [reflexivity|]. split; [reflexivity|]. f_equal. ring.
Qed.
End WellFormed.

Lemma annotated_snoc (name : string) (values : list (nat * nat * R))
    (item : nat * nat * R) (uv : nat * nat) (attrs : gmap string R) :
  annotated name (values ++ [item]) uv attrs
  = if same_edge item.1.1 item.1.2 uv.1 uv.2
    then <[ name := item.2 ]> (annotated name values uv attrs)
    else annotated name values uv attrs.
Proof. unfold annotated. rewrite fold_left_app. reflexivity. Qed.

(** An edge that some item names carries the value of one of the items. *)
Lemma annotated_value (name : string) (values : list (nat * nat * R))
    (uv : nat * nat) (attrs : gmap string R) :
  Exists (fun item : nat * nat * R =>
            same_edge item.1.1 item.1.2 uv.1 uv.2 = true) values ->
  exists item, In item values
               /\ annotated name values uv attrs !! name = Some item.2.
Proof.
  induction values as [|item values IH] using rev_ind; intros Hex.
  - inversion Hex.
  - rewrite annotated_snoc.
    destruct (same_edge item.1.1 item.1.2 uv.1 uv.2) eqn:Hsame.
    + exists item. split; [apply in_or_app; right; left; reflexivity|].
      apply lookup_insert_eq.
    + apply Exists_app in Hex as [Hex|Hex].
      * destruct (IH Hex) as (it & Hin & Hv). exists it.
        split; [apply in_or_app; left; exact Hin | exact Hv].
      * inversion Hex as [? ? Hhd|? ? Htl]; subst; [congruence|inversion Htl].
Qed.

Lemma scaled_items_ok (gammas : list R)
    (es : list (nat * nat * gmap string R)) (start : nat) :
  Forall (fun e : nat * nat * gmap string R => is_Some (e.2 !! "weight")) es ->
  (start + length es <= length gammas)%nat ->
  exists values,
    mapM (fun item : nat * (nat * nat * option R) =>
            try! g := index gammas item.1 in
            match item.2.2 with
            | Some w => Ok (item.2.1, g * w)
            | None => Raise TypeError
            end)
         (imap (fun i x => ((start + i)%nat, x))
               (map (fun e : nat * nat * gmap string R =>
                       (e.1.1, e.1.2, e.2 !! "weight")) es))
    = Ok values.
Proof.
  intros Hw. revert start. induction Hw as [|e es [w He] _ IH];
    intros start Hlen; simpl in *.
  - exists []. reflexivity.
  - rewrite Nat.add_0_r. rewrite (index_lt _ _ 0) by lia. simpl.
    rewrite He. simpl.
    rewrite (imap_ext _ (fun i x => ((S start + i)%nat, x)))
      by (intros k x _; simpl; f_equal; lia).
    destruct (IH (S start) ltac:(lia)) as [values ->]. eauto.
Qed.

Lemma scaled_gammas_ok (graph : Graph) (angles : list R) :
  Forall (fun e : nat * nat * gmap string R => is_Some (e.2 !! "weight"))
         (edges graph) ->
  (length (edges graph) <= length angles)%nat ->
  exists values,
    scaled_gammas graph (slice angles 0 (length (edges graph))) = Ok values.
Proof.
  intros Hw Hlen. unfold scaled_gammas, edges_data, enumerate.
  apply (scaled_items_ok _ (edges graph) 0 Hw).
  rewrite length_gammas_slice. lia.
Qed.

(** All scaled gammas are zero when all gammas are. *)
Lemma scaled_gammas_zero (graph : Graph) (gammas : list R)
    (values : list (nat * nat * R)) :
  scaled_gammas graph gammas = Ok values ->
  Forall (fun a => a = 0) gammas ->
  forall item, In item values -> item.2 = 0.
Proof.
  intros Hvalues Hzero item Hin.
  assert (Hlen : length values = length (edges graph)).
  { apply scaled_gammas_endpoints in Hvalues.
    rewrite <- (length_map fst values), Hvalues, length_map. reflexivity. }
  apply list_elem_of_In, list_elem_of_lookup in Hin as [i Hi].
  assert (He : is_Some (edges graph !! i)).
  { apply lookup_lt_is_Some. rewrite <- Hlen. eapply lookup_lt_Some, Hi. }
  destruct He as [e He].
  unfold scaled_gammas, edges_data, enumerate in Hvalues.
  destruct (scaled_items_lookup _ (edges graph) 0 values Hvalues i e He)
    as (g & w & Hg & _ & Hv).
  rewrite Hi in Hv. injection Hv as ->. simpl.
  rewrite Forall_forall in Hzero.
  rewrite (Hzero g) by (eapply list_elem_of_lookup_2, Hg). ring.
Qed.

Lemma weighted_graph_weights (graph : Graph) :
  weighted_graph graph ->
  Forall (fun e : nat * nat * gmap string R => is_Some (e.2 !! "weight"))
         (edges graph).
Proof.
  intros Hwf. eapply Forall_impl; [exact Hwf|]. intros e (H & _). exact H.
Qed.

Lemma joined_nodes (graph : Graph) (u v : nat) :
  weighted_graph graph -> joined graph u v ->
  u ∈ nodes graph /\ v ∈ nodes graph.
Proof.
  intros Hwf Huv. apply Exists_exists in Huv as (e & He & Hsame).
  unfold weighted_graph in Hwf. rewrite Forall_forall in Hwf.
  destruct (Hwf e He) as (_ & H1 & H2).
  unfold same_edge in Hsame.
  apply orb_true_iff in Hsame as [H|H];
    apply andb_true_iff in H as [Ha Hb];
    apply Nat.eqb_eq in Ha, Hb; subst; split; assumption.
Qed.

Lemma enough_angles (graph : Graph) (angles : list R) :
  weighted_graph graph ->
  Forall (fun u => (length (edges graph) + u < length angles)%nat)
         (nodes graph) ->
  (length (edges graph) <= length angles)%nat.
Proof.
  intros Hwf Hnodes. unfold weighted_graph in Hwf.
  rewrite Forall_forall in Hwf. rewrite Forall_forall in Hnodes.
  destruct (edges graph) as [|e es] eqn:Hes; [simpl; lia|].
  destruct (Hwf e ltac:(constructor)) as (_ & Hu & _).
  specialize (Hnodes _ Hu). lia.
Qed.

Section Annotated.
Variable graph : Graph.
Variable angles : list R.
Variable values : list (nat * nat * R).
Hypothesis Hwf : weighted_graph graph.
Hypothesis Hnodes :
  Forall (fun u => (length (edges graph) + u < length angles)%nat)
         (nodes graph).
Hypothesis Hvalues :
  scaled_gammas graph (slice angles 0 (length (edges graph))) = Ok values.

Local Abbreviation annotated_graph := (set_edge_attributes graph values "gamma").

Lemma joined_annotated (u v : nat) :
  joined graph u v -> joined annotated_graph u v.
Proof.
  unfold joined. rewrite edges_set_attributes. intros H.
  apply Exists_fmap. exact H.
Qed.

Lemma weights_annotated :
  Forall (fun e : nat * nat * gmap string R => is_Some (e.2 !! "weight"))
         (edges annotated_graph).
Proof.
  rewrite edges_set_attributes. apply Forall_map.
  eapply Forall_impl; [exact (weighted_graph_weights graph Hwf)|].
  intros e He. simpl. rewrite annotated_other by discriminate. exact He.
Qed.

Lemma gammas_annotated :
  Forall (fun e : nat * nat * gmap string R => is_Some (e.2 !! "gamma"))
         (edges annotated_graph).
Proof.
  rewrite edges_set_attributes. apply Forall_map, Forall_forall.
  intros e He. simpl.
  destruct (annotated_value "gamma" values e.1 e.2) as (item & _ & ->);
    [|eauto].
  apply (names_every_edge graph _ values e Hvalues).
  apply list_elem_of_In, He.
Qed.

Lemma weight_annotated (u v : nat) :
  edge_attr annotated_graph u v "weight" = edge_attr graph u v "weight".
Proof.
  rewrite edge_attr_annotated. unfold edge_attr.
  destruct (List.find _ (edges graph)) as [e|]; [|reflexivity].
  rewrite annotated_other by discriminate. reflexivity.
Qed.

Lemma gamma_annotated_zero (u v : nat) (gam : R) :
  Forall (fun a => a = 0) angles ->
  edge_attr annotated_graph u v "gamma" = Ok gam -> gam = 0.
Proof.
  intros Hzero. rewrite edge_attr_annotated.
  destruct (List.find _ (edges graph)) as [e|] eqn:Hfind; [|discriminate].
  apply find_some in Hfind as [Hin _].
  destruct (annotated_value "gamma" values e.1 e.2
              (names_every_edge graph _ values e Hvalues Hin))
    as (item & Hitem & ->).
  intros H. injection H as <-.
  apply (scaled_gammas_zero graph _ values Hvalues); [|exact Hitem].
  unfold slice. apply Forall_take, Forall_drop, Hzero.
Qed.

Lemma edge_term_annotated (u v : nat) :
  joined graph u v ->
  exists w gam X Y Q,
    edge_attr graph u v "weight" = Ok w
    /\ edge_attr annotated_graph u v "gamma" = Ok gam
    /\ edge_term annotated_graph (drop (length (edges graph)) angles) u v
       = Ok (w / 2
             + w / 4 * sin (2 * nth u (drop (length (edges graph)) angles) 0)
               * sin (2 * nth v (drop (length (edges graph)) angles) 0) * Q
             + w / 2 * sin gam
               * (sin (2 * nth u (drop (length (edges graph)) angles) 0)
                  * cos (2 * nth v (drop (length (edges graph)) angles) 0) * X
                  + cos (2 * nth u (drop (length (edges graph)) angles) 0)
                    * sin (2 * nth v (drop (length (edges graph)) angles) 0) * Y)).
Proof.
  intros Huv.
  destruct (joined_nodes graph u v Hwf Huv) as [Hu Hv].
  rewrite Forall_forall in Hnodes.
  pose proof (Hnodes u Hu) as Hbu. pose proof (Hnodes v Hv) as Hbv.
  destruct (edge_term_shape annotated_graph gammas_annotated weights_annotated
              (drop (length (edges graph)) angles) u v)
    as (w & gam & X & Y & Q & Hw & Hgam & Hterm).
  - rewrite set_attributes_nodes. exact Hu.
  - rewrite set_attributes_nodes. exact Hv.
  - apply joined_annotated, Huv.
  - rewrite length_drop. lia.
  - rewrite length_drop. lia.
  - exists w, gam, X, Y, Q. rewrite <- weight_annotated.
    split; [exact Hw|]. split; [exact Hgam | exact Hterm].
Qed.
End Annotated.

Lemma foldM_sum {B : Type} (t : B -> py R) (c : B -> R) (l : list B) (a : R) :
  (forall b, In b l -> t b = Ok (c b)) ->
  foldM (fun objective b => try! cuv := t b in Ok (objective + cuv)) l a
  = Ok (fold_left Rplus (map c l) a).
Proof.
  revert a. induction l as [|b l IH]; intros a H; [reflexivity|].
  simpl. rewrite (H b) by (left; reflexivity). simpl.
  apply IH. intros b' Hb'. apply H. right. exact Hb'.
Qed.

Lemma foldM_sum_ok {B : Type} (t : B -> py R) (l : list B) (a : R) :
  (forall b, In b l -> exists c, t b = Ok c) ->
  exists value,
    foldM (fun objective b => try! cuv := t b in Ok (objective + cuv)) l a
    = Ok value.
Proof.
  revert a. induction l as [|b l IH]; intros a H; [exists a; reflexivity|].
  simpl. destruct (H b ltac:(left; reflexivity)) as [c ->]. simpl.
  apply IH. intros b' Hb'. apply H. right. exact Hb'.
Qed.

Lemma edge_pairs_joined (graph : Graph) :
  Forall (fun uv : nat * nat => joined graph uv.1 uv.2) (edge_pairs graph).
Proof.
  unfold edge_pairs. apply Forall_map, Forall_forall. intros e He. simpl.
  apply Exists_exists. exists e. split; [exact He | apply same_edge_refl].
Qed.

Lemma closed_form_defined (angles : list R)
    (graph : Graph) (edge_list : option (list (nat * nat))) :
  weighted_graph graph ->
  Forall (fun u => (length (edges graph) + u < length angles)%nat)
         (nodes graph) ->
  Forall (fun uv : nat * nat => joined graph uv.1 uv.2)
         (default (edge_pairs graph) edge_list) ->
  exists value, (ma_qaoa_analytical_p1 angles graph edge_list).1 = Ok value.
Proof.
  intros Hwf Hnodes Hlist.
  destruct (scaled_gammas_ok graph angles (weighted_graph_weights _ Hwf)
              (enough_angles _ _ Hwf Hnodes)) as [values Hvalues].
  unfold ma_qaoa_analytical_p1. rewrite Hvalues. simpl.
  assert (Hsel : match edge_list with
                 | Some l => l
                 | None => edge_pairs graph
                 end = default (edge_pairs graph) edge_list)
    by (destruct edge_list; reflexivity).
  rewrite Hsel.
  apply (foldM_sum_ok (fun uv : nat * nat =>
           edge_term (set_edge_attributes graph values "gamma")
                     (drop (length (edges graph)) angles) uv.1 uv.2)).
  intros uv Huv. rewrite Forall_forall in Hlist.
  destruct (edge_term_annotated graph angles values Hwf Hnodes Hvalues
              uv.1 uv.2 (Hlist uv (proj2 (list_elem_of_In _ _) Huv)))
    as (w & gam & X & Y & Q & _ & _ & ->).
  eauto.
Qed.

(** X14: the closed form returns a value on every well-formed input: every
    edge has a weight and joins two nodes, there is an angle for every edge
    and for every node label, and the requested pairs are edges of the
    graph. *)
Theorem closed_form_returns_on_well_formed_graphs (angles : list R)
    (graph : Graph) (edge_list : option (list (nat * nat))) :
  weighted_graph graph ->
  Forall (fun u => (length (edges graph) + u < length angles)%nat)
         (nodes graph) ->
  Forall (fun uv : nat * nat => joined graph uv.1 uv.2)
         (default (edge_pairs graph) edge_list) ->
  exists value, (ma_qaoa_analytical_p1 angles graph edge_list).1 = Ok value.
Proof. apply closed_form_defined. Qed.

Lemma closed_form_returns_on_well_formed_graphs_witness :
  exists value,
    (ma_qaoa_analytical_p1 [1; 2; 3] (single_edge 2) None).1 = Ok value.
Proof.
  apply closed_form_returns_on_well_formed_graphs.
  - constructor; [|constructor]. simpl. rewrite lookup_singleton_eq.
    split; [eauto|]. split; [left | right; left].
  - repeat constructor; simpl; lia.
  - apply edge_pairs_joined.
Defined.

(** X15: at all-zero angles the closed form returns half the weight of
    every requested edge, summed up. *)
Theorem closed_form_at_zero_angles (angles : list R) (graph : Graph)
    (edge_list : option (list (nat * nat))) :
  weighted_graph graph ->
  Forall (fun u => (length (edges graph) + u < length angles)%nat)
         (nodes graph) ->
  Forall (fun uv : nat * nat => joined graph uv.1 uv.2)
         (default (edge_pairs graph) edge_list) ->
  Forall (fun a => a = 0) angles ->
  (ma_qaoa_analytical_p1 angles graph edge_list).1
  = Ok (Rsum (map (fun uv => weight_of graph uv / 2)
                  (default (edge_pairs graph) edge_list))).
Proof.
  intros Hwf Hnodes Hlist Hzero.
  destruct (scaled_gammas_ok graph angles (weighted_graph_weights _ Hwf)
              (enough_angles _ _ Hwf Hnodes)) as [values Hvalues].
  unfold ma_qaoa_analytical_p1. rewrite Hvalues. simpl.
  assert (Hsel : match edge_list with
                 | Some l => l
                 | None => edge_pairs graph
                 end = default (edge_pairs graph) edge_list)
    by (destruct edge_list; reflexivity).
  rewrite Hsel.
  apply (foldM_sum (fun uv : nat * nat =>
           edge_term (set_edge_attributes graph values "gamma")
                     (drop (length (edges graph)) angles) uv.1 uv.2)).
  intros uv Huv. rewrite Forall_forall in Hlist.
  destruct (edge_term_annotated graph angles values Hwf Hnodes Hvalues
              uv.1 uv.2 (Hlist uv (proj2 (list_elem_of_In _ _) Huv)))
    as (w & gam & X & Y & Q & Hw & Hgam & ->).
  f_equal. unfold weight_of. rewrite Hw.
  rewrite (gamma_annotated_zero graph angles values Hvalues _ _ gam Hzero Hgam).
  rewrite !(nth_zeros (drop (length (edges graph)) angles))
    by (apply Forall_drop, Hzero).
  rewrite Rmult_0_r, sin_0. ring.
Qed.

Lemma closed_form_at_zero_angles_witness :
  (ma_qaoa_analytical_p1 [0; 0; 0] (single_edge 2) None).1
  = Ok (Rsum (map (fun uv => weight_of (single_edge 2) uv / 2)
                  (default (edge_pairs (single_edge 2)) None))).
Proof.
  apply closed_form_at_zero_angles.
  - constructor; [|constructor]. simpl. rewrite lookup_singleton_eq.
    split; [eauto|]. split; [left | right; left].
  - repeat constructor; simpl; lia.
  - apply edge_pairs_joined.
  - repeat constructor.
Defined.

(** ** Range and errors of the generalized first-order evaluator *)

Lemma product_of_four_bounded (a b c d : R) :
  -1 <= a <= 1 -> -1 <= b <= 1 -> -1 <= c <= 1 -> -1 <= d <= 1 ->
  -1 <= a * b * c * d <= 1.
Proof.
  intros Ha Hb Hc Hd.
  assert (Hab : -1 <= a * b <= 1) by nra.
  assert (Hcd : -1 <= c * d <= 1) by nra.
  replace (a * b * c * d) with ((a * b) * (c * d)) by ring. nra.
Qed.

Lemma z1_term_bounded (angles : list R) (n : nat) (edge : nat * nat) :
  - (1 / 2) <= z1_term angles n edge <= 1 / 2.
Proof.
  unfold z1_term.
  pose proof (product_of_four_bounded
                (sin (2 * nth (edge.1 + n) angles 0))
                (sin (2 * nth (edge.2 + n) angles 0))
                (sin (2 * nth edge.1 angles 0))
                (sin (2 * nth edge.2 angles 0))
                (SIN_bound _) (SIN_bound _) (SIN_bound _) (SIN_bound _)).
  lra.
Qed.

(** X16: when the index edge list has one entry per edge, the value of the
    generalized first-order formula lies between 0 and the number of
    edges. *)
Theorem z1_value_within_edge_count
    (get_index_edge_list : Graph -> list (nat * nat)) (graph : Graph)
    (angles : list R) :
  length (get_index_edge_list graph) = length (edges graph) ->
  Forall (fun e : nat * nat =>
            (e.1 + length (nodes graph) < length angles)%nat
            /\ (e.2 + length (nodes graph) < length angles)%nat)
         (get_index_edge_list graph) ->
  exists value,
    Analytical.calc_expectation_general_analytical_z1 get_index_edge_list
      angles graph = Ok value
    /\ 0 <= value <= INR (length (edges graph)).
Proof.
  intros Hlen Hl. unfold Analytical.calc_expectation_general_analytical_z1.
  rewrite z1_loop by exact Hl. eexists; split; [reflexivity|].
  pose proof (Rsum_between (z1_term angles (length (nodes graph)))
                (get_index_edge_list graph) (- (1 / 2)) (1 / 2)
                (fun e _ => z1_term_bounded angles _ e)) as Hsum.
  rewrite Hlen in Hsum. lra.
Qed.

Lemma z1_value_within_edge_count_witness :
  exists value,
    Analytical.calc_expectation_general_analytical_z1 edge_pairs
      [1; 2; 3; 4] (single_edge 1) = Ok value
    /\ 0 <= value <= INR (length (edges (single_edge 1))).
Proof.
  apply z1_value_within_edge_count.
  - reflexivity.
  - repeat constructor.
Defined.

Lemma z1_step_out_of_range (angles : list R) (graph : Graph) (acc : R)
    (e : nat * nat) :
  (length angles <= e.1 + length (nodes graph))%nat
  \/ (length angles <= e.2 + length (nodes graph))%nat ->
  Analytical.z1_step angles graph acc e = Raise IndexError.
Proof.
  intros Hout. unfold Analytical.z1_step.
  destruct (decide (e.1 < length angles)%nat) as [H1|H1];
    [rewrite (index_lt angles e.1 0 H1) | rewrite index_ge by lia; reflexivity].
  simpl.
  destruct (decide (e.2 < length angles)%nat) as [H2|H2];
    [rewrite (index_lt angles e.2 0 H2) | rewrite index_ge by lia; reflexivity].
  simpl.
  destruct (decide (e.1 + length (nodes graph) < length angles)%nat) as [H3|H3];
    [rewrite (index_lt angles _ 0 H3) | rewrite index_ge by lia; reflexivity].
  simpl. rewrite index_ge by lia. reflexivity.
Qed.

Lemma z1_step_total (angles : list R) (graph : Graph) (acc : R)
    (e : nat * nat) :
  (exists acc', Analytical.z1_step angles graph acc e = Ok acc')
  \/ Analytical.z1_step angles graph acc e = Raise IndexError.
Proof.
  destruct (decide ((e.1 + length (nodes graph) < length angles)%nat
                    /\ (e.2 + length (nodes graph) < length angles)%nat))
    as [[H1 H2]|Hout].
  - left. unfold Analytical.z1_step.
    rewrite (index_lt angles e.1 0) by lia. simpl.
    rewrite (index_lt angles e.2 0) by lia. simpl.
    rewrite (index_lt angles _ 0 H1). simpl.
    rewrite (index_lt angles _ 0 H2). simpl. eauto.
  - right. apply z1_step_out_of_range. lia.
Qed.

(** X17: the generalized first-order evaluator raises [IndexError] when
    an index edge has an endpoint [u] with [u + len(graph)] beyond the angle
    vector, wherever in the edge list that edge stands. *)
Theorem z1_rejects_short_angle_vectors
    (get_index_edge_list : Graph -> list (nat * nat)) (graph : Graph)
    (angles : list R) :
  Exists (fun e : nat * nat =>
            (length angles <= e.1 + length (nodes graph))%nat
            \/ (length angles <= e.2 + length (nodes graph))%nat)
         (get_index_edge_list graph) ->
  Analytical.calc_expectation_general_analytical_z1 get_index_edge_list
    angles graph = Raise IndexError.
Proof.
  unfold Analytical.calc_expectation_general_analytical_z1.
  generalize (INR (length (edges graph)) / 2) as acc.
  induction (get_index_edge_list graph) as [|e l IH]; intros acc Hex.
  - inversion Hex.
  - simpl. destruct (z1_step_total angles graph acc e) as [[acc' Hok]|Hraise].
    + rewrite Hok. simpl. apply IH.
      inversion Hex as [? ? Hhd|? ? Htl]; subst; [|exact Htl].
      rewrite (z1_step_out_of_range angles graph acc e Hhd) in Hok.
      discriminate.
    + rewrite Hraise. reflexivity.
Qed.

Lemma z1_rejects_short_angle_vectors_witness :
  Analytical.calc_expectation_general_analytical_z1 edge_pairs
    [1; 2; 3] (single_edge 1) = Raise IndexError.
Proof.
  apply z1_rejects_short_angle_vectors.
  left. right. simpl. lia.
Defined.

(** ** Invariants of the restart loops *)

Lemma evaluator_loop_step (minimize : (list R -> py R) -> list R ->
                                      Optimization.OptimizeResult)
    (uniform : nat -> nat -> list R) (evaluator : Optimization.Evaluator)
    (k : nat) :
  Optimization.objective_best
    (Optimization.optimize_loop minimize uniform evaluator k)
  <= Optimization.objective_best
       (Optimization.optimize_loop minimize uniform evaluator (S k)).
Proof.
  rewrite OptimizationFacts.loop_S. unfold Optimization.restart.
  destruct (Rgt_dec _ _) as [Hgt|_]; simpl; lra.
Qed.

Lemma evaluator_loop_monotone (minimize : (list R -> py R) -> list R ->
                                          Optimization.OptimizeResult)
    (uniform : nat -> nat -> list R) (evaluator : Optimization.Evaluator)
    (k k' : nat) :
  (k <= k')%nat ->
  Optimization.objective_best
    (Optimization.optimize_loop minimize uniform evaluator k)
  <= Optimization.objective_best
       (Optimization.optimize_loop minimize uniform evaluator k').
Proof.
  induction 1 as [|k' _ IH]; [lra|].
  pose proof (evaluator_loop_step minimize uniform evaluator k'). lra.
Qed.

Lemma core_restart_keeps_best (minimize : (list R -> py R) -> list R ->
                                          QaoaCore.OptimizeResult)
    (uniform : nat -> nat -> list R) (func : list R -> py R)
    (st : QaoaCore.loop_state) (i : nat) :
  QaoaCore.objective_best st
  <= QaoaCore.objective_best (QaoaCore.restart minimize uniform func st i).
Proof.
  unfold QaoaCore.restart. destruct (Rgt_dec _ _) as [Hgt|_]; simpl; lra.
Qed.

Lemma core_attempts_keep_best (minimize : (list R -> py R) -> list R ->
                                          QaoaCore.OptimizeResult)
    (uniform : nat -> nat -> list R) (func : list R -> py R)
    (objective_max : R) (inds : list nat) (st : QaoaCore.loop_state) :
  QaoaCore.objective_best st
  <= QaoaCore.objective_best
       (QaoaCore.attempts minimize uniform func objective_max inds st).
Proof.
  revert st. induction inds as [|i inds IH]; intros st; simpl; [lra|].
  destruct (Rlt_dec _ _) as [_|_]; [lra|].
  pose proof (core_restart_keeps_best minimize uniform func st i).
  pose proof (IH (QaoaCore.restart minimize uniform func st i)). lra.
Qed.



(** ** The graph-based driver on the sum of the weights *)

Lemma weights_unweighted (es : list (nat * nat * option R)) :
  Exists (fun e : nat * nat * option R => e.2 = None) es ->
  mapM (fun e : nat * nat * option R =>
          match e.2 with
          | Some w => Ok w
          | None => Raise TypeError
          end) es
  = Raise TypeError.
Proof.
  induction es as [|e es IH]; intros Hex; [inversion Hex|]. simpl.
  destruct e.2 as [w|] eqn:He; [|reflexivity]. simpl.
  rewrite IH; [reflexivity|].
  inversion Hex as [? ? Hhd|? ? Htl]; subst; [congruence | exact Htl].
Qed.

(** X19: a graph whose weights add up to less than 1e-3 passes the
    early-stop test before the first restart: once the set-up before the
    loop has succeeded, the graph-based driver calls the local optimizer not
    once and returns 0. *)
Theorem graph_driver_skips_light_graphs
    (minimize : (list R -> py R) -> list R -> QaoaCore.OptimizeResult)
    (uniform : nat -> nat -> list R) (multi_angle use_analytical : bool)
    (p : Z) (graph : Graph) (edge_list : option (list (nat * nat)))
    (objective_max : R) (st : QaoaCore.loop_state) :
  QaoaCoreSpec.total_weight graph = Ok objective_max ->
  objective_max < 1e-3 ->
  QaoaCore.optimize_loop minimize uniform multi_angle use_analytical p
                         graph edge_list = Ok st ->
  QaoaCore.starts st = []
  /\ QaoaCore.optimize_qaoa_angles minimize uniform multi_angle use_analytical
       p graph edge_list = Ok 0.
Proof.
  intros Hw Hlight Hst. unfold QaoaCore.optimize_qaoa_angles. rewrite Hst.
  apply core_optimize_loop_Ok in Hst as (func & W & angles0 & HW & ->).
  assert (W = objective_max) by congruence. subst W.
  rewrite QaoaCoreSteps.attempts_stop; [split; reflexivity|].
  unfold QaoaCoreSpec.stop_test. simpl. lra.
Qed.

Lemma graph_driver_skips_light_graphs_witness :
  QaoaCore.starts
    (QaoaCore.mkState 0 (replicate (1 + 2) 0) []) = []
  /\ QaoaCore.optimize_qaoa_angles (core_const_minimize core_reaching_result)
       zero_uniform true true 1 (single_edge 1e-4) None = Ok 0.
Proof.
  apply (graph_driver_skips_light_graphs _ _ true true 1 (single_edge 1e-4)
           None (Rsum [1e-4])).
  - apply total_weight_single_edge.
  - unfold Rsum. simpl. lra.
  - rewrite (QaoaCoreSteps.optimize_loop_analytical _ _ _ _ (Rsum [1e-4]))
      by apply total_weight_single_edge.
    rewrite QaoaCoreSteps.attempts_stop; [reflexivity|].
    unfold QaoaCoreSpec.stop_test, Rsum. simpl. lra.
Defined.

(** X20: an edge without weight stops the graph-based driver before any
    restart: with the analytical evaluator at [p = 1] the sum of the weights
    raises [TypeError]. *)
Theorem graph_driver_needs_every_weight
    (minimize : (list R -> py R) -> list R -> QaoaCore.OptimizeResult)
    (uniform : nat -> nat -> list R) (multi_angle : bool) (graph : Graph)
    (edge_list : option (list (nat * nat))) :
  Exists (fun e : nat * nat * gmap string R => e.2 !! "weight" = None)
         (edges graph) ->
  QaoaCore.optimize_qaoa_angles minimize uniform multi_angle true 1 graph
                                edge_list
  = Raise TypeError.
Proof.
  intros Hex. unfold QaoaCore.optimize_qaoa_angles, QaoaCore.optimize_loop.
  change (negb (negb true || (1 =? 1)%Z)) with false. cbv iota.
  change (negb true) with false. cbv iota. unfold bind at 2.
  rewrite decide_True by lia. unfold bind at 2.
  rewrite weights_unweighted; [reflexivity|].
  unfold edges_data. apply Exists_fmap.
  eapply Exists_impl; [exact Hex|]. intros e He. exact He.
Qed.

Lemma graph_driver_needs_every_weight_witness :
  QaoaCore.optimize_qaoa_angles (core_const_minimize core_reaching_result)
    zero_uniform true true 1 (mkGraph [0%nat; 1%nat] [ (0%nat, 1%nat, ∅) ]) None
  = Raise TypeError.
Proof.
  apply graph_driver_needs_every_weight.
  constructor. reflexivity.
Defined.

(** ** The edge indices of the graph-based driver *)

Lemma list_index_found (l : list (nat * nat)) (x : nat * nat) (i : nat) :
  QaoaCore.list_index l x = Ok i ->
  l !! i = Some x /\ forall j, (j < i)%nat -> l !! j <> Some x.
Proof.
  revert i. induction l as [|y l IH]; intros i H; [discriminate|].
  simpl in H. destruct (decide (y = x)) as [->|Hne].
  - injection H as <-. split; [reflexivity|]. intros j Hj. lia.
  - apply bind_Ok in H as (i' & Hi' & H). injection H as <-.
    destruct (IH i' Hi') as [Hat Hbefore]. split; [exact Hat|].
    intros [|j] Hj; simpl; [congruence | apply Hbefore; lia].
Qed.

Lemma list_index_missing (l : list (nat * nat)) (x : nat * nat) :
  x ∉ l -> QaoaCore.list_index l x = Raise ValueError.
Proof.
  induction l as [|y l IH]; intros Hx; [reflexivity|]. simpl.
  rewrite decide_False by (intros ->; apply Hx; left).
  rewrite IH; [reflexivity|]. intros H. apply Hx. right. exact H.
Qed.

Lemma list_index_total (l : list (nat * nat)) (x : nat * nat) :
  (exists i, QaoaCore.list_index l x = Ok i)
  \/ QaoaCore.list_index l x = Raise ValueError.
Proof.
  induction l as [|y l IH]; [right; reflexivity|]. simpl.
  destruct (decide (y = x)); [left; eauto|].
  destruct IH as [[i Hi] | Hr]; [rewrite Hi; left; simpl; eauto | rewrite Hr; right; reflexivity].
Qed.

Lemma mapM_Forall2 {A B : Type} (f : A -> py B) (l : list A) (ys : list B) :
  mapM f l = Ok ys -> Forall2 (fun a y => f a = Ok y) l ys.
Proof.
  revert ys. induction l as [|a l IH]; intros ys H; simpl in H.
  - injection H as <-. constructor.
  - apply bind_Ok in H as (y & Hy & H).
    apply bind_Ok in H as (ys' & Hys & H). injection H as <-.
    constructor; [exact Hy | apply IH, Hys].
Qed.

Lemma indices_missing (all_edge_list edge_list : list (nat * nat)) :
  Exists (fun uv => uv ∉ all_edge_list) edge_list ->
  mapM (QaoaCore.list_index all_edge_list) edge_list = Raise ValueError.
Proof.
  induction edge_list as [|uv l IH]; intros Hex; [inversion Hex|]. simpl.
  destruct (list_index_total all_edge_list uv) as [[i Hi]|Hraise].
  - rewrite Hi. simpl. rewrite IH; [reflexivity|].
    inversion Hex as [? ? Hhd|? ? Htl]; subst; [|exact Htl].
    rewrite (list_index_missing _ _ Hhd) in Hi. discriminate.
  - rewrite Hraise. reflexivity.
Qed.

(** X21: the edge indices the graph-based driver hands to the simulation:
    when the preprocessing returns, index [k] is the first position of the
    [k]-th requested pair in [list(graph.edges)]; a requested pair that does
    not stand in that list with the same orientation raises [ValueError]
    (on a graph whose tables can be built). *)
Theorem driver_edge_indices (graph : Graph) (edge_list : list (nat * nat)) :
  (forall t,
     QaoaCore.preprocessing graph (Some edge_list) = Ok t ->
     exists inds,
       QaoaCore.edge_inds t = Some inds
       /\ Forall2 (fun uv i =>
                     edge_pairs graph !! i = Some uv
                     /\ forall j, (j < i)%nat -> edge_pairs graph !! j <> Some uv)
                  edge_list inds)
  /\ (forall t0,
        QaoaCore.preprocessing graph None = Ok t0 ->
        Exists (fun uv => uv ∉ edge_pairs graph) edge_list ->
        QaoaCore.preprocessing graph (Some edge_list) = Raise ValueError).
Proof.
  split.
  - intros t H. unfold QaoaCore.preprocessing in H.
    apply bind_Ok in H as (cuv & _ & H).
    apply bind_Ok in H as (inds' & Hinds & H). injection H as <-. simpl.
    apply bind_Ok in Hinds as (inds & Hinds & H). injection H as <-.
    exists inds. split; [reflexivity|].
    apply mapM_Forall2 in Hinds.
    eapply Forall2_impl; [exact Hinds|].
    intros uv i Hi. apply list_index_found, Hi.
  - intros t0 H0 Hex. unfold QaoaCore.preprocessing in *.
    apply bind_Ok in H0 as (cuv & -> & _). simpl.
    rewrite indices_missing by exact Hex. reflexivity.
Qed.

Lemma driver_edge_indices_witness :
  QaoaCore.preprocessing (single_edge 1) (Some [(1%nat, 0%nat)])
  = Raise ValueError.
Proof.
  apply (proj2 (driver_edge_indices (single_edge 1) [(1%nat, 0%nat)])
               _ (preprocessing_single_edge 1)).
  constructor. intros H. apply list_elem_of_In in H.
  simpl in H. destruct H as [H|[]]. discriminate.
Defined.

(** ** The analytical evaluators and the number of angles they declare *)

(** X22: the two generalized first-order evaluators accept every angle
    vector of the length they declare, on a graph whose index edges stay
    below the number of nodes: the multi-angle one (2 angles per node)
    returns minus the formula, the reduced one (1 angle per node) minus the
    formula with the fixed angles at pi/4. *)
Theorem z1_evaluators_accept_their_arity
    (qaoa_decorator : (list R -> py R) -> nat -> nat -> list R -> py R)
    (get_index_edge_list : Graph -> list (nat * nat)) (graph : Graph)
    (angles : list R) :
  Forall (fun e : nat * nat =>
            (e.1 < length (nodes graph))%nat /\ (e.2 < length (nodes graph))%nat)
         (get_index_edge_list graph) ->
  let full :=
    Optimization.get_evaluator_general_z1_analytical
      qaoa_decorator get_index_edge_list graph true in
  let reduced :=
    Optimization.get_evaluator_general_z1_analytical_reduced
      get_index_edge_list graph in
  (length angles = Optimization.num_angles full ->
   Optimization.func full angles
   = Ok (- z1_formula angles graph (get_index_edge_list graph)))
  /\ (length angles = Optimization.num_angles reduced ->
      Optimization.func reduced angles
      = Ok (- (INR (length (edges graph)) / 2
               - Rsum (map (fun e : nat * nat =>
                              sin (2 * nth e.1 angles 0)
                              * sin (2 * nth e.2 angles 0) / 2)
                           (get_index_edge_list graph))))).
Proof.
  intros Hl full reduced. subst full reduced.
  split; intros Hlen; simpl in Hlen; simpl; unfold Optimization.change_sign.
  - unfold Analytical.calc_expectation_general_analytical_z1.
    rewrite z1_loop; [reflexivity|].
    eapply Forall_impl; [exact Hl|]. intros e [H1 H2]. lia.
  - unfold Analytical.calc_expectation_general_analytical_z1_reduced,
      Analytical.calc_expectation_general_analytical_z1.
    rewrite z1_loop.
    + simpl. f_equal. f_equal. f_equal. apply Rsum_map_ext. intros e He.
      rewrite Forall_forall in Hl.
      destruct (Hl e (proj2 (list_elem_of_In _ _) He)) as [H1 H2].
      unfold z1_term.
      rewrite !nth_replicate_app_r, !nth_replicate_app_l by assumption.
      rewrite sin_2_quarter_pi. field.
    + eapply Forall_impl; [exact Hl|]. intros e [H1 H2].
      rewrite length_app, length_replicate, Hlen. lia.
Qed.

Lemma z1_evaluators_accept_their_arity_witness :
  Optimization.func
    (Optimization.get_evaluator_general_z1_analytical
       (fun f _ _ => f) edge_pairs (single_edge 1) true) [1; 2; 3; 4]
  = Ok (- z1_formula [1; 2; 3; 4] (single_edge 1) (edge_pairs (single_edge 1))).
Proof.
  apply (proj1 (z1_evaluators_accept_their_arity
                  (fun f _ _ => f) edge_pairs (single_edge 1) [1; 2; 3; 4]
                  ltac:(repeat constructor))).
  reflexivity.
Defined.

(** X23: the multi-angle evaluator of the closed form accepts every angle
    vector of the length it declares ([num_edges + num_nodes]) on a
    well-formed graph whose node labels are below the number of nodes, and
    returns minus the value of the closed form. *)
Theorem maxcut_analytical_evaluator_accepts_its_arity
    (qaoa_decorator : (list R -> py R) -> nat -> nat -> list R -> py R)
    (graph : Graph) (edge_list : option (list (nat * nat))) (angles : list R) :
  weighted_graph graph ->
  Forall (fun u => (u < length (nodes graph))%nat) (nodes graph) ->
  Forall (fun uv : nat * nat => joined graph uv.1 uv.2)
         (default (edge_pairs graph) edge_list) ->
  let evaluator :=
    Optimization.get_evaluator_standard_maxcut_analytical
      qaoa_decorator graph edge_list true in
  length angles = Optimization.num_angles evaluator ->
  exists value,
    (Analytical.calc_expectation_ma_qaoa_analytical_p1 angles graph edge_list).1
    = Ok value
    /\ Optimization.func evaluator angles = Ok (- value).
Proof.
  intros Hwf Hnodes Hlist evaluator Hlen. subst evaluator. simpl in Hlen.
  assert (Hfit : Forall (fun u => (length (edges graph) + u < length angles)%nat)
                        (nodes graph)).
  { eapply Forall_impl; [exact Hnodes|]. intros u Hu. simpl in Hu. lia. }
  destruct (closed_form_defined angles graph edge_list Hwf Hfit Hlist)
    as [value Hvalue].
  exists value. unfold Analytical.calc_expectation_ma_qaoa_analytical_p1.
  split; [exact Hvalue|]. simpl. unfold Optimization.change_sign.
  unfold Analytical.calc_expectation_ma_qaoa_analytical_p1.
  rewrite Hvalue. reflexivity.
Qed.

Lemma maxcut_analytical_evaluator_accepts_its_arity_witness :
  exists value,
    (Analytical.calc_expectation_ma_qaoa_analytical_p1 [1; 2; 3]
       (single_edge 1) None).1 = Ok value
    /\ Optimization.func single_edge_evaluator [1; 2; 3] = Ok (- value).
Proof.
  apply (maxcut_analytical_evaluator_accepts_its_arity
           (fun f _ _ => f) (single_edge 1) None [1; 2; 3]).
  - constructor; [|constructor]. simpl. rewrite lookup_singleton_eq.
    split; [eauto|]. split; [left | right; left].
  - repeat constructor.
  - apply edge_pairs_joined.
  - reflexivity.
Defined.

(** ** The random-circuit closed form *)

Lemma Rprod_constant {A : Type} (c : R) (l : list A) :
  Rprod (map (fun _ => c) l) = c ^ length l.
Proof.
  unfold Rprod.
  enough (H : forall a, fold_left Rmult (map (fun _ => c) l) a = a * c ^ length l)
    by (rewrite H; ring).
  induction l as [|x l IH]; intros a; simpl; [ring|].
  rewrite IH. ring.
Qed.

Lemma filter_agree {A : Type} (P Q : A -> Prop) `{forall a, Decision (P a)}
    `{forall a, Decision (Q a)} (l : list A) :
  Forall (fun a => P a <-> Q a) l -> filter P l = filter Q l.
Proof.
  intros Hagree. induction Hagree as [|a l Ha _ IH]; [reflexivity|].
  rewrite !filter_cons, IH.
  destruct (decide (P a)), (decide (Q a)); tauto.
Qed.

Lemma length_filter_split {A : Type} (P : A -> Prop)
    `{forall a, Decision (P a)} (l : list A) :
  length (filter (fun a => ~ P a) l) = (length l - length (filter P l))%nat.
Proof.
  pose proof (Permutation_length (filter_app_complement P l)) as Hlen.
  rewrite length_app in Hlen. lia.
Qed.

(** Two lists without repetitions share as many elements of the one as of
    the other. *)
Lemma shared_count (d e : list nat) :
  NoDup d -> NoDup e ->
  length (filter (fun m => m ∈ d) e) = length (filter (fun m => m ∈ e) d).
Proof.
  intros Hd He. apply Permutation_length, NoDup_Permutation.
  - apply NoDup_filter, He.
  - apply NoDup_filter, Hd.
  - intros m. rewrite !list_elem_of_filter. tauto.
Qed.

Section Counting.
Variables d e : list nat.
Hypothesis Hd : NoDup d.
Hypothesis He : NoDup e.

Local Abbreviation f := (filter (fun m => m ∈ e) d).

Lemma count_d_without_f :
  length (filter (fun m => m ∉ f) d) = (length d - length f)%nat.
Proof.
  rewrite <- (length_filter_split (fun m => m ∈ e) d). f_equal.
  apply filter_agree, Forall_forall. intros m Hm. rewrite list_elem_of_filter. tauto.
Qed.

Lemma count_e_without_f :
  length (filter (fun m => m ∉ f) e) = (length e - length f)%nat.
Proof.
  rewrite <- (shared_count d e Hd He).
  rewrite <- (length_filter_split (fun m => m ∈ d) e). f_equal.
  apply filter_agree, Forall_forall. intros m Hm. rewrite list_elem_of_filter. tauto.
Qed.

Lemma count_f_le_d : (length f <= length d)%nat.
Proof. apply length_filter. Qed.

Lemma count_f_le_e : (length f <= length e)%nat.
Proof. rewrite <- (shared_count d e Hd He). apply length_filter. Qed.
End Counting.

Lemma others_NoDup (graph : Graph) (u v : nat) : NoDup (others graph u v).
Proof. apply NoDup_filter, NoDup_remove_dups. Qed.

Lemma pow_split (c : R) (a b : nat) :
  (b <= a)%nat -> c ^ (a - b) * c ^ b = c ^ a.
Proof. intros H. rewrite <- pow_add. f_equal. lia. Qed.

(** The contribution of one pair is the closed formula. *)
Lemma random_edge_term_formula (gamma beta : R) (graph_random : Graph)
    (u v : nat) :
  u ∈ nodes graph_random -> v ∈ nodes graph_random ->
  Analytical.random_edge_term gamma beta graph_random u v
  = Ok (random_formula gamma beta graph_random (u, v)).
Proof.
  intros Hu Hv. unfold Analytical.random_edge_term, adj.
  rewrite !decide_True by assumption. simpl. f_equal.
  fold (neighbour_list graph_random u). fold (neighbour_list graph_random v).
  fold (others graph_random u v). fold (others graph_random v u).
  fold (common graph_random u v).
  unfold random_formula. simpl.
  pose proof (others_NoDup graph_random u v) as Hd.
  pose proof (others_NoDup graph_random v u) as He.
  set (d := others graph_random u v) in *.
  set (e := others graph_random v u) in *.
  assert (Hf : common graph_random u v = filter (fun m => m ∈ e) d)
    by reflexivity.
  rewrite Hf. rewrite !Rprod_constant.
  rewrite (count_d_without_f d e), (count_e_without_f d e Hd He).
  pose proof (count_f_le_d d e) as Hfd.
  pose proof (count_f_le_e d e Hd He) as Hfe.
  set (F := length (filter (fun m => m ∈ e) d)) in *.
  set (c := cos gamma).
  assert (Hs4 : sin (4 * beta) = 2 * sin (2 * beta) * cos (2 * beta))
    by (replace (4 * beta) with (2 * (2 * beta)) by ring; apply sin_2a).
  assert (Hadd : c ^ (length d - F + (length e - F))
                 = c ^ (length d - F) * c ^ (length e - F)) by apply pow_add.
  destruct (decide (F <> 0%nat)) as [Hne|Hz]; simpl.
  - rewrite ?Rprod_constant. fold F.
    replace (gamma - gamma) with 0 by ring. rewrite cos_0, pow1.
    replace (gamma + gamma) with (2 * gamma) by ring.
    rewrite !pow_split by assumption.
    destruct (decide (u ∈ neighbour_list graph_random v));
      cbv iota; rewrite ?Hs4, Hadd;
      generalize (c ^ (length d - F)) (c ^ (length e - F))
                 (cos (2 * gamma) ^ F) (c ^ length d) (c ^ length e);
      intros; field.
  - assert (HF : F = 0%nat) by lia. rewrite HF in *.
    rewrite !Nat.sub_0_r in *.
    destruct (decide (u ∈ neighbour_list graph_random v));
      cbv iota; rewrite ?Hs4, Hadd; simpl;
      generalize (c ^ length d) (c ^ length e); intros; field.
Qed.

(** X24: the random-circuit closed form computes, for every requested pair
    of nodes of [graph_random], the closed formula in the numbers of other
    and of shared neighbours, and adds these up; it reads [angles[0]] and
    [angles[1]] only, and raises [IndexError] when the angle vector is
    shorter than that. *)
Theorem random_closed_form_formula (angles : list R)
    (graph graph_random : Graph) (edge_list : option (list (nat * nat))) :
  Forall (fun uv : nat * nat =>
            uv.1 ∈ nodes graph_random /\ uv.2 ∈ nodes graph_random)
         (default (edge_pairs graph) edge_list) ->
  ((length angles < 2)%nat ->
   Analytical.calc_expectation_random_qaoa_analytical_p1
     angles graph graph_random edge_list = Raise IndexError)
  /\ ((2 <= length angles)%nat ->
      Analytical.calc_expectation_random_qaoa_analytical_p1
        angles graph graph_random edge_list
      = Ok (Rsum (map (random_formula (nth 0 angles 0) (nth 1 angles 0)
                                      graph_random)
                      (default (edge_pairs graph) edge_list)))).
Proof.
  intros Hlist.
  unfold Analytical.calc_expectation_random_qaoa_analytical_p1.
  assert (Hsel : match edge_list with
                 | Some l => l
                 | None => edge_pairs graph
                 end = default (edge_pairs graph) edge_list)
    by (destruct edge_list; reflexivity).
  rewrite Hsel. split; intros Hlen.
  - destruct angles as [|gamma [|beta rest]]; simpl in Hlen;
      [reflexivity | reflexivity | lia].
  - rewrite (index_lt angles 0 0), (index_lt angles 1 0) by lia. simpl.
    apply (foldM_sum (fun uv : nat * nat =>
             Analytical.random_edge_term (nth 0 angles 0) (nth 1 angles 0)
                                         graph_random uv.1 uv.2)).
    intros uv Huv. rewrite Forall_forall in Hlist.
    destruct (Hlist uv (proj2 (list_elem_of_In _ _) Huv)) as [Hu Hv].
    rewrite (random_edge_term_formula _ _ _ _ _ Hu Hv).
    destruct uv; reflexivity.
Qed.

Lemma random_closed_form_formula_witness :
  Analytical.calc_expectation_random_qaoa_analytical_p1
    [1; 2] (single_edge 1) (single_edge 1) None
  = Ok (Rsum (map (random_formula (nth 0 [1; 2] 0) (nth 1 [1; 2] 0)
                                  (single_edge 1))
                  (default (edge_pairs (single_edge 1)) None))).
Proof.
  apply (proj2 (random_closed_form_formula [1; 2] (single_edge 1)
                  (single_edge 1) None
                  ltac:(repeat constructor))).
  simpl. lia.
Defined.

(** ** The standard layout of the closed form against the random-circuit
       formula *)

Lemma unit_graph_weighted (graph : Graph) :
  unit_graph graph -> weighted_graph graph.
Proof.
  intros H. eapply Forall_impl; [exact H|].
  intros e (Hw & Hn). rewrite Hw. split; [eauto | exact Hn].
Qed.

Lemma find_joined (graph : Graph) (u v : nat) :
  joined graph u v ->
  exists e, List.find (fun e => same_edge u v e.1.1 e.1.2) (edges graph) = Some e
            /\ In e (edges graph).
Proof.
  intros Huv.
  destruct (List.find _ (edges graph)) as [e|] eqn:Hfind.
  - exists e. split; [reflexivity|]. apply find_some in Hfind as [Hin _]. exact Hin.
  - exfalso. apply Exists_exists in Huv as (e & Hin & Hs).
    pose proof (find_none _ _ Hfind e (proj1 (list_elem_of_In _ _) Hin)) as Hn.
    simpl in Hn. congruence.
Qed.

Lemma weight_unit (graph : Graph) (u v : nat) :
  unit_graph graph -> joined graph u v ->
  edge_attr graph u v "weight" = Ok 1.
Proof.
  intros Hunit Huv. unfold edge_attr.
  destruct (find_joined graph u v Huv) as (e & -> & Hin).
  unfold unit_graph in Hunit. rewrite Forall_forall in Hunit.
  destruct (Hunit e (proj2 (list_elem_of_In _ _) Hin)) as (-> & _).
  reflexivity.
Qed.

(** Every scaled gamma is the product of the gamma and the weight of one
    edge. *)
Lemma scaled_gammas_products (graph : Graph) (gammas : list R)
    (values : list (nat * nat * R)) (item : nat * nat * R) :
  scaled_gammas graph gammas = Ok values -> In item values ->
  exists i e g w,
    edges graph !! i = Some e /\ gammas !! i = Some g
    /\ e.2 !! "weight" = Some w /\ item.2 = g * w.
Proof.
  intros Hvalues Hin.
  assert (Hlen : length values = length (edges graph)).
  { apply scaled_gammas_endpoints in Hvalues.
    rewrite <- (length_map fst values), Hvalues, length_map. reflexivity. }
  apply list_elem_of_In, list_elem_of_lookup in Hin as [i Hi].
  assert (He : is_Some (edges graph !! i)).
  { apply lookup_lt_is_Some. rewrite <- Hlen. eapply lookup_lt_Some, Hi. }
  destruct He as [e He].
  unfold scaled_gammas, edges_data, enumerate in Hvalues.
  destruct (scaled_items_lookup _ (edges graph) 0 values Hvalues i e He)
    as (g & w & Hg & Hw & Hv).
  rewrite Hi in Hv. injection Hv as ->.
  exists i, e, g, w. repeat split; assumption.
Qed.

Lemma omap_endpoints (F : nat * nat -> option nat)
    (G : nat * nat * gmap string R -> gmap string R)
    (es : list (nat * nat * gmap string R)) :
  omap (fun e : nat * nat * gmap string R => F e.1)
       (map (fun e => (e.1, G e)) es)
  = omap (fun e : nat * nat * gmap string R => F e.1) es.
Proof.
  induction es as [|e es IH]; [reflexivity|]. cbn.
  destruct (F e.1); cbn in IH |- *; rewrite IH; reflexivity.
Qed.

Lemma adj_annotated (graph : Graph) (values : list (nat * nat * R))
    (name : string) (u : nat) :
  adj (set_edge_attributes graph values name) u = adj graph u.
Proof.
  unfold adj. rewrite set_attributes_nodes, edges_set_attributes.
  rewrite (omap_endpoints
             (fun uv => if (u =? uv.1)%nat then Some uv.2
                        else if (u =? uv.2)%nat then Some uv.1 else None)
             (fun e => annotated name values e.1 e.2)).
  reflexivity.
Qed.

Lemma joined_neighbour (graph : Graph) (u v : nat) (gv : list nat) :
  joined graph u v -> adj graph v = Ok gv -> u ∈ gv.
Proof.
  intros Huv Hgv. unfold adj in Hgv.
  destruct (decide (v ∈ nodes graph)) as [_|]; [|discriminate].
  injection Hgv as <-. rewrite elem_of_remove_dups.
  apply Exists_exists in Huv as (ed & He & Hsame).
  apply list_elem_of_omap. exists ed. split; [exact He|].
  unfold same_edge in Hsame.
  apply orb_true_iff in Hsame as [H|H];
    apply andb_true_iff in H as [Ha Hb];
    apply Nat.eqb_eq in Ha, Hb; subst.
  - destruct (ed.1.2 =? ed.1.1)%nat eqn:Heq.
    + apply Nat.eqb_eq in Heq. rewrite Heq. reflexivity.
    + rewrite Nat.eqb_refl. reflexivity.
  - rewrite Nat.eqb_refl. reflexivity.
Qed.

Section Uniform.
Variable graph : Graph.
Variables gamma beta : R.
Variable values : list (nat * nat * R).
Variable gammas : list R.
Hypothesis Hunit : unit_graph graph.
Hypothesis Hgammas : Forall (fun a => a = gamma) gammas.
Hypothesis Hvalues : scaled_gammas graph gammas = Ok values.

Local Abbreviation annotated_graph := (set_edge_attributes graph values "gamma").

Lemma gamma_annotated_uniform (u m : nat) :
  joined graph u m -> edge_attr annotated_graph u m "gamma" = Ok gamma.
Proof.
  intros Hum. rewrite edge_attr_annotated.
  destruct (find_joined graph u m Hum) as (e & -> & Hin).
  destruct (annotated_value "gamma" values e.1 e.2
              (names_every_edge graph _ values e Hvalues Hin))
    as (item & Hitem & ->).
  destruct (scaled_gammas_products graph gammas values item Hvalues Hitem)
    as (i & e' & g & w & He' & Hg & Hw & ->).
  f_equal.
  rewrite Forall_forall in Hgammas.
  rewrite (Hgammas g) by (eapply list_elem_of_lookup_2, Hg).
  unfold unit_graph in Hunit. rewrite Forall_forall in Hunit.
  destruct (Hunit e' (list_elem_of_lookup_2 _ _ _ He')) as (Hw1 & _).
  rewrite Hw1 in Hw. injection Hw as <-. ring.
Qed.

Lemma cos_prod_uniform (u : nat) (ms : list nat) :
  Forall (joined graph u) ms ->
  cos_prod annotated_graph u ms = Ok (Rprod (map (fun _ => cos gamma) ms)).
Proof.
  intros Hms. unfold cos_prod.
  rewrite (mapM_ext _ (fun _ => Ok (cos gamma))), mapM_pure; [reflexivity|].
  intros m Hm. rewrite Forall_forall in Hms.
  rewrite (gamma_annotated_uniform u m (Hms m (proj2 (list_elem_of_In _ _) Hm))).
  reflexivity.
Qed.

Lemma cos_prod_f_uniform (s : R) (u v : nat) (f : list nat) :
  Forall (joined graph u) f -> Forall (joined graph v) f ->
  cos_prod_f annotated_graph s u v f
  = Ok (Rprod (map (fun _ => cos (gamma + s * gamma)) f)).
Proof.
  intros Hu Hv. unfold cos_prod_f.
  rewrite (mapM_ext _ (fun _ => Ok (cos (gamma + s * gamma)))), mapM_pure;
    [reflexivity|].
  intros m Hm. rewrite Forall_forall in Hu, Hv.
  rewrite (gamma_annotated_uniform u m (Hu m (proj2 (list_elem_of_In _ _) Hm))).
  rewrite (gamma_annotated_uniform v m (Hv m (proj2 (list_elem_of_In _ _) Hm))).
  reflexivity.
Qed.

(** With one gamma on every edge and one beta on every node, and unit
    weights, the contribution of an edge is the one of the random-circuit
    formula on the same graph. *)
Lemma edge_term_uniform (betas : list R) (u v : nat) :
  joined graph u v ->
  index betas u = Ok beta -> index betas v = Ok beta ->
  edge_term annotated_graph betas u v
  = Analytical.random_edge_term gamma beta graph u v.
Proof.
  intros Huv Hbu Hbv.
  destruct (joined_nodes graph u v (unit_graph_weighted graph Hunit) Huv)
    as [Hu Hv].
  destruct (adj_ok graph u Hu) as (gu & Hgu & Hju).
  destruct (adj_ok graph v Hv) as (gv & Hgv & Hjv).
  pose proof (joined_neighbour graph u v gv Huv Hgv) as Huin.
  unfold edge_term, Analytical.random_edge_term.
  rewrite weight_annotated, (weight_unit graph u v Hunit Huv).
  rewrite !adj_annotated, Hgu, Hgv.
  rewrite (gamma_annotated_uniform u v Huv), Hbu, Hbv. simpl.
  set (d := filter (fun m => m <> v) gu).
  set (e := filter (fun m => m <> u) gv).
  set (f := filter (fun m => m ∈ e) d).
  assert (Hd : Forall (joined graph u) d) by (apply Forall_filter_keep, Hju).
  assert (He : Forall (joined graph v) e) by (apply Forall_filter_keep, Hjv).
  assert (Hfu : Forall (joined graph u) f) by (apply Forall_filter_keep, Hd).
  assert (Hfv : Forall (joined graph v) f).
  { apply Forall_forall. intros m Hm.
    apply list_elem_of_filter in Hm as [Hme _].
    rewrite Forall_forall in He. apply He, Hme. }
  rewrite (cos_prod_uniform u (filter (fun m => m ∉ f) d))
    by (apply Forall_filter_keep, Hd).
  rewrite (cos_prod_uniform v (filter (fun m => m ∉ f) e))
    by (apply Forall_filter_keep, He).
  simpl. destruct (decide (u ∈ gv)) as [_|Hn]; [|contradiction].
  destruct (decide (length f <> 0%nat)) as [Hne|Hz]; simpl.
  - rewrite !(cos_prod_f_uniform _ u v f Hfu Hfv). simpl.
    rewrite (cos_prod_uniform u f Hfu), (cos_prod_uniform v f Hfv). simpl.
    replace (gamma + 1 * gamma) with (gamma + gamma) by ring.
    replace (gamma + -1 * gamma) with (gamma - gamma) by ring.
    f_equal. field.
  - f_equal. field.
Qed.
End Uniform.

(** X25: on a graph with unit weights the closed form in the standard
    layout (one gamma, one beta, run through the converter and the
    multi-angle closed form) gives what the random-circuit closed form gives
    on the same graph taken as its own circuit. *)
Theorem standard_closed_form_is_the_random_one (gamma beta : R)
    (graph : Graph) (edge_list : option (list (nat * nat))) :
  unit_graph graph ->
  Forall (fun u => (u < length (nodes graph))%nat) (nodes graph) ->
  Forall (fun uv : nat * nat => joined graph uv.1 uv.2)
         (default (edge_pairs graph) edge_list) ->
  (QaoaCore.run_qaoa_analytical_p1 [gamma; beta] graph edge_list).1
  = Analytical.calc_expectation_random_qaoa_analytical_p1
      [gamma; beta] graph graph edge_list.
Proof.
  intros Hunit Hnodes Hlist.
  unfold QaoaCore.run_qaoa_analytical_p1, QaoaCore.run_ma_qaoa_analytical_p1,
    Analytical.calc_expectation_random_qaoa_analytical_p1.
  cbn [QaoaCore.convert_angles_qaoa_to_multi_angle index lookup].
  set (E := length (edges graph)). set (n := length (nodes graph)).
  unfold ma_qaoa_analytical_p1. fold E.
  assert (Hslice : slice (replicate E gamma ++ replicate n beta ++ []) 0 E
                   = replicate E gamma).
  { unfold slice. rewrite drop_0, Nat.sub_0_r.
    apply take_app_length'. symmetry. apply length_replicate. }
  assert (Hdrop : drop E (replicate E gamma ++ replicate n beta ++ [])
                  = replicate n beta ++ [])
    by (apply drop_app_length'; symmetry; apply length_replicate).
  rewrite Hslice, Hdrop.
  destruct (scaled_gammas_ok graph (replicate E gamma ++ replicate n beta ++ [])
              (weighted_graph_weights _ (unit_graph_weighted _ Hunit)))
    as [values Hvalues].
  { rewrite length_app, length_replicate. unfold E. lia. }
  fold E in Hvalues. rewrite Hslice in Hvalues. rewrite Hvalues. simpl.
  assert (Hsel : match edge_list with
                 | Some l => l
                 | None => edge_pairs graph
                 end = default (edge_pairs graph) edge_list)
    by (destruct edge_list; reflexivity).
  rewrite Hsel. apply foldM_ext_in. intros objective uv Huv.
  rewrite Forall_forall in Hlist.
  pose proof (Hlist uv (proj2 (list_elem_of_In _ _) Huv)) as Hjoined.
  destruct (joined_nodes graph _ _ (unit_graph_weighted graph Hunit) Hjoined)
    as [Hu Hv].
  rewrite Forall_forall in Hnodes.
  rewrite (edge_term_uniform graph gamma beta values (replicate E gamma)
             Hunit (Forall_replicate _ _ _ eq_refl) Hvalues); try assumption.
  - reflexivity.
  - rewrite (index_lt _ _ 0)
      by (rewrite length_app, length_replicate; specialize (Hnodes _ Hu);
          fold n in Hnodes; lia).
    f_equal. apply nth_replicate_app_l. apply (Hnodes _ Hu).
  - rewrite (index_lt _ _ 0)
      by (rewrite length_app, length_replicate; specialize (Hnodes _ Hv);
          fold n in Hnodes; lia).
    f_equal. apply nth_replicate_app_l. apply (Hnodes _ Hv).
Qed.

Lemma standard_closed_form_is_the_random_one_witness :
  (QaoaCore.run_qaoa_analytical_p1 [1; 2] (single_edge 1) None).1
  = Analytical.calc_expectation_random_qaoa_analytical_p1
      [1; 2] (single_edge 1) (single_edge 1) None.
Proof.
  apply standard_closed_form_is_the_random_one.
  - constructor; [|constructor]. simpl. rewrite lookup_singleton_eq.
    split; [reflexivity|]. split; [left | right; left].
  - repeat constructor.
  - apply edge_pairs_joined.
Defined.

(** ** Periodicity of the simulation *)

Lemma gate_periodic (beta : R) (k : nat) (flip : nat -> nat) (psi : list C) :
  gate (beta + 2 * INR k * PI) flip psi = gate beta flip psi.
Proof. unfold gate. rewrite cos_period, sin_period. reflexivity. Qed.

Lemma nth_full_turns (l l' : list R) (q : nat) :
  Forall2 full_turns l l' -> full_turns (nth q l 0) (nth q l' 0).
Proof.
  intros H. revert q. induction H as [|a a' l l' Ha _ IH]; intros q.
  - exists 0%nat. destruct q; simpl; ring.
  - destruct q as [|q]; [exact Ha | apply IH].
Qed.

Lemma mix_periodic (neighbours : list (list nat)) (betas betas' : list R)
    (qs : list nat) (psi : list C) :
  Forall2 full_turns betas betas' ->
  mix neighbours betas' qs psi = mix neighbours betas qs psi.
Proof.
  intros H. unfold mix. revert psi.
  induction qs as [|q qs IH]; intros psi; [reflexivity|]. simpl.
  destruct (nth_full_turns betas betas' q H) as [k ->].
  rewrite gate_periodic. apply IH.
Qed.

Lemma phase_periodic (g g' c : R) :
  full_turns g g' -> c = 0 \/ c = 1 ->
  Cexp (Cmul (Cmul (Copp Ci) (RtoC g')) (RtoC c))
  = Cexp (Cmul (Cmul (Copp Ci) (RtoC g)) (RtoC c)).
Proof.
  intros [k ->] [-> | ->]; rewrite !Cexp_phase.
  - rewrite !Rmult_0_r. reflexivity.
  - rewrite !Rmult_1_r, cos_period, sin_period. reflexivity.
Qed.

Lemma phases_periodic (rows : list (list R)) (gammas gammas' : list R)
    (N : nat) :
  Forall2 full_turns gammas gammas' ->
  Forall (Forall (fun c => c = 0 \/ c = 1)) rows ->
  phases rows gammas' N = phases rows gammas N.
Proof.
  intros H. unfold phases. generalize (replicate N C1) as acc. revert rows.
  induction H as [|g g' gs gs' Hg _ IH]; intros rows acc Hrows;
    [reflexivity|].
  destruct Hrows as [|row rows Hrow Hrows]; [reflexivity|]. simpl.
  rewrite (map_ext_in _ (fun c => Cexp (Cmul (Cmul (Copp Ci) (RtoC g)) (RtoC c)))).
  - apply IH, Hrows.
  - intros c Hc. apply phase_periodic; [exact Hg|].
    rewrite Forall_forall in Hrow. apply Hrow, list_elem_of_In, Hc.
Qed.

Lemma slice_full_turns (l l' : list R) (lo hi : nat) :
  Forall2 full_turns l l' -> Forall2 full_turns (slice l lo hi) (slice l' lo hi).
Proof. intros H. unfold slice. apply Forall2_take, Forall2_drop, H. Qed.

Lemma evolve_periodic (all_cuv_vals : list (list R))
    (neighbours : list (list nat)) (n : nat) (angles angles' : list R)
    (L k : nat) (psi : list C) :
  Forall2 full_turns angles angles' ->
  Forall (Forall (fun c => c = 0 \/ c = 1)) all_cuv_vals ->
  evolve all_cuv_vals neighbours n angles' L k psi
  = evolve all_cuv_vals neighbours n angles L k psi.
Proof.
  intros H Hrows. unfold evolve. generalize (seq 0 k) as l. intros l.
  revert psi. induction l as [|i l IH]; intros psi; [reflexivity|]. simpl.
  rewrite IH. f_equal. unfold layer, layer_gammas, layer_betas.
  rewrite (phases_periodic all_cuv_vals _ _ _
             (Forall2_take _ _ _ _ (slice_full_turns _ _ _ _ H)) Hrows).
  apply mix_periodic, Forall2_drop, slice_full_turns, H.
Qed.

(** X26: on a table of cut indicators (entries 0 or 1) the simulation is
    periodic in every angle: adding whole numbers of full turns to the
    angles, a different number to each, does not change the value. *)
Theorem simulation_is_periodic (E N n : nat)
    (all_cuv_vals : list (list R)) (neighbours basis_bin : list (list nat))
    (angles angles' : list R) (p : Z) (edge_inds : option (list nat)) :
  valid_terms E N all_cuv_vals -> valid_tables N n neighbours basis_bin ->
  (1 <= p)%Z -> (E + n <= per_layer angles p)%nat ->
  Forall (fun i => (i < E)%nat) (default (seq 0 E) edge_inds) ->
  Forall (Forall (fun c => c = 0 \/ c = 1)) all_cuv_vals ->
  Forall2 full_turns angles angles' ->
  QaoaCore.run_ma_qaoa_simulation angles' p all_cuv_vals neighbours basis_bin
                                  edge_inds
  = QaoaCore.run_ma_qaoa_simulation angles p all_cuv_vals neighbours basis_bin
                                    edge_inds.
Proof.
  intros Hterms Hvalid Hp HL Hinds Hrows H.
  assert (Hper : per_layer angles' p = per_layer angles p)
    by (unfold per_layer; rewrite (Forall2_length _ _ _ H); reflexivity).
  rewrite !(run_simulation_gather E N n) by (try assumption; rewrite Hper; exact HL).
  rewrite Hper, (evolve_periodic _ _ _ angles angles') by assumption.
  reflexivity.
Qed.

Lemma simulation_is_periodic_witness :
  QaoaCore.run_ma_qaoa_simulation
    [1 + 2 * INR 1 * PI; 2 + 2 * INR 0 * PI; 3 + 2 * INR 2 * PI] 1
    single_edge_cuts (get_neighbour_labelings 2) (get_all_binary_labelings 2)
    None
  = QaoaCore.run_ma_qaoa_simulation [1; 2; 3] 1 single_edge_cuts
      (get_neighbour_labelings 2) (get_all_binary_labelings 2) None.
Proof.
  apply (simulation_is_periodic 1 4 2).
  - exact single_edge_cuts_valid.
  - exact (provider_tables_valid 2).
  - lia.
  - vm_compute. lia.
  - repeat constructor.
  - unfold single_edge_cuts. constructor; [|constructor].
    repeat (constructor; [first [left; reflexivity | right; reflexivity]|]).
    constructor.
  - repeat constructor; eexists; reflexivity.
Defined.

(** ** The simulation at the opposite angles *)

Lemma Cconj_C0 : Cconj C0 = C0.
Proof. Cring. Qed.

Lemma Cconj_C1 : Cconj C1 = C1.
Proof. Cring. Qed.

Lemma Cconj_mul (a b : C) : Cconj (Cmul a b) = Cmul (Cconj a) (Cconj b).
Proof. Cring. Qed.

Lemma Cnorm2_conj (a : C) : Cnorm2 (Cconj a) = Cnorm2 a.
Proof. unfold Cnorm2. simpl. ring. Qed.

Lemma nth_conj (psi : list C) (j : nat) :
  nth j (map Cconj psi) C0 = Cconj (nth j psi C0).
Proof. rewrite <- (map_nth Cconj), Cconj_C0. reflexivity. Qed.

Lemma nth_opp (l : list R) (q : nat) : nth q (map Ropp l) 0 = - nth q l 0.
Proof.
  rewrite <- (map_nth Ropp). f_equal. ring.
Qed.

Lemma phase_conj (g c : R) :
  Cexp (Cmul (Cmul (Copp Ci) (RtoC (- g))) (RtoC c))
  = Cconj (Cexp (Cmul (Cmul (Copp Ci) (RtoC g)) (RtoC c))).
Proof.
  rewrite !Cexp_phase. unfold Cconj. simpl.
  replace (- g * c) with (- (g * c)) by ring.
  rewrite cos_neg, sin_neg. reflexivity.
Qed.

Lemma conj_zip_mul (a b : list C) :
  map Cconj (zip_with Cmul a b) = zip_with Cmul (map Cconj a) (map Cconj b).
Proof.
  revert b. induction a as [|x a IH]; intros [|y b]; simpl; try reflexivity.
  rewrite IH, Cconj_mul. reflexivity.
Qed.

Lemma phases_conj (rows : list (list R)) (gammas : list R) (N : nat) :
  phases rows (map Ropp gammas) N = map Cconj (phases rows gammas N).
Proof.
  unfold phases.
  assert (Hgen : forall acc,
    fold_left (fun acc gr =>
                 zip_with Cmul acc
                   (map (fun c => Cexp (Cmul (Cmul (Copp Ci) (RtoC gr.1)) (RtoC c)))
                        gr.2))
              (zip (map Ropp gammas) rows) (map Cconj acc)
    = map Cconj
        (fold_left (fun acc gr =>
                      zip_with Cmul acc
                        (map (fun c => Cexp (Cmul (Cmul (Copp Ci) (RtoC gr.1))
                                                  (RtoC c)))
                             gr.2))
                   (zip gammas rows) acc)).
  { revert rows. induction gammas as [|g gammas IH]; intros rows acc;
      [reflexivity|].
    destruct rows as [|row rows]; [reflexivity|]. simpl.
    rewrite <- IH. f_equal. rewrite conj_zip_mul. f_equal.
    rewrite map_map. apply map_ext. intros c. apply phase_conj. }
  rewrite <- Hgen. f_equal.
  induction N as [|N IH]; simpl; [reflexivity|].
  rewrite <- IH, Cconj_C1. reflexivity.
Qed.

Lemma gate_conj (beta : R) (flip : nat -> nat) (psi : list C) :
  gate (- beta) flip (map Cconj psi) = map Cconj (gate beta flip psi).
Proof.
  unfold gate. rewrite length_map, map_map. apply map_ext. intros j.
  rewrite !nth_conj, cos_neg, sin_neg. Cring.
Qed.

Lemma mix_conj (neighbours : list (list nat)) (betas : list R) (qs : list nat)
    (psi : list C) :
  mix neighbours (map Ropp betas) qs (map Cconj psi)
  = map Cconj (mix neighbours betas qs psi).
Proof.
  unfold mix. revert psi. induction qs as [|q qs IH]; intros psi;
    [reflexivity|].
  simpl. rewrite nth_opp, gate_conj. apply IH.
Qed.

Lemma slice_opp (l : list R) (lo hi : nat) :
  slice (map Ropp l) lo hi = map Ropp (slice l lo hi).
Proof.
  unfold slice. symmetry.
  rewrite <- (fmap_drop Ropp), <- (fmap_take Ropp). reflexivity.
Qed.

Lemma evolve_conj (all_cuv_vals : list (list R))
    (neighbours : list (list nat)) (n : nat) (angles : list R) (L k : nat)
    (psi : list C) :
  evolve all_cuv_vals neighbours n (map Ropp angles) L k (map Cconj psi)
  = map Cconj (evolve all_cuv_vals neighbours n angles L k psi).
Proof.
  unfold evolve. generalize (seq 0 k) as l. intros l. revert psi.
  induction l as [|i l IH]; intros psi; [reflexivity|]. simpl.
  rewrite <- IH. f_equal. unfold layer, layer_gammas, layer_betas.
  rewrite slice_opp, length_map.
  change (take (length all_cuv_vals) (map Ropp ?s)) with
    (take (length all_cuv_vals) (Ropp <$> s)).
  rewrite <- (fmap_take Ropp), <- (fmap_drop Ropp).
  change (Ropp <$> ?s) with (map Ropp s).
  rewrite phases_conj, <- conj_zip_mul. apply mix_conj.
Qed.

Lemma uniform_state_real (N : nat) :
  map Cconj (QaoaCore.uniform_state N) = QaoaCore.uniform_state N.
Proof.
  unfold QaoaCore.uniform_state.
  replace (map Cconj (replicate N (Cdivr C1 (sqrt (INR N)))))
    with (replicate N (Cconj (Cdivr C1 (sqrt (INR N)))))
    by (symmetry; apply fmap_replicate).
  f_equal. apply C_eq; simpl; unfold Rdiv; ring.
Qed.

Lemma expectation_conj (psi : list C) (diag : list R) :
  expectation (map Cconj psi) diag = expectation psi diag.
Proof.
  rewrite !expectation_zip. f_equal. revert diag.
  induction psi as [|z psi IH]; intros [|d diag]; simpl; try reflexivity.
  rewrite IH, Cnorm2_conj. reflexivity.
Qed.


